(** * ros2_whisper: the transcript merge engine of [transcript_manager_node.cpp]

    A shallow embedding of the gap-tolerant LCS aligner ([lcs_indicies_]),
    the merge planner and driver ([merge_one_]), the transcript serializer
    ([serialize_transcript_]), the token deserializer ([deserialize_msg_])
    and the control skeleton of the long-running request handler
    ([on_inference_accepted_]), with the properties the specification
    states about them.

    C++ [int] and [size_t] values are modelled as [Z] (the sentinel [-1] of
    the aligner is kept as it is; wrap-around at 2^31 is not modelled: all
    values are bounded by the lengths of the word lists).  A
    [std::vector] is a [list]; [v[i]] is [vget] and [v[i] = x] is [vset]
    where the code keeps the index in range, and [vat], which has no value
    out of range, where it does not (the deserializer). *)

From Stdlib Require Import ZArith List String Ascii Lia QArith.
From stdpp Require Import base tactics option list strings.
Import ListNotations.
Local Open Scope Z_scope.

(** * The program *)

(** ** Vectors indexed by [int] *)

(** [v[i]]: the element at index [i]; [d] stands for whatever an
    out-of-range read would yield (undefined in C++). *)
Definition vget {A} (d : A) (v : list A) (i : Z) : A :=
  if decide (0 <= i) then default d (v !! Z.to_nat i) else d.

(** [v[i] = x]; out of range the model leaves the vector as it is. *)
Definition vset {A} (v : list A) (i : Z) (x : A) : list A :=
  if decide (0 <= i) then <[Z.to_nat i := x]> v else v.

(** [t[i][j]] and [t[i][j] = x] on a vector of vectors. *)
Definition get2 {A} (d : A) (t : list (list A)) (i j : Z) : A :=
  vget d (vget [] t i) j.

Definition set2 {A} (t : list (list A)) (i j : Z) (x : A) : list (list A) :=
  vset t i (vset (vget [] t i) j x).

(** [std::vector<std::vector<T>> t(r, std::vector<T>(c, d))]. *)
Definition make2 {A} (r c : Z) (d : A) : list (list A) :=
  replicate (Z.to_nat r) (replicate (Z.to_nat c) d).

(** [for (i = lo; ...; ++i) body], run for [n] iterations. *)
Fixpoint for_loop {St} (n : nat) (i : Z) (body : Z -> St -> St) (s : St) : St :=
  match n with
  | O => s
  | S n' => for_loop n' (i + 1) body (body i s)
  end.

(** ** The LCS-with-gaps aligner *)

Module DPEntry.
Record t := mk { length : Z; gaps : Z }.
End DPEntry.

Record lcs_state := mkLcs {
  dp : list (list DPEntry.t);
  prev : list (list (Z * Z));
  maxLength : Z;
  endIndexA : Z;
  endIndexB : Z
}.

Definition dp_init : DPEntry.t := DPEntry.mk 0 0.
Definition prev_init : Z * Z := (-1, -1).

Definition dp_at (s : lcs_state) (i j : Z) : DPEntry.t := get2 dp_init (dp s) i j.
Definition prev_at (s : lcs_state) (i j : Z) : Z * Z := get2 prev_init (prev s) i j.

Definition set_cell (s : lcs_state) (i j : Z) (e : DPEntry.t) (p : Z * Z) : lcs_state :=
  mkLcs (set2 (dp s) i j e) (set2 (prev s) i j p)
        (maxLength s) (endIndexA s) (endIndexB s).

(** One of the three relaxations of a non-matching cell: skip from the
    source cell [(si, sj)], gated by its gap count and accepted only when it
    strictly increases [dp[i][j].length]. *)
Definition relax (allowedGaps : Z) (si sj i j : Z) (s : lcs_state) : lcs_state :=
  if (DPEntry.gaps (dp_at s si sj) <? allowedGaps)
     && (DPEntry.length (dp_at s i j) <? DPEntry.length (dp_at s si sj))
  then set_cell s i j
         (DPEntry.mk (DPEntry.length (dp_at s si sj)) (DPEntry.gaps (dp_at s si sj) + 1))
         (prev_at s si sj)
  else s.

(** Track the maximum length: [>=], so the latest cell in scan order wins. *)
Definition track (i j : Z) (s : lcs_state) : lcs_state :=
  if maxLength s <=? DPEntry.length (dp_at s i j)
  then mkLcs (dp s) (prev s) (DPEntry.length (dp_at s i j)) i j
  else s.

(** The body of the inner loop at cell [(i, j)]. *)
Definition lcs_cell (textA textB : list string) (allowedGaps : Z)
    (i j : Z) (s : lcs_state) : lcs_state :=
  let s' :=
    if String.eqb (vget EmptyString textA (i - 1)) (vget EmptyString textB (j - 1))
    then set_cell s i j
           (DPEntry.mk (DPEntry.length (dp_at s (i - 1) (j - 1)) + 1) 0)
           (i - 1, j - 1)
    else
      let s1 := relax allowedGaps (i - 1) j i j s in
      let s2 := relax allowedGaps i (j - 1) i j s1 in
      relax allowedGaps (i - 1) (j - 1) i j s2
  in track i j s'.

Definition lcs_row (textA textB : list string) (allowedGaps : Z)
    (i : Z) (s : lcs_state) : lcs_state :=
  for_loop (length textB) 1 (lcs_cell textA textB allowedGaps i) s.

(** The filled DP table together with [maxLength] and the end cell. *)
Definition lcs_fill (textA textB : list string) (allowedGaps : Z) : lcs_state :=
  let nA := Z.of_nat (length textA) in
  let nB := Z.of_nat (length textB) in
  for_loop (length textA) 1 (lcs_row textA textB allowedGaps)
    (mkLcs (make2 (nA + 1) (nB + 1) dp_init) (make2 (nA + 1) (nB + 1) prev_init)
           0 (-1) (-1)).

(** The backtracking loop: [while (endIndexA != -1 && endIndexB != -1)].
    [None] when the iteration budget runs out before the loop exits. *)
Fixpoint backtrack (fuel : nat) (s : lcs_state) (eA eB : Z)
    (resultA resultB : list Z) : option (list Z * list Z) :=
  if negb (eA =? -1) && negb (eB =? -1) then
    match fuel with
    | O => None
    | S fuel' =>
        let '(eA', eB') := prev_at s eA eB in
        backtrack fuel' s eA' eB' (resultA ++ [eA]) (resultB ++ [eB])
    end
  else Some (resultA, resultB).

(** [lcs_indicies_(textA, textB, allowedGaps)].  The budget of the
    backtracking loop is the number of rows of the table; [lcs_total] shows
    it is never exhausted. *)
Definition lcs_indicies_ (textA textB : list string) (allowedGaps : Z)
    : option (list Z * list Z) :=
  let s := lcs_fill textA textB allowedGaps in
  if maxLength s =? 0 then Some ([], [])
  else
    let '(eA, eB) := prev_at s (endIndexA s) (endIndexB s) in
    match backtrack (S (length textA)) s eA eB [] [] with
    | Some (resultA, resultB) => Some (reverse resultA, reverse resultB)
    | None => None
    end.

(** ** Words, segments and edit operations

    The classes [SingleToken], [SegmentMetaData], [Word] and [Transcript]
    are declared in headers that are not part of the sources at hand; their
    shape follows the data model of the specification.  A probability is a
    rational number: the code only stores and compares probabilities. *)

(** Modelled from the spec: [SingleToken], a token text with its
    probability (the class is declared in a header that is missing). *)
Record SingleToken := mkToken { token_text : string; token_prob : Q }.

(** Modelled from the spec: [SegmentMetaData], the end token, the duration
    and the start of a segment, in milliseconds (the class is declared in a
    header that is missing). *)
Record SegmentMetaData := mkSegment {
  end_token : SingleToken;
  duration : Z;
  start : Z
}.

(** Modelled from the spec: the entry variant ([Word] is declared in a
    header that is missing).  A word is either a text word (its tokens, the
    punctuation flag and the occurrence counter) or a segment marker, which
    takes part in the same occurrence accounting. *)
Inductive Word :=
| TextWord (tokens : list SingleToken) (punct : bool) (occurrences : Z)
| Segment (segment_data : SegmentMetaData) (occurrences : Z).

(** Modelled from the spec: the constructor [Word(tokens)] of the missing
    class, a text word that is not punctuation; [occurrences] starts at 1. *)
Definition Word_of_tokens (tokens : list SingleToken) : Word := TextWord tokens false 1.

(** Modelled from the spec: the constructor [Word(token, is_punct)] of the
    missing class, a word of one token. *)
Definition Word_of_token (t : SingleToken) (is_punct : bool) : Word := TextWord [t] is_punct 1.

(** Modelled from the spec: the constructor [Word(segment)] of the missing
    class, a segment marker. *)
Definition Word_of_segment (sd : SegmentMetaData) : Word := Segment sd 1.

(** Modelled from the spec: [Word::is_segment] of the missing class, the
    tag of the variant. *)
Definition is_segment (w : Word) : bool :=
  match w with Segment _ _ => true | TextWord _ _ _ => false end.

(** Modelled from the spec: [Word::is_punct] of the missing class, the
    punctuation flag of a text word; a segment is no punctuation. *)
Definition is_punct (w : Word) : bool :=
  match w with TextWord _ p _ => p | Segment _ _ => false end.

(** Modelled from the spec: [Word::get_occurrences] of the missing class. *)
Definition get_occurrences (w : Word) : Z :=
  match w with TextWord _ _ n => n | Segment _ n => n end.

(** The word [w] with its occurrence counter set to [n]. *)
Definition set_occurrences (n : Z) (w : Word) : Word :=
  match w with TextWord ts p _ => TextWord ts p n | Segment sd _ => Segment sd n end.

(** The concatenation of the texts of a token list. *)
Definition tokens_text (ts : list SingleToken) : string :=
  fold_right String.append EmptyString (map token_text ts).

(** Modelled from the spec: [Word::get] of the missing class, the derived
    text of a text word (the concatenation of its tokens' texts).  The text
    of a segment is never read by the code at hand outside of log lines;
    the model gives it the empty string. *)
Definition get (w : Word) : string :=
  match w with TextWord ts _ _ => tokens_text ts | Segment _ _ => EmptyString end.

Definition is_space (c : ascii) : bool :=
  let n := N_of_ascii c in
  (n =? 32)%N || ((9 <=? n)%N && (n <=? 13)%N).

Definition to_lower (c : ascii) : ascii :=
  let n := N_of_ascii c in
  if (65 <=? n)%N && (n <=? 90)%N then ascii_of_N (n + 32) else c.

Fixpoint ltrim (l : list ascii) : list ascii :=
  match l with
  | c :: l' => if is_space c then ltrim l' else l
  | [] => []
  end.

Definition trim (s : string) : string :=
  string_of_list_ascii
    (reverse (ltrim (reverse (ltrim (list_ascii_of_string s))))).

Definition lowercase (s : string) : string :=
  string_of_list_ascii (map to_lower (list_ascii_of_string s)).

(** Modelled from the spec: [Word::get_comparable] of the missing class,
    the text trimmed of leading and trailing whitespace and lowercased;
    punctuation words and segments have the empty comparable form. *)
Definition get_comparable (w : Word) : string :=
  match w with
  | TextWord ts false _ => lowercase (trim (tokens_text ts))
  | _ => EmptyString
  end.

(** [Word::get_prob] of the missing class: the probability of a text word
    as a function of its tokens.  The specification fixes no formula, only
    its use in comparisons, so the model is parametric in it. *)
Class WordProb := word_prob : list SingleToken -> Q.

(** Modelled from the spec: the edit operations ([Transcript::Operation],
    declared in a header that is missing).  [a_id] indexes the old words,
    [b_id] the words of the update. *)
Inductive EditOperation :=
| MATCHED_WORD (a_id b_id : Z)
| INSERT (a_id b_id : Z)
| DECREMENT (a_id : Z)
| CONFLICT (a_id b_id : Z)
| MERGE_SEGMENTS (a_id b_id : Z).

Definition Operations := list EditOperation.

(** ** The transcript store *)

Module Transcript.

(** Modelled from the spec: the state of the missing class [Transcript],
    the ordered entries and the stale boundary. *)
Record t := mk { entries : list Word; stale_word_id : Z }.

(** Modelled from the spec: [Transcript::empty] of the missing class. *)
Definition empty (tr : t) : bool :=
  match entries tr with [] => true | _ :: _ => false end.

(** Modelled from the spec: [Transcript::push_back] of the missing class,
    which appends a batch at the tail. *)
Definition push_back (tr : t) (ws : list Word) : t :=
  mk (entries tr ++ ws) (stale_word_id tr).

(** Modelled from the spec: [Transcript::get_words_splice] of the missing
    class, the active tail from [stale_word_id] to the end. *)
Definition get_words_splice (tr : t) : list Word :=
  drop (Z.to_nat (stale_word_id tr)) (entries tr).

(** Modelled from the spec: [Transcript::get_stale_word_id] of the missing
    class. *)
Definition get_stale_word_id (tr : t) : Z := stale_word_id tr.

(** Modelled from the spec: [Transcript::set_stale_word_id] of the missing
    class; the store clamps, so that the boundary never moves back. *)
Definition set_stale_word_id (tr : t) (v : Z) : t :=
  mk (entries tr) (Z.max (stale_word_id tr) v).

(** Apply [f] to the entry at position [pos], if there is one. *)
Definition modify_at (f : Word -> Word) (pos : Z) (es : list Word) : list Word :=
  if decide (0 <= pos) then
    match es !! Z.to_nat pos with
    | Some w => <[Z.to_nat pos := f w]> es
    | None => es
    end
  else es.

(** Insert [w] before position [pos], shifting later entries right. *)
Definition insert_at (pos : Z) (w : Word) (es : list Word) : list Word :=
  take (Z.to_nat pos) es ++ w :: drop (Z.to_nat pos) es.

Definition add_occurrences (d : Z) (w : Word) : Word :=
  set_occurrences (get_occurrences w + d) w.

(** Modelled from the spec: the effect of [CONFLICT] in the missing
    [Transcript::run].  The update wins when its probability is strictly
    higher; the entry then takes the tokens (hence text and probability) of
    the update and keeps its own occurrence count.  Only text words carry
    tokens; a segment on either side is left alone. *)
Definition conflict `{WordProb} (new_w old_w : Word) : Word :=
  match old_w, new_w with
  | TextWord ts_old _ n, TextWord ts_new p_new _ =>
      if Qlt_le_dec (word_prob ts_old) (word_prob ts_new)
      then TextWord ts_new p_new n
      else old_w
  | _, _ => old_w
  end.

(** Modelled from the spec: the effect of [MERGE_SEGMENTS] in the missing
    [Transcript::run]: adopt the newer start and end token and extend the
    duration to cover both. *)
Definition merge_segments (new_w old_w : Word) : Word :=
  match old_w, new_w with
  | Segment sd_old n, Segment sd_new _ =>
      Segment (mkSegment (end_token sd_new)
                 (Z.max (duration sd_old) (duration sd_new))
                 (start sd_new)) n
  | _, _ => old_w
  end.

(** Modelled from the spec: one operation of the missing [Transcript::run].  The
    operation list was built against the active tail, so an index [a_id]
    names the entry [stale_word_id + a_id] of the transcript as it was;
    [offset] counts the insertions done so far and translates the index.
    An operation that names no entry does nothing. *)
Definition run_op `{WordProb} (base : Z) (new_entries : list Word)
    (st : list Word * Z) (op : EditOperation) : list Word * Z :=
  let '(es, offset) := st in
  match op with
  | INSERT a b =>
      if decide (0 <= b) then
        match new_entries !! Z.to_nat b with
        | Some w => (insert_at (base + a + offset) w es, offset + 1)
        | None => (es, offset)
        end
      else (es, offset)
  | DECREMENT a => (modify_at (add_occurrences (-1)) (base + a + offset) es, offset)
  | MATCHED_WORD a b => (modify_at (add_occurrences 1) (base + a + offset) es, offset)
  | CONFLICT a b =>
      if decide (0 <= b) then
        match new_entries !! Z.to_nat b with
        | Some w => (modify_at (conflict w) (base + a + offset) es, offset)
        | None => (es, offset)
        end
      else (es, offset)
  | MERGE_SEGMENTS a b =>
      if decide (0 <= b) then
        match new_entries !! Z.to_nat b with
        | Some w => (modify_at (merge_segments w) (base + a + offset) es, offset)
        | None => (es, offset)
        end
      else (es, offset)
  end.

(** Modelled from the spec: [Transcript::run] of the missing class, the
    operations applied in order; the stale boundary is left alone. *)
Definition run `{WordProb} (tr : t) (ops : Operations) (new_entries : list Word) : t :=
  mk (fold_left (run_op (stale_word_id tr) new_entries) ops (entries tr, 0)).1
     (stale_word_id tr).

(** Modelled from the spec: [Transcript::clear_mistakes] of the missing
    class, which removes the entries with [occurrences <= threshold]. *)
Definition clear_mistakes (tr : t) (threshold : Z) : t :=
  mk (filter (fun w => threshold < get_occurrences w) (entries tr))
     (stale_word_id tr).

End Transcript.

(** ** The merge planner and driver: [merge_one_] *)

(** The gap budget the node is constructed with. *)
Definition allowed_gaps : Z := 4.

(** The entry a read of [words[i]] yields out of range. *)
Definition no_word : Word := TextWord [] false 0.

Definition word_at (words : list Word) (i : Z) : Word := vget no_word words i.

(** The comparable strings of a word list and, for each of them, the
    number of non-comparable entries that precede it. *)
Record projection := mkProj {
  comp_words : list string;
  skipped_ids : list Z;
  skipped_so_far : Z
}.

Definition projection_step (st : projection) (word : Word) : projection :=
  let comp_word := get_comparable word in
  if String.eqb comp_word EmptyString
  then mkProj (comp_words st) (skipped_ids st) (skipped_so_far st + 1)
  else mkProj (comp_words st ++ [comp_word])
              (skipped_ids st ++ [skipped_so_far st])
              (skipped_so_far st).

Definition comparable_projection (words : list Word) : projection :=
  fold_left projection_step words (mkProj [] [] 0).

(** Rules 1 to 1.4 of one step of the anchored walk; [ops] holds what rule
    0.1 pushed before control fell through to them. *)
Definition word_rules (old_words new_words : list Word)
    (nextA_id nextB_id curA_id curB_id : Z) (ops : Operations)
    : Operations * Z * Z :=
  let inA := negb (curA_id =? nextA_id) in
  let inB := negb (curB_id =? nextB_id) in
  if inA && inB && is_punct (word_at old_words curA_id)
     && negb (is_punct (word_at new_words curB_id))
  then (ops ++ [DECREMENT curA_id; CONFLICT curA_id curB_id], curA_id + 1, curB_id + 1)
  else if inA && inB
  then (ops ++ [CONFLICT curA_id curB_id], curA_id + 1, curB_id + 1)
  else if inB
  then (ops ++ [INSERT curA_id curB_id], curA_id, curB_id + 1)
  else (ops ++ [DECREMENT curA_id], curA_id + 1, curB_id).

(** One iteration of the [while] loop of the walk: the operations it
    pushes and the cursors it leaves. *)
Definition walk_step (old_words new_words : list Word)
    (nextA_id nextB_id curA_id curB_id : Z) : Operations * Z * Z :=
  let inA := negb (curA_id =? nextA_id) in
  let inB := negb (curB_id =? nextB_id) in
  if inA && inB && is_segment (word_at old_words curA_id)
     && is_segment (word_at new_words curB_id)
  then word_rules old_words new_words nextA_id nextB_id curA_id curB_id
         [MERGE_SEGMENTS curA_id curB_id]
  else if inA && is_segment (word_at old_words curA_id)
  then ([DECREMENT curA_id; DECREMENT curA_id], curA_id + 1, curB_id)
  else if inB && is_segment (word_at new_words curB_id)
  then ([INSERT curA_id curB_id], curA_id, curB_id + 1)
  else word_rules old_words new_words nextA_id nextB_id curA_id curB_id [].

(** [while (curA_id != nextA_id || curB_id != nextB_id)]; [None] when the
    iteration budget runs out before the loop exits. *)
Fixpoint walk (fuel : nat) (old_words new_words : list Word)
    (nextA_id nextB_id curA_id curB_id : Z) (pending_ops : Operations)
    : option Operations :=
  if negb (curA_id =? nextA_id) || negb (curB_id =? nextB_id) then
    match fuel with
    | O => None
    | S fuel' =>
        let '(ops, curA', curB') :=
          walk_step old_words new_words nextA_id nextB_id curA_id curB_id in
        walk fuel' old_words new_words nextA_id nextB_id curA' curB'
             (pending_ops ++ ops)
    end
  else Some pending_ops.

(** The state of the loop over the anchors. *)
Record plan_state := mkPlan {
  prevA : Z;
  prevB : Z;
  pending_ops : Operations
}.

(** Where the walk of iteration [i] stops: at the next anchor, or at the
    ends of both word lists once the last anchor is behind. *)
Definition next_ids (old_words new_words : list Word)
    (skipped_ids_old skipped_ids_new indiciesA indiciesB : list Z) (i : Z) : Z * Z :=
  if i =? Z.of_nat (length indiciesA)
  then (Z.of_nat (length old_words), Z.of_nat (length new_words))
  else (vget 0 indiciesA i + vget 0 skipped_ids_old (vget 0 indiciesA i),
        vget 0 indiciesB i + vget 0 skipped_ids_new (vget 0 indiciesB i)).

(** The body of [for (i = 1; i <= indiciesA.size(); ++i)].  Its last
    statement reads [indiciesA[i]] and [indiciesB[i]], past the end in the
    last iteration; the value read there is never used. *)
Definition anchor_step (old_words new_words : list Word)
    (skipped_ids_old skipped_ids_new indiciesA indiciesB : list Z)
    (i : Z) (st : option plan_state) : option plan_state :=
  match st with
  | None => None
  | Some st =>
      let prevA_id := prevA st + vget 0 skipped_ids_old (prevA st) in
      let prevB_id := prevB st + vget 0 skipped_ids_new (prevB st) in
      let ops := pending_ops st ++ [MATCHED_WORD prevA_id prevB_id] in
      let curA_id := prevA_id + 1 in
      let curB_id := prevB_id + 1 in
      let '(nextA_id, nextB_id) :=
        next_ids old_words new_words skipped_ids_old skipped_ids_new
          indiciesA indiciesB i in
      match walk (length old_words + length new_words) old_words new_words
                 nextA_id nextB_id curA_id curB_id ops with
      | None => None
      | Some ops' => Some (mkPlan (vget 0 indiciesA i) (vget 0 indiciesB i) ops')
      end
  end.

(** The operation list the planner builds from a non-empty alignment. *)
Definition plan_ops (old_words new_words : list Word)
    (skipped_ids_old skipped_ids_new indiciesA indiciesB : list Z)
    : option Operations :=
  match for_loop (length indiciesA) 1
          (anchor_step old_words new_words skipped_ids_old skipped_ids_new
             indiciesA indiciesB)
          (Some (mkPlan (vget 0 indiciesA 0) (vget 0 indiciesB 0) [])) with
  | Some st => Some (pending_ops st)
  | None => None
  end.

(** [merge_one_(new_words)] on the transcript [tr]: the transcript it
    leaves, together with the operation list it handed to
    [Transcript::run] (empty on the two early returns).  [None] stands
    for a run that does not return. *)
Definition merge_one_ `{WordProb} (tr : Transcript.t) (new_words : list Word)
    : option (Transcript.t * Operations) :=
  let stale_id := Transcript.get_stale_word_id tr in
  if Transcript.empty tr then Some (Transcript.push_back tr new_words, [])
  else
    let old_words := Transcript.get_words_splice tr in
    let pold := comparable_projection old_words in
    let pnew := comparable_projection new_words in
    match lcs_indicies_ (comp_words pold) (comp_words pnew) allowed_gaps with
    | None => None
    | Some (indiciesA, indiciesB) =>
        match indiciesA with
        | [] => Some (Transcript.push_back tr new_words, [])
        | _ :: _ =>
            match plan_ops old_words new_words (skipped_ids pold) (skipped_ids pnew)
                    indiciesA indiciesB with
            | None => None
            | Some ops =>
                let tr1 := Transcript.run tr ops new_words in
                let tr2 := Transcript.clear_mistakes tr1 (-1) in
                let stale_id_new :=
                  Z.max stale_id (stale_id + vget 0 indiciesA 0 - vget 0 indiciesB 0) in
                Some (Transcript.set_stale_word_id tr2 stale_id_new, ops)
            end
        end
    end.

(** ** The serializer: [serialize_transcript_] *)

Record AudioTranscript := mkMsg {
  words : list string;
  probs : list Q;
  occ : list Z;
  seg_start_words_id : list Z;
  seg_start_time : list Z;
  seg_duration_ms : list Z;
  active_index : Z
}.

Definition empty_message : AudioTranscript := mkMsg [] [] [] [] [] [] 0.

(** The body of the loop over the transcript; the state is the message
    and [words_skipped]. *)
Definition serialize_step `{WordProb} (st : AudioTranscript * Z) (word : Word)
    : AudioTranscript * Z :=
  let '(msg, words_skipped) := st in
  match word with
  | Segment segment_data _ =>
      (mkMsg (words msg) (probs msg) (occ msg)
         (seg_start_words_id msg ++ [Z.of_nat (length (words msg))])
         (seg_start_time msg ++ [start segment_data])
         (seg_duration_ms msg ++ [duration segment_data])
         (active_index msg),
       words_skipped + 1)
  | TextWord ts _ n =>
      (mkMsg (words msg ++ [get word]) (probs msg ++ [word_prob ts]) (occ msg ++ [n])
         (seg_start_words_id msg) (seg_start_time msg) (seg_duration_ms msg)
         (active_index msg),
       words_skipped)
  end.

Definition serialize_transcript_ `{WordProb} (tr : Transcript.t) (msg : AudioTranscript)
    : AudioTranscript :=
  let '(msg', words_skipped) :=
    fold_left serialize_step (Transcript.entries tr) (msg, 0) in
  mkMsg (words msg') (probs msg') (occ msg')
    (seg_start_words_id msg') (seg_start_time msg') (seg_duration_ms msg')
    (Transcript.get_stale_word_id tr - words_skipped).

(** ** The merge driver: [clear_queue_] *)

(** The loop that drains the ring: the queued batches merged in the order
    they were enqueued. *)
Fixpoint merge_all `{WordProb} (tr : Transcript.t) (queue : list (list Word))
    : option Transcript.t :=
  match queue with
  | [] => Some tr
  | words_and_segments :: queue' =>
      match merge_one_ tr words_and_segments with
      | Some (tr', _) => merge_all tr' queue'
      | None => None
      end
  end.

(** [clear_queue_()]: the transcript after the merges and, when at least
    one batch was merged, the message that is published. *)
Definition clear_queue_ `{WordProb} (tr : Transcript.t) (queue : list (list Word))
    : option (Transcript.t * option AudioTranscript) :=
  match merge_all tr queue with
  | Some tr' =>
      match queue with
      | [] => Some (tr', None)
      | _ :: _ => Some (tr', Some (serialize_transcript_ tr' empty_message))
      end
  | None => None
  end.

(** ** The token deserializer: [deserialize_msg_] *)

Record WhisperTokens := mkTokens {
  stamp : Z;
  token_texts : list string;
  token_probs : list Q;
  segment_start_token_idxs : list Z;
  start_times : list Z;
  end_times : list Z
}.

(** The token classifiers and the joiner, declared in a header that is
    not part of the sources at hand; the deserializer is parametric in
    them. *)
Class TokenRules := {
  is_special_token : list string -> Z -> bool;
  my_ispunct : list string -> Z -> bool;
  join_tokens : list string -> Z -> bool * Z;
  combine_text : list string -> Z -> Z -> string;
  combine_prob : list Q -> Z -> Z -> Q
}.

(** Modelled from the spec: the constant [whisper_ts_to_ms_ratio]; segment
    time stamps come in units of 10 ms. *)
Definition whisper_ts_to_ms_ratio : Z := 10.

Record deser_state := mkDeser {
  out_words : list Word;
  word_wip : list SingleToken;
  segment_ptr : Z
}.

Definition wip_is_empty (wip : list SingleToken) : bool :=
  match wip with [] => true | _ :: _ => false end.

(** [std::isspace(text[0])] on a non-empty text. *)
Definition starts_with_space (text : string) : bool :=
  match text with String c _ => is_space c | EmptyString => false end.

Definition string_is_empty (text : string) : bool :=
  match text with EmptyString => true | String _ _ => false end.

(** [v[i]] where the index is not checked by the code: [None] stands for
    the out-of-range read, which is undefined in C++. *)
Definition vat {A} (v : list A) (i : Z) : option A :=
  if decide (0 <= i) then v !! Z.to_nat i else None.

(** The first block of the loop body: token [i] opens a new segment.  The
    reads of [segment_start_token_idxs] are guarded by the tests before
    them; those of [token_texts] and [token_probs] at [end_token_id] and
    of [start_times] and [end_times] at [segment_ptr] are not, and the
    block has no result when one of them is out of range. *)
Definition deserialize_segment (msg : WhisperTokens) (i : Z) (st : deser_state)
    : option deser_state :=
  let idxs := segment_start_token_idxs msg in
  if (segment_ptr st <? Z.of_nat (length idxs))
     && (i =? vget 0 idxs (segment_ptr st))
  then
    let '(words1, wip1) :=
      if negb (wip_is_empty (word_wip st))
      then (out_words st ++ [Word_of_tokens (word_wip st)], [])
      else (out_words st, word_wip st) in
    let end_token_id :=
      if segment_ptr st =? Z.of_nat (length idxs) - 1
      then Z.of_nat (length (token_texts msg)) - 1
      else vget 0 idxs (segment_ptr st + 1) - 1 in
    match vat (token_texts msg) end_token_id, vat (token_probs msg) end_token_id,
          vat (start_times msg) (segment_ptr st), vat (end_times msg) (segment_ptr st) with
    | Some end_text, Some end_prob, Some start_time, Some end_time =>
        let end_tok := mkToken end_text end_prob in
        let start_ms := start_time * whisper_ts_to_ms_ratio in
        let end_ms := end_time * whisper_ts_to_ms_ratio in
        let segment := mkSegment end_tok (end_ms - start_ms) (stamp msg + start_ms) in
        Some (mkDeser (words1 ++ [Word_of_segment segment]) wip1 (segment_ptr st + 1))
    | _, _, _, _ => None
    end
  else Some st.

(** The second block: a token that starts with whitespace closes the word
    in progress.  The loop condition keeps [i] below [token_texts.size()]. *)
Definition deserialize_space (msg : WhisperTokens) (i : Z) (st : deser_state)
    : deser_state :=
  let text := vget EmptyString (token_texts msg) i in
  if negb (wip_is_empty (word_wip st)) && negb (string_is_empty text)
  then
    if starts_with_space text
    then mkDeser (out_words st ++ [Word_of_tokens (word_wip st)]) [] (segment_ptr st)
    else st
  else st.

(** The third block: classify token [i]; returns the state and the index
    of the next token to visit.  The punctuation branch and the last
    branch read [token_probs[i]], which no test guards: the block has no
    result when [token_probs] is too short. *)
Definition deserialize_token `{TokenRules} (msg : WhisperTokens) (i : Z)
    (st : deser_state) : option (deser_state * Z) :=
  let texts := token_texts msg in
  if is_special_token texts i then Some (st, i + 1)
  else if my_ispunct texts i then
    match vat (token_probs msg) i with
    | Some prob =>
        let tok := mkToken (vget EmptyString texts i) prob in
        Some (mkDeser (out_words st ++ [Word_of_tokens (word_wip st); Word_of_token tok true])
                      [] (segment_ptr st),
              i + 1)
    | None => None
    end
  else
    let '(join, num_tokens) := join_tokens texts i in
    if join then
      let combined :=
        mkToken (combine_text texts i num_tokens)
                (combine_prob (token_probs msg) i num_tokens) in
      Some (mkDeser (out_words st) (word_wip st ++ [combined]) (segment_ptr st),
            i + (num_tokens - 1) + 1)
    else
      match vat (token_probs msg) i with
      | Some prob =>
          let tok := mkToken (vget EmptyString texts i) prob in
          Some (mkDeser (out_words st) (word_wip st ++ [tok]) (segment_ptr st), i + 1)
      | None => None
      end.

(** [for (i = 0; i < token_texts.size(); ++i)], whose body may advance [i]
    itself; [None] when a block of the body has no result or when the
    iteration budget runs out. *)
Fixpoint deserialize_loop `{TokenRules} (fuel : nat) (msg : WhisperTokens) (i : Z)
    (st : deser_state) : option deser_state :=
  if i <? Z.of_nat (length (token_texts msg)) then
    match fuel with
    | O => None
    | S fuel' =>
        match deserialize_segment msg i st with
        | Some st1 =>
            let st2 := deserialize_space msg i st1 in
            match deserialize_token msg i st2 with
            | Some (st3, i') => deserialize_loop fuel' msg i' st3
            | None => None
            end
        | None => None
        end
    end
  else Some st.

(** [deserialize_msg_(msg)]: the words it returns, or [None] when the run
    reads a vector out of range or does not leave the loop.  One iteration
    per token is budget enough whenever the joiner never reports fewer
    than one token. *)
Definition deserialize_msg_ `{TokenRules} (msg : WhisperTokens) : option (list Word) :=
  match deserialize_loop (length (token_texts msg)) msg 0 (mkDeser [] [] 0) with
  | Some st =>
      if negb (wip_is_empty (word_wip st))
      then Some (out_words st ++ [Word_of_tokens (word_wip st)])
      else Some (out_words st)
  | None => None
  end.

(** ** The long-running request handler: [on_inference_accepted_] *)

Module Handler.

(** What the handler observes of its surroundings at one instant. *)
Record env := mkEnv {
  ok : bool;                    (* rclcpp::ok() *)
  past_max_duration : bool;     (* now() - inference_start_time_ > max_duration *)
  is_canceling : bool;          (* goal_handle->is_canceling() *)
  queue : list (list Word)      (* the content of incoming_queue_ *)
}.

Inductive outcome := TimedOut | Cancelled | Succeeded | ShutDown.

(** The control points of the handler: the head of the outer loop, the
    inner loop that waits for data, the test that follows the outer loop,
    and the exits. *)
Inductive control := LoopHead | WaitForData | AfterLoop | Finished (o : outcome).

Record state := mkState {
  at_ : control;
  batch_idx : Z;
  transcriptions : list string;
  slept_ms : Z
}.

(** The sleep of the wait loop, in milliseconds. *)
Definition poll_interval_ms : Z := 15.

(** The feedback string of a drained queue: the texts of all words that
    are not segments. *)
Definition drain (q : list (list Word)) : string :=
  fold_left (fun message ws =>
               fold_left (fun message word =>
                            if is_segment word then message
                            else String.append message (get word)) ws message)
            q EmptyString.

Definition goto (c : control) (s : state) : state :=
  mkState c (batch_idx s) (transcriptions s) (slept_ms s).

(** One step of the handler under the observation [e]: at the loop head
    the loop condition and the checks of deadline and cancellation; in the
    wait loop one evaluation of [incoming_queue_->empty()], followed either
    by the sleep or by draining the queue and publishing the feedback. *)
Definition step (e : env) (s : state) : state :=
  match at_ s with
  | LoopHead =>
      if negb (ok e) then goto AfterLoop s
      else if past_max_duration e then goto (Finished TimedOut) s
      else if is_canceling e then goto (Finished Cancelled) s
      else goto WaitForData s
  | WaitForData =>
      match queue e with
      | [] => mkState WaitForData (batch_idx s) (transcriptions s)
                      (slept_ms s + poll_interval_ms)
      | _ :: _ =>
          mkState LoopHead (batch_idx s + 1)
                  (transcriptions s ++ [drain (queue e)]) (slept_ms s)
      end
  | AfterLoop =>
      if ok e then goto (Finished Succeeded) s else goto (Finished ShutDown) s
  | Finished _ => s
  end.

(** The handler run against a sequence of observations. *)
Definition run (trace : list env) (s : state) : state :=
  fold_left (fun s e => step e s) trace s.

End Handler.

(** * Properties *)

(** ** Facts about vectors and tables *)

Section VectorFacts.
Context {A : Type}.
Implicit Types (v : list A) (t : list (list A)) (d x : A) (i j : Z).

Lemma vget_vset_eq d v i x :
  0 <= i < Z.of_nat (length v) -> vget d (vset v i x) i = x.
Proof.
  intros Hi. unfold vget, vset. rewrite !decide_True by lia.
  rewrite list_lookup_insert_eq by lia. reflexivity.
Qed.

Lemma vget_vset_ne d v i j x : i <> j -> vget d (vset v i x) j = vget d v j.
Proof.
  intros Hne. unfold vget, vset.
  destruct (decide (0 <= j)); [|reflexivity].
  destruct (decide (0 <= i)); [|reflexivity].
  rewrite list_lookup_insert_ne by lia. reflexivity.
Qed.

Lemma length_vset v i x : length (vset v i x) = length v.
Proof. unfold vset. destruct (decide (0 <= i)); [apply length_insert|reflexivity]. Qed.

Lemma vset_out v i x : ~ (0 <= i < Z.of_nat (length v)) -> vset v i x = v.
Proof.
  intros Hi. unfold vset. destruct (decide (0 <= i)); [|reflexivity].
  apply list_insert_ge. lia.
Qed.

Lemma vget_lookup d v i x : 0 <= i -> v !! Z.to_nat i = Some x -> vget d v i = x.
Proof. intros Hi Hl. unfold vget. rewrite decide_True by lia. rewrite Hl. reflexivity. Qed.

Lemma vget_in_range d v i :
  0 <= i < Z.of_nat (length v) -> v !! Z.to_nat i = Some (vget d v i).
Proof.
  intros Hi. unfold vget. rewrite decide_True by lia.
  destruct (lookup_lt_is_Some_2 v (Z.to_nat i)) as [x Hx]; [lia|].
  rewrite Hx. reflexivity.
Qed.

End VectorFacts.

Section TableFacts.
Context {A : Type}.
Implicit Types (t : list (list A)) (d x : A) (i j : Z).

Lemma get2_set2_eq d t i j x :
  0 <= i < Z.of_nat (length t) ->
  0 <= j < Z.of_nat (length (vget [] t i)) ->
  get2 d (set2 t i j x) i j = x.
Proof.
  intros Hi Hj. unfold get2, set2.
  rewrite vget_vset_eq by assumption. apply vget_vset_eq; assumption.
Qed.

Lemma get2_set2_ne d t i j i' j' x :
  i <> i' \/ j <> j' -> get2 d (set2 t i j x) i' j' = get2 d t i' j'.
Proof.
  intros Hne. unfold get2, set2.
  destruct (decide (i = i')) as [<-|Hi].
  - destruct (decide (0 <= i < Z.of_nat (length t))) as [Hin|Hout].
    + rewrite vget_vset_eq by assumption. apply vget_vset_ne. lia.
    + rewrite vset_out by assumption. reflexivity.
  - rewrite vget_vset_ne by assumption. reflexivity.
Qed.

(** A table with [r] rows of [c] columns each. *)
Definition rect (r c : Z) t : Prop :=
  Z.of_nat (length t) = r /\
  forall i, 0 <= i < r -> Z.of_nat (length (vget [] t i)) = c.

Lemma rect_make2 r c d : 0 <= r -> 0 <= c -> rect r c (make2 r c d).
Proof.
  intros Hr Hc. unfold rect, make2. rewrite length_replicate. split; [lia|].
  intros i Hi. erewrite vget_lookup; [| lia | apply lookup_replicate_2; lia].
  rewrite length_replicate. lia.
Qed.

Lemma rect_set2 r c t i j x : rect r c t -> rect r c (set2 t i j x).
Proof.
  intros [Hr Hc]. unfold rect, set2. rewrite length_vset. split; [assumption|].
  intros k Hk. destruct (decide (i = k)) as [->|Hne].
  - rewrite vget_vset_eq by lia. rewrite length_vset. apply Hc, Hk.
  - rewrite vget_vset_ne by assumption. apply Hc, Hk.
Qed.

Lemma get2_make2 r c d i j : get2 d (make2 r c d) i j = d.
Proof.
  unfold get2, make2, vget.
  destruct (decide (0 <= j)); [|reflexivity].
  destruct (decide (0 <= i)); [|reflexivity].
  destruct (replicate (Z.to_nat r) (replicate (Z.to_nat c) d) !! Z.to_nat i)
    as [row|] eqn:Hrow; simpl; [|reflexivity].
  apply lookup_replicate in Hrow as [-> _].
  destruct (replicate (Z.to_nat c) d !! Z.to_nat j) as [y|] eqn:Hy; simpl; [|reflexivity].
  apply lookup_replicate in Hy as [-> _]. reflexivity.
Qed.
End TableFacts.

(** The invariant rule of a counted loop. *)
Lemma for_loop_ind {St} (P : Z -> St -> Prop) (body : Z -> St -> St) :
  forall (n : nat) (lo : Z) (s : St),
    P lo s ->
    (forall i s, lo <= i < lo + Z.of_nat n -> P i s -> P (i + 1) (body i s)) ->
    P (lo + Z.of_nat n) (for_loop n lo body s).
Proof.
  induction n as [|n IH]; intros lo s H0 Hstep; simpl for_loop.
  - replace (lo + Z.of_nat 0) with lo by lia. exact H0.
  - replace (lo + Z.of_nat (S n)) with ((lo + 1) + Z.of_nat n) by lia.
    apply IH.
    + apply Hstep; [lia|exact H0].
    + intros i s' Hi. apply Hstep. lia.
Qed.

(** ** The aligner: the filled table obeys the DP recurrence *)

Definition cellval : Type := DPEntry.t * (Z * Z).
Definition cell_init : cellval := (dp_init, prev_init).
Definition cell (s : lcs_state) (i j : Z) : cellval := (dp_at s i j, prev_at s i j).

(** The value a relaxation leaves in the current cell. *)
Definition relax_val (G : Z) (src cur : cellval) : cellval :=
  if (DPEntry.gaps src.1 <? G) && (DPEntry.length cur.1 <? DPEntry.length src.1)
  then (DPEntry.mk (DPEntry.length src.1) (DPEntry.gaps src.1 + 1), src.2)
  else cur.

(** The value of cell [(i, j)] from its three neighbours. *)
Definition rule_val (G : Z) (same : bool) (i j : Z) (up left diag : cellval) : cellval :=
  if same then (DPEntry.mk (DPEntry.length diag.1 + 1) 0, (i - 1, j - 1))
  else relax_val G diag (relax_val G left (relax_val G up cell_init)).

Definition wf_tables (nA nB : Z) (s : lcs_state) : Prop :=
  rect (nA + 1) (nB + 1) (dp s) /\ rect (nA + 1) (nB + 1) (prev s).

(** [s'] differs from [s] at most in cell [(i, j)]. *)
Definition frame (i j : Z) (s s' : lcs_state) : Prop :=
  forall a b, a <> i \/ b <> j -> cell s' a b = cell s a b.

Definition same_track (s s' : lcs_state) : Prop :=
  maxLength s' = maxLength s /\ endIndexA s' = endIndexA s /\ endIndexB s' = endIndexB s.

Lemma wf_set_cell nA nB s i j e p :
  wf_tables nA nB s -> wf_tables nA nB (set_cell s i j e p).
Proof. intros [Hd Hp]. split; simpl; apply rect_set2; assumption. Qed.

Lemma cell_set_cell_eq nA nB s i j e p :
  wf_tables nA nB s -> 0 <= i <= nA -> 0 <= j <= nB ->
  cell (set_cell s i j e p) i j = (e, p).
Proof.
  intros [[Hd1 Hd2] [Hp1 Hp2]] Hi Hj. unfold cell, dp_at, prev_at. simpl.
  rewrite !get2_set2_eq; try lia; [reflexivity| |].
  - rewrite Hp2; lia.
  - rewrite Hd2; lia.
Qed.

Lemma cell_set_cell_ne s i j e p a b :
  a <> i \/ b <> j -> cell (set_cell s i j e p) a b = cell s a b.
Proof.
  intros Hne. unfold cell, dp_at, prev_at. simpl.
  rewrite !get2_set2_ne by lia. reflexivity.
Qed.

Lemma relax_spec nA nB G si sj i j s :
  wf_tables nA nB s -> 0 <= i <= nA -> 0 <= j <= nB -> si <> i \/ sj <> j ->
  wf_tables nA nB (relax G si sj i j s) /\
  cell (relax G si sj i j s) i j = relax_val G (cell s si sj) (cell s i j) /\
  frame i j s (relax G si sj i j s) /\
  same_track s (relax G si sj i j s).
Proof.
  intros Hwf Hi Hj Hne. unfold relax, relax_val. simpl.
  destruct ((DPEntry.gaps (dp_at s si sj) <? G)
            && (DPEntry.length (dp_at s i j) <? DPEntry.length (dp_at s si sj))).
  - split; [apply wf_set_cell; assumption|].
    split; [erewrite cell_set_cell_eq by eassumption; reflexivity|].
    split; [intros a b Hab; apply cell_set_cell_ne, Hab|].
    repeat split.
  - split; [assumption|]. split; [reflexivity|].
    split; [intros a b _; reflexivity|repeat split].
Qed.

Lemma track_cell i j s a b : cell (track i j s) a b = cell s a b.
Proof. unfold track. destruct (maxLength s <=? _); reflexivity. Qed.

Lemma wf_track nA nB i j s : wf_tables nA nB s -> wf_tables nA nB (track i j s).
Proof. unfold track. destruct (maxLength s <=? _); intros H; exact H. Qed.

(** What one iteration of the inner loop does to the state. *)
Lemma lcs_cell_spec nA nB textA textB G i j s :
  wf_tables nA nB s -> 1 <= i <= nA -> 1 <= j <= nB -> cell s i j = cell_init ->
  let s' := lcs_cell textA textB G i j s in
  wf_tables nA nB s' /\
  cell s' i j =
    rule_val G (String.eqb (vget EmptyString textA (i - 1)) (vget EmptyString textB (j - 1)))
      i j (cell s (i - 1) j) (cell s i (j - 1)) (cell s (i - 1) (j - 1)) /\
  frame i j s s' /\
  (if maxLength s <=? DPEntry.length (cell s' i j).1
   then maxLength s' = DPEntry.length (cell s' i j).1 /\
        endIndexA s' = i /\ endIndexB s' = j
   else same_track s s').
Proof.
  intros Hwf Hi Hj Hinit. cbv zeta. unfold lcs_cell, rule_val.
  set (same := String.eqb _ _).
  match goal with |- context [track i j ?x] => set (s1 := x) end.
  assert (Hs1 : wf_tables nA nB s1 /\
                cell s1 i j =
                  (if same
                   then (DPEntry.mk (DPEntry.length (cell s (i - 1) (j - 1)).1 + 1) 0,
                         (i - 1, j - 1))
                   else relax_val G (cell s (i - 1) (j - 1))
                          (relax_val G (cell s i (j - 1))
                             (relax_val G (cell s (i - 1) j) cell_init))) /\
                frame i j s s1 /\ same_track s s1).
  { subst s1. destruct same.
    - split; [apply wf_set_cell; assumption|].
      split; [erewrite cell_set_cell_eq; [reflexivity|eassumption|lia|lia]|].
      split; [intros a b Hab; apply cell_set_cell_ne, Hab|repeat split].
    - destruct (relax_spec nA nB G (i - 1) j i j s) as (Hw1 & Hc1 & Hf1 & Ht1);
        [assumption|lia|lia|lia|].
      set (r1 := relax G (i - 1) j i j s) in *.
      destruct (relax_spec nA nB G i (j - 1) i j r1) as (Hw2 & Hc2 & Hf2 & Ht2);
        [assumption|lia|lia|lia|].
      set (r2 := relax G i (j - 1) i j r1) in *.
      destruct (relax_spec nA nB G (i - 1) (j - 1) i j r2) as (Hw3 & Hc3 & Hf3 & Ht3);
        [assumption|lia|lia|lia|].
      set (r3 := relax G (i - 1) (j - 1) i j r2) in *.
      split; [assumption|]. split.
      + rewrite Hc3, Hc2, Hc1, Hinit.
        rewrite (Hf2 (i - 1) (j - 1)), (Hf1 (i - 1) (j - 1)) by lia.
        rewrite (Hf1 i (j - 1)) by lia. reflexivity.
      + split.
        * intros a b Hab. rewrite Hf3, Hf2, Hf1 by assumption. reflexivity.
        * destruct Ht1 as (?&?&?), Ht2 as (?&?&?), Ht3 as (?&?&?).
          repeat split; congruence. }
  destruct Hs1 as (Hw & Hc & Hf & Ht).
  split; [apply wf_track, Hw|].
  split; [rewrite track_cell; exact Hc|].
  split; [intros a b Hab; rewrite track_cell; apply Hf, Hab|].
  rewrite track_cell. destruct Ht as (Hm & HA & HB).
  unfold track. unfold cell at 1 2. simpl fst. rewrite Hm.
  destruct (maxLength s <=? DPEntry.length (dp_at s1 i j)); simpl.
  - repeat split.
  - repeat split; assumption.
Qed.

Section Fill.
Variables (textA textB : list string) (G : Z).
Local Abbreviation nA := (Z.of_nat (length textA)).
Local Abbreviation nB := (Z.of_nat (length textB)).
Local Abbreviation len := DPEntry.length.

(** Cell [(a, b)] comes before cell [(i, j)] in the row-major scan. *)
Definition before (i j a b : Z) : Prop := a < i \/ (a = i /\ b < j).

(** The cells the two loops have written when they are about to visit
    [(i, j)]. *)
Definition filled (i j a b : Z) : Prop :=
  1 <= a <= nA /\ 1 <= b <= nB /\ before i j a b.

Lemma classic_filled i j a b : filled i j a b \/ ~ filled i j a b.
Proof. unfold filled, before. lia. Qed.

Definition recurrence (s : lcs_state) (a b : Z) : Prop :=
  cell s a b =
    rule_val G (String.eqb (vget EmptyString textA (a - 1)) (vget EmptyString textB (b - 1)))
      a b (cell s (a - 1) b) (cell s a (b - 1)) (cell s (a - 1) (b - 1)).

(** Written cells obey the recurrence, the others still hold their
    initial value. *)
Definition table_ok (i j : Z) (s : lcs_state) : Prop :=
  forall a b, 0 <= a <= nA -> 0 <= b <= nB ->
    (filled i j a b -> recurrence s a b) /\
    (~ filled i j a b -> cell s a b = cell_init).

(** What every cell value of the table satisfies: its length is bounded by
    its position, and its [prev] pointer names an exact match whose own
    cell is one shorter. *)
Definition goodv (s : lcs_state) (a b : Z) (v : cellval) : Prop :=
  0 <= len v.1 /\ len v.1 <= a /\ len v.1 <= b /\
  (len v.1 = 0 -> v.2 = prev_init) /\
  (0 < len v.1 ->
   exists a' b', v.2 = (a', b') /\ 0 <= a' < a /\ 0 <= b' < b /\
     vget EmptyString textA a' = vget EmptyString textB b' /\
     len (dp_at s a' b') = len v.1 - 1).

Lemma goodv_mono s a b a2 b2 v :
  goodv s a b v -> a <= a2 -> b <= b2 -> goodv s a2 b2 v.
Proof.
  intros (H0 & Ha & Hb & Hz & Hp) Ha2 Hb2.
  repeat split; try lia; [exact Hz|].
  intros Hpos. destruct (Hp Hpos) as (a' & b' & E & ? & ? & ? & ?).
  exists a', b'. repeat split; try assumption; lia.
Qed.

Lemma goodv_init s a b : 0 <= a -> 0 <= b -> goodv s a b cell_init.
Proof.
  intros Ha Hb. unfold goodv, cell_init, dp_init. simpl.
  repeat split; try lia.
Qed.

Lemma goodv_relax s sa sb a b src cur :
  goodv s sa sb src -> goodv s a b cur -> sa <= a -> sb <= b ->
  goodv s a b (relax_val G src cur).
Proof.
  intros Hsrc Hcur Ha Hb. unfold relax_val.
  destruct (DPEntry.gaps src.1 <? G); simpl; [|exact Hcur].
  destruct (len cur.1 <? len src.1) eqn:Hlt; [|exact Hcur].
  apply Z.ltb_lt in Hlt.
  destruct Hsrc as (H0 & Hsa & Hsb & Hz & Hp), Hcur as (Hc0 & _).
  unfold goodv. simpl. repeat split; try lia.
  intros Hpos. destruct (Hp Hpos) as (a' & b' & E & ? & ? & ? & ?).
  exists a', b'. repeat split; try assumption; lia.
Qed.

Lemma cells_good i j s :
  table_ok i j s ->
  forall a b, 0 <= a <= nA -> 0 <= b <= nB -> goodv s a b (cell s a b).
Proof.
  intros Hok a b. remember (Z.to_nat (a + b)) as n eqn:Hn.
  revert a b Hn. induction n as [n IH] using lt_wf_ind. intros a b Hn Ha Hb.
  destruct (Hok a b Ha Hb) as [Hrec Hinit].
  destruct (classic_filled i j a b) as [Hf|Hf].
  2:{ rewrite (Hinit Hf). apply goodv_init; lia. }
  rewrite (Hrec Hf). destruct Hf as (Ha1 & Hb1 & _).
  assert (Hup : goodv s (a - 1) b (cell s (a - 1) b))
    by (apply (IH (Z.to_nat (a - 1 + b))); lia).
  assert (Hleft : goodv s a (b - 1) (cell s a (b - 1)))
    by (apply (IH (Z.to_nat (a + (b - 1)))); lia).
  assert (Hdiag : goodv s (a - 1) (b - 1) (cell s (a - 1) (b - 1)))
    by (apply (IH (Z.to_nat (a - 1 + (b - 1)))); lia).
  unfold rule_val.
  destruct (String.eqb _ _) eqn:Heq.
  - apply String.eqb_eq in Heq.
    destruct Hdiag as (H0 & Hda & Hdb & _). simpl in H0, Hda, Hdb.
    unfold goodv. simpl.
    split; [lia|]. split; [lia|]. split; [lia|]. split; [lia|].
    intros _. exists (a - 1), (b - 1).
    split; [reflexivity|]. split; [lia|]. split; [lia|]. split; [exact Heq|].
    lia.
  - apply (goodv_relax s (a - 1) (b - 1)); [assumption| |lia|lia].
    apply (goodv_relax s a (b - 1)); [assumption| |lia|lia].
    apply (goodv_relax s (a - 1) b); [assumption| |lia|lia].
    apply goodv_init; lia.
Qed.

(** [maxLength] bounds every written cell, and the end cell is the last
    written cell that attains it. *)
Definition track_inv (i j : Z) (s : lcs_state) : Prop :=
  0 <= maxLength s /\
  (forall a b, filled i j a b -> len (dp_at s a b) <= maxLength s) /\
  ((endIndexA s = -1 /\ endIndexB s = -1 /\ maxLength s = 0 /\
    forall a b, ~ filled i j a b) \/
   (filled i j (endIndexA s) (endIndexB s) /\
    len (dp_at s (endIndexA s) (endIndexB s)) = maxLength s /\
    forall a b, filled i j a b -> before a b (endIndexA s) (endIndexB s) ->
                len (dp_at s a b) < maxLength s)).

Definition fill_inv (i j : Z) (s : lcs_state) : Prop :=
  wf_tables nA nB s /\ table_ok i j s /\ track_inv i j s.

Lemma fill_inv_ext i j i' j' s :
  (forall a b, filled i j a b <-> filled i' j' a b) ->
  fill_inv i j s -> fill_inv i' j' s.
Proof.
  intros Hext (Hwf & Hok & H0 & Hle & Hend). split; [exact Hwf|]. split.
  - intros a b Ha Hb. destruct (Hok a b Ha Hb) as [Hr Hi]. split.
    + intros Hf. apply Hr, Hext, Hf.
    + intros Hf. apply Hi. intros Hf'. apply Hf, Hext, Hf'.
  - split; [exact H0|]. split.
    + intros a b Hf. apply Hle, Hext, Hf.
    + destruct Hend as [(HA & HB & Hm & Hnone)|(Hf & Hl & Hlater)].
      * left. repeat split; try assumption.
        intros a b Hf. apply (Hnone a b), Hext, Hf.
      * right. split; [apply Hext, Hf|]. split; [exact Hl|].
        intros a b Hfa. apply Hlater, Hext, Hfa.
Qed.

Lemma fill_inv_init :
  fill_inv 1 1
    (mkLcs (make2 (nA + 1) (nB + 1) dp_init) (make2 (nA + 1) (nB + 1) prev_init)
           0 (-1) (-1)).
Proof.
  assert (Hnone : forall a b, ~ filled 1 1 a b) by (unfold filled, before; lia).
  split; [split; simpl; apply rect_make2; lia|]. split.
  - intros a b _ _. split; [intros Hf; destruct (Hnone a b Hf)|].
    intros _. unfold cell, cell_init, dp_at, prev_at. simpl.
    rewrite !get2_make2. reflexivity.
  - split; simpl; [lia|]. split; [intros a b Hf; destruct (Hnone a b Hf)|].
    left. repeat split. exact Hnone.
Qed.

Lemma fill_inv_cell i j s :
  1 <= i <= nA -> 1 <= j <= nB -> fill_inv i j s ->
  fill_inv i (j + 1) (lcs_cell textA textB G i j s).
Proof.
  intros Hi Hj (Hwf & Hok & H0 & Hle & Hend).
  assert (Hinit : cell s i j = cell_init).
  { apply (Hok i j); [lia|lia|]. unfold filled, before. lia. }
  destruct (lcs_cell_spec nA nB textA textB G i j s Hwf Hi Hj Hinit)
    as (Hwf' & Hcell & Hframe & Htrack).
  set (s' := lcs_cell textA textB G i j s) in *.
  assert (Hok' : table_ok i (j + 1) s').
  { intros a b Ha Hb. destruct (Hok a b Ha Hb) as [Hr Hn]. split.
    - intros Hf. unfold recurrence.
      destruct (decide (a = i /\ b = j)) as [[-> ->]|Hne].
      + rewrite Hcell. rewrite !Hframe by lia. reflexivity.
      + assert (Hf0 : filled i j a b) by (unfold filled, before in *; lia).
        rewrite !Hframe by (unfold filled, before in *; lia). apply Hr, Hf0.
    - intros Hf. rewrite Hframe by (unfold filled, before in *; lia).
      apply Hn. unfold filled, before in *. lia. }
  split; [exact Hwf'|]. split; [exact Hok'|].
  pose proof (cells_good i (j + 1) s' Hok' i j ltac:(lia) ltac:(lia)) as (HL0 & _).
  assert (Hold : forall a b, filled i j a b -> dp_at s' a b = dp_at s a b).
  { intros a b Hf. specialize (Hframe a b). unfold cell in Hframe.
    assert (a <> i \/ b <> j) as Hab by (unfold filled, before in *; lia).
    apply Hframe in Hab. congruence. }
  assert (Hsplit : forall a b, filled i (j + 1) a b ->
                               filled i j a b \/ (a = i /\ b = j))
    by (unfold filled, before; lia).
  simpl in Htrack, HL0.
  destruct (maxLength s <=? len (dp_at s' i j)) eqn:Hcmp.
  - apply Z.leb_le in Hcmp. destruct Htrack as (Hm & HA & HB).
    unfold track_inv. rewrite Hm, HA, HB. split; [exact HL0|]. split.
    + intros a b Hf. destruct (Hsplit a b Hf) as [Hf0|[-> ->]]; [|lia].
      rewrite (Hold a b Hf0). specialize (Hle a b Hf0). lia.
    + right. split; [unfold filled, before; lia|]. split; [reflexivity|].
      intros a b Hf Hb. unfold filled, before in *. lia.
  - apply Z.leb_gt in Hcmp. destruct Htrack as (Hm & HA & HB).
    unfold track_inv. rewrite Hm, HA, HB. split; [exact H0|]. split.
    + intros a b Hf. destruct (Hsplit a b Hf) as [Hf0|[-> ->]]; [|lia].
      rewrite (Hold a b Hf0). apply Hle, Hf0.
    + destruct Hend as [(_ & _ & Hm0 & _)|(Hf & Hl & Hlater)]; [lia|].
      right. split; [unfold filled, before in *; lia|].
      split; [rewrite (Hold _ _ Hf); exact Hl|].
      intros a b Hfa Hb. destruct (Hsplit a b Hfa) as [Hf0|[-> ->]]; [|lia].
      rewrite (Hold a b Hf0). apply Hlater; assumption.
Qed.

Lemma fill_inv_row i s :
  1 <= i <= nA -> fill_inv i 1 s ->
  fill_inv (i + 1) 1 (lcs_row textA textB G i s).
Proof.
  intros Hi Hinv. unfold lcs_row.
  apply (fill_inv_ext i (1 + nB)); [unfold filled, before; lia|].
  apply (for_loop_ind (fun j s => fill_inv i j s)); [exact Hinv|].
  intros j s' Hj Hs'. apply fill_inv_cell; [lia|lia|exact Hs'].
Qed.

Lemma fill_inv_final : fill_inv (1 + nA) 1 (lcs_fill textA textB G).
Proof.
  unfold lcs_fill.
  apply (for_loop_ind (fun i s => fill_inv i 1 s)); [apply fill_inv_init|].
  intros i s Hi Hs. apply fill_inv_row; [lia|exact Hs].
Qed.
End Fill.

(** ** The aligner: backtracking yields an ascending chain of exact matches *)

Section Backtrack.
Variables (textA textB : list string) (G : Z).
Local Abbreviation nA := (Z.of_nat (length textA)).
Local Abbreviation nB := (Z.of_nat (length textB)).
Local Abbreviation len := DPEntry.length.

(** Index [a] of [textA] and index [b] of [textB] hold the same string. *)
Definition exact_match (a b : Z) : Prop :=
  0 <= a /\ 0 <= b /\
  exists str, textA !! Z.to_nat a = Some str /\ textB !! Z.to_nat b = Some str.

(** The pairs collected by the backtracking loop, in the order they are
    pushed: exact matches, strictly descending on both sides, below
    [(ua, ub)]. *)
Inductive back_path : Z -> Z -> list Z -> list Z -> Prop :=
| back_path_nil ua ub : back_path ua ub [] []
| back_path_cons ua ub a b la lb :
    a < ua -> b < ub -> exact_match a b -> back_path a b la lb ->
    back_path ua ub (a :: la) (b :: lb).

(** Strictly ascending index list. *)
Definition ascending (l : list Z) : Prop :=
  forall (k1 k2 : nat) x y, (k1 < k2)%nat -> l !! k1 = Some x -> l !! k2 = Some y -> x < y.

Definition descending (l : list Z) : Prop :=
  forall (k1 k2 : nat) x y, (k1 < k2)%nat -> l !! k1 = Some x -> l !! k2 = Some y -> y < x.

(** The contract of the aligner on its two result lists. *)
Definition anchors_ok (IA IB : list Z) : Prop :=
  length IA = length IB /\
  (forall (k : nat) a b, IA !! k = Some a -> IB !! k = Some b -> exact_match a b) /\
  ascending IA /\ ascending IB.

Lemma back_path_facts ua ub la lb :
  back_path ua ub la lb ->
  length la = length lb /\
  (forall (k : nat) a b, la !! k = Some a -> lb !! k = Some b -> exact_match a b) /\
  (forall (k : nat) x, la !! k = Some x -> x < ua) /\
  (forall (k : nat) y, lb !! k = Some y -> y < ub) /\
  descending la /\ descending lb.
Proof.
  induction 1 as [|ua ub a b la lb Ha Hb Hm Hp (IHl & IHm & IHa & IHb & IHda & IHdb)].
  - repeat split; repeat intro; discriminate.
  - split; [simpl; congruence|]. split.
    { intros [|k] x y Hx Hy; simpl in *.
      - injection Hx as <-. injection Hy as <-. exact Hm.
      - eapply IHm; eassumption. }
    split.
    { intros [|k] x Hx; simpl in *; [congruence|]. specialize (IHa k x Hx). lia. }
    split.
    { intros [|k] x Hx; simpl in *; [congruence|]. specialize (IHb k x Hx). lia. }
    split.
    + intros [|k1] [|k2] x y Hlt Hx Hy; simpl in *; try lia.
      * injection Hx as <-. apply (IHa k2 y Hy).
      * apply (IHda k1 k2 x y); [lia|assumption|assumption].
    + intros [|k1] [|k2] x y Hlt Hx Hy; simpl in *; try lia.
      * injection Hx as <-. apply (IHb k2 y Hy).
      * apply (IHdb k1 k2 x y); [lia|assumption|assumption].
Qed.

Lemma descending_reverse l : descending l -> ascending (reverse l).
Proof.
  intros Hd k1 k2 x y Hlt Hx Hy.
  assert (H2 : (k2 < length l)%nat)
    by (rewrite <- (length_reverse l); eapply lookup_lt_Some; eassumption).
  rewrite reverse_lookup in Hx by lia. rewrite reverse_lookup in Hy by lia.
  apply (Hd (length l - S k2)%nat (length l - S k1)%nat y x); [lia|assumption|assumption].
Qed.

Lemma back_path_anchors ua ub la lb :
  back_path ua ub la lb -> anchors_ok (reverse la) (reverse lb).
Proof.
  intros Hp. destruct (back_path_facts _ _ _ _ Hp) as (Hl & Hm & _ & _ & Hda & Hdb).
  split; [rewrite !length_reverse; exact Hl|]. split.
  - intros k a b Ha Hb.
    assert (Hk : (k < length la)%nat)
      by (rewrite <- (length_reverse la); eapply lookup_lt_Some; eassumption).
    rewrite reverse_lookup in Ha by lia. rewrite reverse_lookup in Hb by lia.
    rewrite <- Hl in Hb. eapply Hm; eassumption.
  - split; apply descending_reverse; assumption.
Qed.

(** The loop is entered with the [prev] pointer of a cell of length [L]
    placed at [(ua, ub)]. *)
Definition entry (s : lcs_state) (eA eB : Z) (L : nat) (ua ub : Z) : Prop :=
  match L with
  | O => eA = -1 /\ eB = -1
  | S L' => 0 <= eA < ua /\ 0 <= eB < ub /\
            vget EmptyString textA eA = vget EmptyString textB eB /\
            len (dp_at s eA eB) = Z.of_nat L'
  end.

Lemma goodv_entry s a b :
  goodv textA textB s a b (cell s a b) ->
  entry s (prev_at s a b).1 (prev_at s a b).2 (Z.to_nat (len (dp_at s a b))) a b.
Proof.
  intros (H0 & _ & _ & Hz & Hp). simpl in *.
  destruct (Z.to_nat (len (dp_at s a b))) as [|L'] eqn:HL; simpl.
  - rewrite Hz by lia. split; reflexivity.
  - destruct Hp as (a' & b' & E & Ha' & Hb' & Hm & Hl); [lia|].
    rewrite E. simpl. repeat split; try lia. exact Hm.
Qed.

Lemma backtrack_chain i j s :
  table_ok textA textB G i j s ->
  forall (L fuel : nat) eA eB ua ub rA rB,
    (L <= fuel)%nat -> ua <= nA -> ub <= nB -> entry s eA eB L ua ub ->
    exists la lb,
      backtrack fuel s eA eB rA rB = Some (rA ++ la, rB ++ lb) /\
      back_path ua ub la lb /\ length la = L.
Proof.
  intros Hok. induction L as [|L IH]; intros fuel eA eB ua ub rA rB Hfuel Hua Hub He.
  - destruct He as [-> ->]. exists [], [].
    rewrite !app_nil_r. split; [destruct fuel; reflexivity|].
    split; [constructor|reflexivity].
  - destruct He as (HeA & HeB & Hm & Hl).
    destruct fuel as [|fuel]; [lia|]. simpl backtrack.
    replace (eA =? -1) with false by (symmetry; apply Z.eqb_neq; lia).
    replace (eB =? -1) with false by (symmetry; apply Z.eqb_neq; lia).
    simpl.
    pose proof (cells_good textA textB G i j s Hok eA eB ltac:(lia) ltac:(lia)) as Hg.
    apply goodv_entry in Hg. rewrite Hl, Nat2Z.id in Hg.
    destruct (prev_at s eA eB) as [eA' eB'] eqn:Hprev. simpl in Hg.
    destruct (IH fuel eA' eB' eA eB (rA ++ [eA]) (rB ++ [eB]))
      as (la & lb & Hrun & Hpath & Hlen); [lia|lia|lia|exact Hg|].
    exists (eA :: la), (eB :: lb). split.
    + rewrite Hrun. rewrite <- !app_assoc. reflexivity.
    + split; [|simpl; congruence].
      constructor; [lia|lia| |exact Hpath].
      split; [lia|]. split; [lia|].
      exists (vget EmptyString textA eA). split.
      * apply vget_in_range. lia.
      * rewrite Hm. apply vget_in_range. lia.
Qed.

(** [maxLength] is the maximum of the [length] fields of the table. *)
Definition is_table_max (s : lcs_state) : Prop :=
  (forall i j, 0 <= i <= nA -> 0 <= j <= nB -> len (dp_at s i j) <= maxLength s) /\
  (exists i j, 0 <= i <= nA /\ 0 <= j <= nB /\ len (dp_at s i j) = maxLength s).

Lemma lcs_fill_max : is_table_max (lcs_fill textA textB G).
Proof.
  destruct (fill_inv_final textA textB G) as (_ & Hok & H0 & Hle & Hend).
  set (s := lcs_fill textA textB G) in *. split.
  - intros i j Hi Hj.
    destruct (classic_filled textA textB (1 + nA) 1 i j) as [Hf|Hf];
      [apply Hle, Hf|].
    destruct (Hok i j Hi Hj) as [_ Hinit]. specialize (Hinit Hf).
    unfold cell, cell_init in Hinit. injection Hinit as -> _. simpl. exact H0.
  - destruct Hend as [(_ & _ & Hm & _)|(Hf & Hl & _)].
    + exists 0, 0. split; [lia|]. split; [lia|].
      destruct (Hok 0 0 ltac:(lia) ltac:(lia)) as [_ Hinit].
      unfold cell, cell_init in Hinit.
      assert (Hn : ~ filled textA textB (1 + nA) 1 0 0) by (unfold filled; lia).
      apply Hinit in Hn. injection Hn as -> _. simpl. lia.
    + exists (endIndexA s), (endIndexB s). unfold filled in Hf.
      split; [lia|]. split; [lia|exact Hl].
Qed.

(** The aligner always returns, and its result meets the contract. *)
Lemma lcs_total :
  exists IA IB,
    lcs_indicies_ textA textB G = Some (IA, IB) /\
    anchors_ok IA IB /\
    Z.of_nat (length IA) = maxLength (lcs_fill textA textB G).
Proof.
  destruct (fill_inv_final textA textB G) as (_ & Hok & H0 & Hle & Hend).
  unfold lcs_indicies_. set (s := lcs_fill textA textB G) in *.
  destruct (maxLength s =? 0) eqn:Hz.
  - apply Z.eqb_eq in Hz. exists [], []. split; [reflexivity|].
    split; [|simpl; lia].
    split; [reflexivity|]. split; [intros k a b Hk; discriminate|].
    split; intros k1 k2 x y _ Hx; discriminate.
  - apply Z.eqb_neq in Hz.
    destruct Hend as [(_ & _ & Hm & _)|(Hf & Hl & _)]; [lia|].
    assert (HfA : 1 <= endIndexA s <= nA) by (unfold filled in Hf; lia).
    assert (HfB : 1 <= endIndexB s <= nB) by (unfold filled in Hf; lia).
    pose proof (cells_good textA textB G _ _ s Hok (endIndexA s) (endIndexB s)
                  ltac:(lia) ltac:(lia)) as Hg.
    pose proof Hg as (_ & HleA & _). simpl in HleA.
    apply goodv_entry in Hg.
    destruct (prev_at s (endIndexA s) (endIndexB s)) as [eA eB]. simpl in Hg.
    assert (Hfuel : (Z.to_nat (len (dp_at s (endIndexA s) (endIndexB s)))
                     <= S (length textA))%nat) by lia.
    destruct (backtrack_chain _ _ s Hok _ (S (length textA)) eA eB
                (endIndexA s) (endIndexB s) [] [] Hfuel ltac:(lia) ltac:(lia) Hg)
      as (la & lb & Hrun & Hpath & Hlen).
    rewrite Hrun. simpl. exists (reverse la), (reverse lb).
    split; [reflexivity|]. split; [eapply back_path_anchors; eassumption|].
    rewrite length_reverse, Hlen. lia.
Qed.
End Backtrack.

(** ** The comparable projection and its offset vector *)

(** What the two projection loops establish: [comp_words[k]] is the
    comparable form of the word at absolute index [k + skipped_ids[k]],
    and the offsets never decrease. *)
Definition projection_inv (ws : list Word) (p : projection) : Prop :=
  length (comp_words p) = length (skipped_ids p) /\
  skipped_so_far p = Z.of_nat (length ws) - Z.of_nat (length (comp_words p)) /\
  0 <= skipped_so_far p /\
  (forall (k : nat) sk, skipped_ids p !! k = Some sk ->
     0 <= sk <= skipped_so_far p /\
     exists w, ws !! (k + Z.to_nat sk)%nat = Some w /\
               comp_words p !! k = Some (get_comparable w) /\
               get_comparable w <> EmptyString) /\
  (forall (k1 k2 : nat) s1 s2, (k1 <= k2)%nat ->
     skipped_ids p !! k1 = Some s1 -> skipped_ids p !! k2 = Some s2 -> s1 <= s2).

Lemma projection_inv_step ws p w :
  projection_inv ws p -> projection_inv (ws ++ [w]) (projection_step p w).
Proof.
  intros (Hlen & Hsk & H0 & Hat & Hmono). unfold projection_step.
  destruct (String.eqb_spec (get_comparable w) EmptyString) as [He|Hne];
    unfold projection_inv; simpl.
  - rewrite length_app. simpl. split; [exact Hlen|]. split; [lia|]. split; [lia|].
    split; [|exact Hmono].
    intros k sk Hk. destruct (Hat k sk Hk) as (Hr & w' & Hw' & Hc & Hn).
    split; [lia|]. exists w'. split; [|split; assumption].
    apply lookup_app_l_Some. exact Hw'.
  - rewrite !length_app. simpl. split; [lia|]. split; [lia|]. split; [lia|].
    split.
    + intros k sk Hk. apply lookup_app_Some in Hk as [Hk|[Hge Hk]].
      * destruct (Hat k sk Hk) as (Hr & w' & Hw' & Hc & Hn).
        split; [lia|]. exists w'. split; [apply lookup_app_l_Some; exact Hw'|].
        split; [apply lookup_app_l_Some; exact Hc|exact Hn].
      * destruct (k - length (skipped_ids p))%nat as [|m] eqn:Hm; [|destruct m; discriminate].
        simpl in Hk. injection Hk as <-.
        assert (Hkk : k = length (comp_words p)).
        { lia. }
        split; [lia|]. exists w. split.
        -- replace (k + Z.to_nat (skipped_so_far p))%nat with (length ws + 0)%nat by lia.
           rewrite lookup_app_r by lia. replace (length ws + 0 - length ws)%nat with 0%nat by lia.
           reflexivity.
        -- split; [|exact Hne]. subst k. rewrite lookup_app_r by lia.
           rewrite Nat.sub_diag. reflexivity.
    + intros k1 k2 s1 s2 Hle H1 H2.
      apply lookup_app_Some in H1 as [H1|[Hge1 H1]];
        apply lookup_app_Some in H2 as [H2|[Hge2 H2]].
      * eapply Hmono; eassumption.
      * destruct (k2 - length (skipped_ids p))%nat as [|m]; [|destruct m; discriminate].
        simpl in H2. injection H2 as <-. destruct (Hat k1 s1 H1) as (Hr & _). lia.
      * apply lookup_lt_Some in H2. lia.
      * destruct (k1 - length (skipped_ids p))%nat as [|m]; [|destruct m; discriminate].
        destruct (k2 - length (skipped_ids p))%nat as [|m]; [|destruct m; discriminate].
        simpl in H1, H2. injection H1 as <-. injection H2 as <-. lia.
Qed.

Lemma comparable_projection_snoc ws w :
  comparable_projection (ws ++ [w]) = projection_step (comparable_projection ws) w.
Proof. unfold comparable_projection. rewrite fold_left_app. reflexivity. Qed.

Lemma comparable_projection_inv ws : projection_inv ws (comparable_projection ws).
Proof.
  induction ws as [|w ws IH] using rev_ind.
  - unfold comparable_projection, projection_inv. simpl.
    split; [reflexivity|]. split; [lia|]. split; [lia|].
    split; intros; discriminate.
  - rewrite comparable_projection_snoc. apply projection_inv_step, IH.
Qed.

(** The absolute index of the [k]-th comparable word. *)
Definition abs_index (p : projection) (k : Z) : Z := k + vget 0 (skipped_ids p) k.

Lemma abs_index_spec ws k :
  let p := comparable_projection ws in
  0 <= k < Z.of_nat (length (comp_words p)) ->
  0 <= abs_index p k < Z.of_nat (length ws) /\
  comp_words p !! Z.to_nat k = Some (get_comparable (word_at ws (abs_index p k))) /\
  get_comparable (word_at ws (abs_index p k)) <> EmptyString.
Proof.
  intros p Hk. destruct (comparable_projection_inv ws) as (Hlen & _ & _ & Hat & _).
  fold p in Hlen, Hat. unfold abs_index.
  pose proof (vget_in_range 0 (skipped_ids p) k ltac:(lia)) as Hsk.
  destruct (Hat _ _ Hsk) as (Hr & w & Hw & Hc & Hn).
  pose proof (lookup_lt_Some _ _ _ Hw) as Hlt.
  assert (Hword : word_at ws (k + vget 0 (skipped_ids p) k) = w).
  { unfold word_at. apply vget_lookup; [lia|].
    replace (Z.to_nat (k + vget 0 (skipped_ids p) k))
      with (Z.to_nat k + Z.to_nat (vget 0%Z (skipped_ids p) k))%nat by lia.
    exact Hw. }
  rewrite Hword. split; [lia|]. split; assumption.
Qed.

Lemma abs_index_mono ws k1 k2 :
  let p := comparable_projection ws in
  0 <= k1 -> k1 < k2 -> k2 < Z.of_nat (length (comp_words p)) ->
  abs_index p k1 < abs_index p k2.
Proof.
  intros p H1 H12 H2.
  destruct (comparable_projection_inv ws) as (Hlen & _ & _ & _ & Hmono).
  fold p in Hlen, Hmono. unfold abs_index.
  pose proof (vget_in_range 0 (skipped_ids p) k1 ltac:(lia)) as Hs1.
  pose proof (vget_in_range 0 (skipped_ids p) k2 ltac:(lia)) as Hs2.
  pose proof (Hmono (Z.to_nat k1) (Z.to_nat k2) _ _ ltac:(lia) Hs1 Hs2). lia.
Qed.

(** A word with a non-empty comparable form is a text word that is not
    punctuation. *)
Lemma comparable_nonempty w :
  get_comparable w <> EmptyString -> is_segment w = false /\ is_punct w = false.
Proof. destruct w as [ts [|] n|sd n]; simpl; intros H; split; congruence. Qed.

(** ** The anchored walk *)

(** The invariant rule of the walk: an invariant [I] of the cursors that
    every step keeps while it lowers the measure [mu], and a property [Q]
    of the operations every step pushes. *)
Lemma walk_inv (Q : EditOperation -> Prop) (I : Z -> Z -> Prop) (mu : Z -> Z -> nat)
    old_words new_words nextA nextB :
  (forall cA cB, I cA cB -> cA <> nextA \/ cB <> nextB ->
     let '(ops, cA', cB') := walk_step old_words new_words nextA nextB cA cB in
     Forall Q ops /\ I cA' cB' /\ (mu cA' cB' < mu cA cB)%nat) ->
  forall fuel cA cB ops0,
    I cA cB -> (mu cA cB <= fuel)%nat -> Forall Q ops0 ->
    exists ops', walk fuel old_words new_words nextA nextB cA cB ops0 = Some ops' /\
                 Forall Q ops'.
Proof.
  intros Hstep. induction fuel as [|fuel IH]; intros cA cB ops0 HI Hmu HQ.
  - simpl. destruct (negb (cA =? nextA) || negb (cB =? nextB)) eqn:Hc.
    + exfalso. specialize (Hstep cA cB HI).
      destruct (walk_step _ _ _ _ _ _) as [[ops a'] b'].
      destruct Hstep as (_ & _ & Hlt); [|lia].
      destruct (Z.eqb_spec cA nextA), (Z.eqb_spec cB nextB); simpl in Hc;
        try discriminate; lia.
    + exists ops0. split; [reflexivity|exact HQ].
  - simpl. destruct (negb (cA =? nextA) || negb (cB =? nextB)) eqn:Hc.
    + specialize (Hstep cA cB HI).
      destruct (walk_step _ _ _ _ _ _) as [[ops a'] b'].
      destruct Hstep as (HQ' & HI' & Hlt).
      { destruct (Z.eqb_spec cA nextA), (Z.eqb_spec cB nextB); simpl in Hc;
          try discriminate; lia. }
      apply IH; [exact HI'|lia|].
      apply Forall_app. split; assumption.
    + exists ops0. split; [reflexivity|exact HQ].
Qed.

Definition not_matched (op : EditOperation) : Prop :=
  match op with MATCHED_WORD _ _ => False | _ => True end.

(** The distance the cursors still have to cover. *)
Definition walk_measure (nextA nextB cA cB : Z) : nat :=
  Z.to_nat ((nextA - cA) + (nextB - cB)).

(** Every step of the walk moves a cursor towards its bound, never past
    it, and pushes no [MATCHED_WORD]. *)
Lemma walk_step_general old_words new_words nextA nextB cA cB :
  cA <= nextA -> cB <= nextB -> cA <> nextA \/ cB <> nextB ->
  let '(ops, cA', cB') := walk_step old_words new_words nextA nextB cA cB in
  Forall not_matched ops /\ (cA' <= nextA /\ cB' <= nextB) /\
  (walk_measure nextA nextB cA' cB' < walk_measure nextA nextB cA cB)%nat.
Proof.
  intros HA HB Hne. unfold walk_step, word_rules, walk_measure.
  destruct (Z.eqb_spec cA nextA), (Z.eqb_spec cB nextB); simpl; try lia;
    repeat match goal with
           | |- context [if ?b then _ else _] => destruct b; simpl
           end;
    (split; [repeat constructor|split; lia]).
Qed.

Lemma walk_total (Q : EditOperation -> Prop) old_words new_words nextA nextB :
  (forall op, not_matched op -> Q op) ->
  forall fuel cA cB ops0,
    cA <= nextA -> cB <= nextB ->
    (nextA - cA) + (nextB - cB) <= Z.of_nat fuel -> Forall Q ops0 ->
    exists ops', walk fuel old_words new_words nextA nextB cA cB ops0 = Some ops' /\
                 Forall Q ops'.
Proof.
  intros HQ fuel cA cB ops0 HA HB Hfuel Hops.
  apply (walk_inv Q (fun a b => a <= nextA /\ b <= nextB) (walk_measure nextA nextB));
    [|split; assumption|unfold walk_measure; lia|exact Hops].
  intros a b [Ha Hb] Hne.
  pose proof (walk_step_general old_words new_words nextA nextB a b Ha Hb Hne) as Hs.
  destruct (walk_step _ _ _ _ _ _) as [[ops a'] b'].
  destruct Hs as (Hnm & Hle & Hmu). split; [|split; assumption].
  eapply Forall_impl; [exact Hnm|exact HQ].
Qed.

(** The invariant rule of the loop over the anchors. *)
Lemma plan_ops_inv (Q : EditOperation -> Prop) old_words new_words skA skB IA IB :
  (forall i, 1 <= i <= Z.of_nat (length IA) ->
     let pA := vget 0 IA (i - 1) + vget 0 skA (vget 0 IA (i - 1)) in
     let pB := vget 0 IB (i - 1) + vget 0 skB (vget 0 IB (i - 1)) in
     let next := next_ids old_words new_words skA skB IA IB i in
     Q (MATCHED_WORD pA pB) /\
     forall ops0, Forall Q ops0 ->
       exists ops',
         walk (length old_words + length new_words) old_words new_words
              next.1 next.2 (pA + 1) (pB + 1) ops0 = Some ops' /\
         Forall Q ops') ->
  exists ops, plan_ops old_words new_words skA skB IA IB = Some ops /\ Forall Q ops.
Proof.
  intros Hbody. unfold plan_ops.
  set (body := anchor_step old_words new_words skA skB IA IB).
  assert (Hloop :
    (fun i st => exists ps, st = Some ps /\ Forall Q (pending_ops ps) /\
                            prevA ps = vget 0 IA (i - 1) /\ prevB ps = vget 0 IB (i - 1))
      (1 + Z.of_nat (length IA))
      (for_loop (length IA) 1 body (Some (mkPlan (vget 0 IA 0) (vget 0 IB 0) [])))).
  { apply for_loop_ind.
    - eexists. split; [reflexivity|]. simpl. split; [constructor|]. split; reflexivity.
    - intros i st Hi (ps & -> & HQ & HpA & HpB).
      destruct (Hbody i ltac:(lia)) as (Hm & Hwalk).
      subst body. unfold anchor_step. rewrite HpA, HpB.
      destruct (next_ids old_words new_words skA skB IA IB i) as [nA' nB'].
      simpl in Hwalk.
      destruct (Hwalk (pending_ops ps ++
                         [MATCHED_WORD (vget 0 IA (i - 1) + vget 0 skA (vget 0 IA (i - 1)))
                                       (vget 0 IB (i - 1) + vget 0 skB (vget 0 IB (i - 1)))]))
        as (ops' & Hrun & Hops').
      { apply Forall_app. split; [exact HQ|]. constructor; [exact Hm|constructor]. }
      rewrite Hrun. eexists. split; [reflexivity|]. simpl.
      split; [exact Hops'|].
      replace (i + 1 - 1) with i by lia. split; reflexivity. }
  destruct Hloop as (ps & -> & HQ & _). eexists. split; [reflexivity|exact HQ].
Qed.

(** ** The plan of a merge *)

(** What a [MATCHED_WORD(a, b)] must refer to: in-range indices of two
    entries that are neither segments nor punctuation and share one
    non-empty comparable form. *)
Definition matched_ok (old_words new_words : list Word) (a b : Z) : Prop :=
  0 <= a < Z.of_nat (length old_words) /\
  0 <= b < Z.of_nat (length new_words) /\
  is_segment (word_at old_words a) = false /\
  is_punct (word_at old_words a) = false /\
  is_segment (word_at new_words b) = false /\
  is_punct (word_at new_words b) = false /\
  get_comparable (word_at old_words a) = get_comparable (word_at new_words b) /\
  get_comparable (word_at old_words a) <> EmptyString.

Definition op_ok (old_words new_words : list Word) (op : EditOperation) : Prop :=
  match op with
  | MATCHED_WORD a b => matched_ok old_words new_words a b
  | _ => True
  end.

(** An anchor of the aligner, translated through the offset vectors. *)
Lemma anchor_translated old_words new_words a b :
  let pold := comparable_projection old_words in
  let pnew := comparable_projection new_words in
  exact_match (comp_words pold) (comp_words pnew) a b ->
  a < Z.of_nat (length (comp_words pold)) /\
  b < Z.of_nat (length (comp_words pnew)) /\
  matched_ok old_words new_words (abs_index pold a) (abs_index pnew b).
Proof.
  intros pold pnew (Ha & Hb & str & HA & HB).
  pose proof (lookup_lt_Some _ _ _ HA) as HlA.
  pose proof (lookup_lt_Some _ _ _ HB) as HlB.
  destruct (abs_index_spec old_words a ltac:(fold pold; lia)) as (HrA & HcA & HnA).
  destruct (abs_index_spec new_words b ltac:(fold pnew; lia)) as (HrB & HcB & HnB).
  fold pold in HrA, HcA, HnA. fold pnew in HrB, HcB, HnB.
  destruct (comparable_nonempty _ HnA) as [HsA HpA].
  destruct (comparable_nonempty _ HnB) as [HsB HpB].
  split; [lia|]. split; [lia|].
  unfold matched_ok. repeat split; try assumption; try lia.
  rewrite HA in HcA. rewrite HB in HcB. congruence.
Qed.

(** Iteration [i] of the loop over the anchors starts from a well-placed
    anchor, and its walk starts no further than where it has to stop. *)
Lemma anchor_bounds old_words new_words IA IB i :
  let pold := comparable_projection old_words in
  let pnew := comparable_projection new_words in
  anchors_ok (comp_words pold) (comp_words pnew) IA IB ->
  1 <= i <= Z.of_nat (length IA) ->
  let pA := vget 0 IA (i - 1) + vget 0 (skipped_ids pold) (vget 0 IA (i - 1)) in
  let pB := vget 0 IB (i - 1) + vget 0 (skipped_ids pnew) (vget 0 IB (i - 1)) in
  let next :=
    next_ids old_words new_words (skipped_ids pold) (skipped_ids pnew) IA IB i in
  matched_ok old_words new_words pA pB /\
  pA + 1 <= next.1 <= Z.of_nat (length old_words) /\
  pB + 1 <= next.2 <= Z.of_nat (length new_words).
Proof.
  intros pold pnew (Hlen & Hmatch & HascA & HascB) Hi.
  pose proof (vget_in_range 0 IA (i - 1) ltac:(lia)) as HIA.
  pose proof (vget_in_range 0 IB (i - 1) ltac:(lia)) as HIB.
  set (a := vget 0 IA (i - 1)) in *. set (b := vget 0 IB (i - 1)) in *.
  pose proof (Hmatch _ _ _ HIA HIB) as Hab.
  pose proof Hab as (Ha0 & Hb0 & _).
  destruct (anchor_translated old_words new_words a b Hab) as (HaR & HbR & Hok).
  fold pold in HaR, Hok. fold pnew in HbR, Hok.
  cbv zeta. split; [exact Hok|]. destruct Hok as (HrA & HrB & _).
  unfold abs_index in HrA, HrB. unfold next_ids.
  destruct (Z.eqb_spec i (Z.of_nat (length IA))); simpl; [lia|].
  pose proof (vget_in_range 0 IA i ltac:(lia)) as HIA'.
  pose proof (vget_in_range 0 IB i ltac:(lia)) as HIB'.
  pose proof (Hmatch _ _ _ HIA' HIB') as Hab'.
  destruct (anchor_translated old_words new_words _ _ Hab')
    as (HaR' & HbR' & (HrA' & HrB' & _)).
  fold pold in HaR', HrA'. fold pnew in HbR', HrB'.
  pose proof (HascA (Z.to_nat (i - 1)) (Z.to_nat i) _ _ ltac:(lia) HIA HIA') as HltA.
  pose proof (HascB (Z.to_nat (i - 1)) (Z.to_nat i) _ _ ltac:(lia) HIB HIB') as HltB.
  pose proof (abs_index_mono old_words a (vget 0 IA i) Ha0 HltA HaR') as HmA.
  pose proof (abs_index_mono new_words b (vget 0 IB i) Hb0 HltB HbR') as HmB.
  fold pold in HmA. fold pnew in HmB. unfold abs_index in *. lia.
Qed.

(** The planner returns on every alignment that meets the aligner's
    contract, and each [MATCHED_WORD] of its plan is well placed. *)
Lemma plan_ops_total old_words new_words IA IB :
  let pold := comparable_projection old_words in
  let pnew := comparable_projection new_words in
  anchors_ok (comp_words pold) (comp_words pnew) IA IB ->
  exists ops,
    plan_ops old_words new_words (skipped_ids pold) (skipped_ids pnew) IA IB = Some ops /\
    Forall (op_ok old_words new_words) ops.
Proof.
  intros pold pnew Hok. apply plan_ops_inv. intros i Hi.
  destruct (anchor_bounds old_words new_words IA IB i Hok Hi) as (Hm & HA & HB).
  fold pold pnew in Hm, HA, HB. cbv zeta. split; [exact Hm|].
  intros ops0 Hops0. destruct Hm as (HrA & HrB & _).
  apply walk_total; try assumption; try lia.
  intros [] Hnm; simpl in *; [contradiction|exact I..].
Qed.

(** ** The cases of [merge_one_] *)

Section MergeCases.
Context `{WordProb}.

(** The three ways through [merge_one_]: the first words, no overlap, and
    a planned merge.  In each of them the function returns. *)
Lemma merge_one_cases (tr : Transcript.t) (new_words : list Word) :
  let old_words := Transcript.get_words_splice tr in
  let pold := comparable_projection old_words in
  let pnew := comparable_projection new_words in
  (Transcript.empty tr = true /\
   merge_one_ tr new_words = Some (Transcript.push_back tr new_words, [])) \/
  (Transcript.empty tr = false /\
   exists IA IB,
     lcs_indicies_ (comp_words pold) (comp_words pnew) allowed_gaps = Some (IA, IB) /\
     anchors_ok (comp_words pold) (comp_words pnew) IA IB /\
     ((IA = [] /\
       merge_one_ tr new_words = Some (Transcript.push_back tr new_words, [])) \/
      (IA <> [] /\
       exists ops,
         plan_ops old_words new_words (skipped_ids pold) (skipped_ids pnew) IA IB
           = Some ops /\
         Forall (op_ok old_words new_words) ops /\
         merge_one_ tr new_words =
           Some (Transcript.set_stale_word_id
                   (Transcript.clear_mistakes (Transcript.run tr ops new_words) (-1))
                   (Z.max (Transcript.get_stale_word_id tr)
                          (Transcript.get_stale_word_id tr
                           + vget 0 IA 0 - vget 0 IB 0)),
                 ops)))).
Proof.
  intros old_words pold pnew. unfold merge_one_.
  destruct (Transcript.empty tr) eqn:He; [left; split; reflexivity|].
  right. split; [reflexivity|].
  destruct (lcs_total (comp_words pold) (comp_words pnew) allowed_gaps)
    as (IA & IB & Hlcs & Hok & _).
  exists IA, IB. fold old_words pold pnew. rewrite Hlcs.
  split; [reflexivity|]. split; [exact Hok|].
  destruct IA as [|a IA']; [left; split; reflexivity|].
  right. split; [discriminate|].
  destruct (plan_ops_total old_words new_words (a :: IA') IB Hok) as (ops & Hplan & Hops).
  fold pold pnew in Hplan. exists ops. rewrite Hplan.
  split; [reflexivity|]. split; [exact Hops|reflexivity].
Qed.
End MergeCases.

(** ** The aligner on two equal sequences *)

Section LcsSelf.
Variables (text : list string) (G : Z).
Local Abbreviation n := (Z.of_nat (length text)).
Local Abbreviation len := DPEntry.length.

Lemma lcs_self_diagonal :
  forall k : nat, Z.of_nat k <= n ->
    cell (lcs_fill text text G) (Z.of_nat k) (Z.of_nat k)
    = (DPEntry.mk (Z.of_nat k) 0, (Z.of_nat k - 1, Z.of_nat k - 1)).
Proof.
  destruct (fill_inv_final text text G) as (_ & Hok & _).
  set (s := lcs_fill text text G) in *.
  induction k as [|k IH]; intros Hk.
  - destruct (Hok 0 0 ltac:(lia) ltac:(lia)) as [_ Hinit].
    apply Hinit. unfold filled. lia.
  - destruct (Hok (Z.of_nat (S k)) (Z.of_nat (S k)) ltac:(lia) ltac:(lia)) as [Hrec _].
    rewrite Hrec by (unfold filled, before; lia).
    unfold rule_val. rewrite String.eqb_refl.
    replace (Z.of_nat (S k) - 1) with (Z.of_nat k) by lia.
    rewrite IH by lia. simpl. f_equal. f_equal. lia.
Qed.

Lemma lcs_self_end :
  0 < n ->
  maxLength (lcs_fill text text G) = n /\
  endIndexA (lcs_fill text text G) = n /\ endIndexB (lcs_fill text text G) = n.
Proof.
  intros Hn. destruct (fill_inv_final text text G) as (_ & Hok & H0 & Hle & Hend).
  set (s := lcs_fill text text G) in *.
  assert (Hfn : filled text text (1 + n) 1 n n) by (unfold filled, before; lia).
  assert (Hdn : len (dp_at s n n) = n).
  { pose proof (lcs_self_diagonal (length text) ltac:(lia)) as Hd.
    fold s in Hd. unfold cell in Hd. injection Hd as Hd _. rewrite Hd. reflexivity. }
  destruct Hend as [(_ & _ & _ & Hnone)|(Hf & Hl & Hlater)];
    [destruct (Hnone _ _ Hfn)|].
  pose proof (Hle _ _ Hfn) as Hmax. rewrite Hdn in Hmax.
  pose proof (cells_good text text G _ _ s Hok (endIndexA s) (endIndexB s)) as Hg.
  unfold filled in Hf.
  destruct Hg as (_ & HgA & HgB & _); [lia|lia|]. simpl in HgA, HgB.
  assert (Hm : maxLength s = n) by lia. split; [exact Hm|].
  destruct (decide (endIndexA s = n /\ endIndexB s = n)) as [Heq|Hneq]; [exact Heq|].
  exfalso. specialize (Hlater n n Hfn). unfold before in Hlater. lia.
Qed.

Lemma lcs_self_backtrack :
  forall (k fuel : nat) rA rB,
    (k <= fuel)%nat -> Z.of_nat k <= n ->
    backtrack fuel (lcs_fill text text G) (Z.of_nat k - 1) (Z.of_nat k - 1) rA rB
    = Some (rA ++ reverse (seqZ 0 (Z.of_nat k)), rB ++ reverse (seqZ 0 (Z.of_nat k))).
Proof.
  induction k as [|k IH]; intros fuel rA rB Hfuel Hk.
  - simpl. rewrite !app_nil_r. destruct fuel; reflexivity.
  - destruct fuel as [|fuel]; [lia|].
    replace (Z.of_nat (S k) - 1) with (Z.of_nat k) by lia. simpl backtrack.
    replace (Z.of_nat k =? -1) with false by (symmetry; apply Z.eqb_neq; lia).
    simpl.
    pose proof (lcs_self_diagonal k ltac:(lia)) as Hd. unfold cell in Hd.
    injection Hd as _ Hp. rewrite Hp.
    rewrite IH by lia. rewrite seqZ_S, reverse_snoc, <- !app_assoc. simpl.
    replace (0 + Z.of_nat k) with (Z.of_nat k) by lia. reflexivity.
Qed.

(** Aligning a sequence with itself pairs every index with itself. *)
Lemma lcs_self : lcs_indicies_ text text G = Some (seqZ 0 n, seqZ 0 n).
Proof.
  unfold lcs_indicies_. destruct (decide (n = 0)) as [Hz|Hnz].
  - assert (Hnil : text = []) by (destruct text; [reflexivity|simpl in Hz; lia]).
    rewrite Hnil. reflexivity.
  - destruct lcs_self_end as (Hm & HA & HB); [lia|].
    rewrite Hm, HA, HB. destruct (Z.eqb_spec n 0); [contradiction|].
    pose proof (lcs_self_diagonal (length text) ltac:(lia)) as Hd. unfold cell in Hd.
    injection Hd as _ Hp. rewrite Hp.
    rewrite (lcs_self_backtrack (length text) (S (length text)) [] []) by lia.
    simpl. rewrite reverse_involutive. reflexivity.
Qed.
End LcsSelf.

(** ** The aligner on a sequence and its own suffix *)


Section LcsSuffix.
Variables (pre text : list string) (G : Z).
Local Abbreviation p := (Z.of_nat (length pre)).
Local Abbreviation n := (Z.of_nat (length text)).
Local Abbreviation len := DPEntry.length.





End LcsSuffix.

(** ** Merging an update into a transcript that ends with it *)

(** A word with its occurrence counter erased. *)
Definition erase (w : Word) : Word := set_occurrences 0 w.






(** *** The projection of a concatenation *)





(** *** The walk between two lists that agree from an offset on *)







(** *** The plan against a transcript tail that ends with the update *)

Section PlanShift.
Variables (pre tail update : list Word).
Hypothesis Htail : map erase tail = map erase update.

Local Abbreviation d := (Z.of_nat (length pre)).
Local Abbreviation pold := (comparable_projection (pre ++ tail)).
Local Abbreviation pnew := (comparable_projection update).
Local Abbreviation q := (Z.of_nat (length (comp_words (comparable_projection pre)))).
Local Abbreviation n := (Z.of_nat (length (comp_words (comparable_projection update)))).





End PlanShift.

(** *** Running the plan *)




Section RunShift.
Context `{WordProb}.





End RunShift.






(** ** Concrete words, probabilities and token rules

    Instances of the parameters of the model, to run it on concrete
    inputs. *)

(** The probability of a word as the mean of the probabilities of its
    tokens: an instance of [WordProb] to run the model on concrete words. *)
Definition mean_prob : WordProb :=
  fun ts => (fold_right Qplus 0%Q (map token_prob ts) / inject_Z (Z.of_nat (length ts)))%Q.

(** A text word of one token, as the deserializer builds it. *)
Definition plain_word (text : string) : Word :=
  Word_of_tokens [mkToken text (1 # 2)].

(** A segment of [d] milliseconds that starts at time 0. *)
Definition plain_segment (d : Z) : Word :=
  Word_of_segment (mkSegment (mkToken "." (1 # 2)) d 0).

(** [p] is a prefix of [s]. *)
Definition has_prefix (p s : list ascii) : bool :=
  bool_decide (take (length p) s = p).

(** Token rules to run the deserializer on concrete messages: a special
    token has the shape [[_XXX_]], a punctuation token is a single
    punctuation mark, possibly after one blank, and no tokens are joined. *)
Definition plain_rules : TokenRules := {|
  is_special_token := fun texts i =>
    let s := list_ascii_of_string (vget EmptyString texts i) in
    has_prefix (list_ascii_of_string "[_") s
    && has_prefix (list_ascii_of_string "]_") (reverse s);
  my_ispunct := fun texts i =>
    bool_decide (trim (vget EmptyString texts i) ∈ [","; "."; "!"; "?"; ";"; ":"]);
  join_tokens := fun _ _ => (false, 0);
  combine_text := fun _ _ _ => EmptyString;
  combine_prob := fun _ _ _ => 0%Q
|}.


(** ** The scenarios of the specification, run on the model *)

(** Interior revision: with one gap allowed, the anchors skip the
    misrecognized word. *)
Example lcs_interior_revision :
  lcs_indicies_ ["the"; "quik"; "brown"] ["the"; "quick"; "brown"] 1
  = Some ([0; 2], [0; 2]).
Proof. reflexivity. Qed.

(** No overlap: the aligner returns empty lists. *)
Example lcs_no_overlap :
  lcs_indicies_ ["foo"; "bar"] ["baz"; "qux"] 4 = Some ([], []).
Proof. reflexivity. Qed.

(** Ties go to the latest cell in scan order. *)
Example lcs_latest_wins :
  lcs_indicies_ ["a"; "c"] ["a"; "b"; "a"] 4 = Some ([0], [2]).
Proof. reflexivity. Qed.

(** Cold start: the first words become the transcript. *)
Example merge_cold_start :
  @merge_one_ mean_prob (Transcript.mk [] 0) [plain_word "hello"; plain_word " world"]
  = Some (Transcript.mk [plain_word "hello"; plain_word " world"] 0, []).
Proof. reflexivity. Qed.

(** Pure extension: two matches, then the new words inserted at the tail. *)
Example merge_pure_extension :
  snd <$> @merge_one_ mean_prob
            (Transcript.mk [plain_word "the"; plain_word " quick"] 0)
            [plain_word "The"; plain_word " quick"; plain_word " brown"; plain_word " fox"]
  = Some [MATCHED_WORD 0 0; MATCHED_WORD 1 1; INSERT 2 2; INSERT 2 3].
Proof. vm_compute. reflexivity. Qed.

(** Punctuation upgrade: the comma is decremented and put in conflict
    with the word of the update. *)
Example merge_punctuation_upgrade :
  snd <$> @merge_one_ mean_prob
            (Transcript.mk [plain_word "yes"; Word_of_token (mkToken "," (1 # 2)) true;
                            plain_word " please"] 0)
            [plain_word "yes"; plain_word " indeed"; plain_word " please"]
  = Some [MATCHED_WORD 0 0; DECREMENT 1; CONFLICT 1 1; MATCHED_WORD 2 2].
Proof. vm_compute. reflexivity. Qed.

(** The first anchor lies further into the old words than into the new
    ones: the stale boundary advances. *)
Example merge_advances_stale :
  (fun r => Transcript.stale_word_id r.1) <$>
    @merge_one_ mean_prob
      (Transcript.mk [plain_word "a"; plain_word " b"; plain_word " c"] 0)
      [plain_word " c"; plain_word " d"]
  = Some 2.
Proof. vm_compute. reflexivity. Qed.

(** A token that starts with a blank opens a new word, a punctuation mark
    is a word of its own, and a special token is dropped. *)
Example deserialize_plain_message :
  @deserialize_msg_ plain_rules
    (mkTokens 0 [" Hi"; "gh"; ","; " you"; "[_TT_150_]"]
              [(1 # 2)%Q; (1 # 2)%Q; (1 # 2)%Q; (1 # 2)%Q; (1 # 2)%Q] [] [] [])
  = Some [Word_of_tokens [mkToken " Hi" (1 # 2); mkToken "gh" (1 # 2)];
          Word_of_token (mkToken "," (1 # 2)) true;
          Word_of_tokens [mkToken " you" (1 # 2)]].
Proof. vm_compute. reflexivity. Qed.

(** A segment start that repeats makes the segment block read
    [token_texts] at index -1, and a message with fewer probabilities than
    tokens makes the token block read [token_probs] past its end: neither
    run has a result. *)
Example deserialize_out_of_range :
  @deserialize_msg_ plain_rules
    (mkTokens 0 [" a"; " b"] [(1 # 2)%Q; (1 # 2)%Q] [0; 0] [0; 0] [100; 100]) = None /\
  @deserialize_msg_ plain_rules (mkTokens 0 [" a"; " b"] [(1 # 2)%Q] [] [] []) = None /\
  @deserialize_msg_ plain_rules (mkTokens 0 [" a"; " b"] [(1 # 2)%Q; (1 # 2)%Q] [0] [] [])
  = None.
Proof. repeat split; vm_compute; reflexivity. Qed.

(** ** The aligner meets its contract *)

(** C1: for all sequences [A], [B] and every gap budget [G] (in particular
    every [G >= 0]), [lcs_indicies_] returns two index lists [(IA, IB)] of
    equal length such that [A[IA[k]] == B[IB[k]]] for every [k], both lists
    are strictly ascending, and their common length is [maxLength], the
    maximum of the [length] fields recorded in the DP table. *)
Theorem lcs_indicies_correct (A B : list string) (G : Z) :
  exists IA IB,
    lcs_indicies_ A B G = Some (IA, IB) /\
    length IA = length IB /\
    (forall (k : nat) a b, IA !! k = Some a -> IB !! k = Some b ->
       0 <= a /\ 0 <= b /\
       exists str, A !! Z.to_nat a = Some str /\ B !! Z.to_nat b = Some str) /\
    ascending IA /\ ascending IB /\
    Z.of_nat (length IA) = maxLength (lcs_fill A B G) /\
    is_table_max A B (lcs_fill A B G).
Proof.
  destruct (lcs_total A B G) as (IA & IB & Hrun & (Hlen & Hm & HA & HB) & Hmax).
  exists IA, IB. split; [exact Hrun|]. split; [exact Hlen|].
  split; [intros k a b Ha Hb; exact (Hm k a b Ha Hb)|].
  split; [exact HA|]. split; [exact HB|]. split; [exact Hmax|].
  apply lcs_fill_max.
Qed.

(** ** Occurrence counts after a merge cycle *)

(** C3, amended: after [run] followed by [clear_mistakes(-1)], every entry
    that remains has [occurrences >= 0] (an entry whose count has fallen to
    zero is kept; only negative counts are pruned). *)
Theorem occurrences_nonnegative_after_cycle `{WordProb}
    (tr : Transcript.t) (ops : Operations) (new_words : list Word) :
  Forall (fun w => 0 <= get_occurrences w)
    (Transcript.entries
       (Transcript.clear_mistakes (Transcript.run tr ops new_words) (-1))).
Proof.
  apply Forall_forall. intros w Hw. simpl in Hw.
  apply list_elem_of_filter in Hw as [Hocc _]. lia.
Qed.

(** C3 as stated fails: merging the update ["a"] into the transcript
    ["a"; "c"] decrements "c" to zero occurrences, and [clear_mistakes(-1)]
    keeps it. *)
Lemma zero_occurrences_survive :
  let tr := Transcript.mk [plain_word "a"; plain_word "c"] 0 in
  let new_words := [plain_word "a"] in
  let ops := [MATCHED_WORD 0 0; DECREMENT 1] in
  @merge_one_ mean_prob tr new_words
    = Some (Transcript.set_stale_word_id
              (Transcript.clear_mistakes (@Transcript.run mean_prob tr ops new_words) (-1))
              0, ops) /\
  ~ Forall (fun w => 1 <= get_occurrences w)
      (Transcript.entries
         (Transcript.clear_mistakes (@Transcript.run mean_prob tr ops new_words) (-1))).
Proof.
  split; [vm_compute; reflexivity|].
  intros Hall. vm_compute in Hall.
  apply Forall_cons in Hall as [_ Hall]. apply Forall_cons in Hall as [Hc _].
  apply Hc. reflexivity.
Qed.

(** ** The published stale boundary *)

(** The number of segment entries among [ws]. *)
Definition count_segments (ws : list Word) : Z :=
  Z.of_nat (length (filter (fun w => is_segment w = true) ws)).

(** The segments positioned before the stale boundary. *)
Definition segments_before_stale (tr : Transcript.t) : Z :=
  count_segments (take (Z.to_nat (Transcript.stale_word_id tr)) (Transcript.entries tr)).

Lemma serialize_step_skipped `{WordProb} (ws : list Word) (msg : AudioTranscript) (n : Z) :
  (fold_left serialize_step ws (msg, n)).2 = n + count_segments ws.
Proof.
  revert msg n. induction ws as [|w ws IH]; intros msg n.
  - unfold count_segments. simpl. lia.
  - cbn [fold_left].
    destruct w as [ts p k|sd k]; cbn [serialize_step]; rewrite IH; unfold count_segments.
    + rewrite filter_cons_False by (simpl; discriminate). lia.
    + rewrite filter_cons_True by reflexivity. simpl length. lia.
Qed.

(** What the serializer computes: the stale boundary minus the number of
    all segments of the transcript. *)
Lemma serialize_active_index `{WordProb} (tr : Transcript.t) (msg : AudioTranscript) :
  active_index (serialize_transcript_ tr msg)
  = Transcript.stale_word_id tr - count_segments (Transcript.entries tr).
Proof.
  unfold serialize_transcript_.
  pose proof (serialize_step_skipped (Transcript.entries tr) msg 0) as Hs.
  destruct (fold_left serialize_step (Transcript.entries tr) (msg, 0)) as [msg' sk].
  simpl in *. rewrite Hs. unfold Transcript.get_stale_word_id. lia.
Qed.

(** C4: the first message of a stream, two tokens in one segment that
    starts at token 0, deserializes to a segment followed by two words.
    Once it is merged the stale boundary is 0 and no segment lies before
    it, so the claimed [active_index] is 0; the message the driver
    publishes carries -1, because the serializer subtracts every segment
    of the transcript. *)
Theorem active_index_counts_all_segments :
  let msg := mkTokens 0 [" Hello"; " world"] [(9 # 10)%Q; (8 # 10)%Q] [0] [0] [100] in
  exists ws tr out,
    @deserialize_msg_ plain_rules msg = Some ws /\
    @clear_queue_ mean_prob (Transcript.mk [] 0) [ws] = Some (tr, Some out) /\
    active_index out = -1 /\
    Transcript.stale_word_id tr - segments_before_stale tr = 0.
Proof.
  eexists _, _, _. split; [vm_compute; reflexivity|].
  split; [vm_compute; reflexivity|]. split; reflexivity.
Qed.

(** ** The stale boundary across a merge *)

(** C5: [merge_one_] never moves the stale boundary back.  A merge of the
    first words or one with an empty alignment leaves it where it was; a
    merge with a non-empty alignment sets it to
    [max(stale_old, stale_old + IA[0] - IB[0])]. *)
Theorem stale_word_id_monotone `{WordProb}
    (tr : Transcript.t) (new_words : list Word) :
  let pold := comparable_projection (Transcript.get_words_splice tr) in
  let pnew := comparable_projection new_words in
  let stale_old := Transcript.stale_word_id tr in
  exists tr' ops IA IB,
    merge_one_ tr new_words = Some (tr', ops) /\
    stale_old <= Transcript.stale_word_id tr' /\
    (Transcript.empty tr = true -> Transcript.stale_word_id tr' = stale_old) /\
    (Transcript.empty tr = false ->
       lcs_indicies_ (comp_words pold) (comp_words pnew) allowed_gaps = Some (IA, IB) /\
       (IA = [] -> Transcript.stale_word_id tr' = stale_old) /\
       (IA <> [] ->
        Transcript.stale_word_id tr'
        = Z.max stale_old (stale_old + vget 0 IA 0 - vget 0 IB 0))).
Proof.
  intros pold pnew stale_old.
  destruct (merge_one_cases tr new_words)
    as [[He Hrun]|(He & IA & IB & Hlcs & _ & [[HIA Hrun]|(HIA & ops & _ & _ & Hrun)])].
  - eexists _, _, [], []. split; [exact Hrun|]. simpl.
    split; [subst stale_old; lia|]. split; [reflexivity|congruence].
  - eexists _, _, IA, IB. split; [exact Hrun|]. simpl.
    split; [subst stale_old; lia|]. split; [reflexivity|].
    intros _. split; [exact Hlcs|]. split; [reflexivity|contradiction].
  - eexists _, _, IA, IB. split; [exact Hrun|]. simpl.
    unfold Transcript.get_stale_word_id. fold stale_old.
    split; [lia|]. split; [congruence|].
    intros _. split; [exact Hlcs|]. split; [contradiction|]. intros _. lia.
Qed.

(** ** Merging an update that shares nothing with the active tail *)

(** C7: when the transcript is not empty and no comparable string of the
    update occurs among those of the active tail, the aligner returns empty
    index lists, [merge_one_] hands no operation to the store, and the
    transcript afterwards is the old entries followed by the entries of the
    update, in order. *)
Theorem no_overlap_appends `{WordProb} (tr : Transcript.t) (new_words : list Word) :
  let pold := comparable_projection (Transcript.get_words_splice tr) in
  let pnew := comparable_projection new_words in
  Transcript.empty tr = false ->
  Forall (fun str => str ∉ comp_words pnew) (comp_words pold) ->
  lcs_indicies_ (comp_words pold) (comp_words pnew) allowed_gaps = Some ([], []) /\
  merge_one_ tr new_words
  = Some (Transcript.mk (Transcript.entries tr ++ new_words)
                        (Transcript.stale_word_id tr), []).
Proof.
  intros pold pnew Hne Hdisj.
  destruct (merge_one_cases tr new_words)
    as [[He _]|(_ & IA & IB & Hlcs & Hok & Hcase)]; [congruence|].
  fold pold pnew in Hlcs, Hok.
  assert (HIA : IA = []).
  { destruct IA as [|a IA']; [reflexivity|]. exfalso.
    destruct Hok as (Hlen & Hm & _).
    destruct IB as [|b IB']; [discriminate|].
    destruct (Hm 0%nat a b eq_refl eq_refl) as (_ & _ & str & HA & HB).
    rewrite Forall_forall in Hdisj. apply (Hdisj str).
    - eapply list_elem_of_lookup_2; exact HA.
    - eapply list_elem_of_lookup_2; exact HB. }
  subst IA.
  assert (HIB : IB = []).
  { destruct Hok as (Hlen & _). destruct IB; [reflexivity|discriminate]. }
  subst IB. split; [exact Hlcs|].
  destruct Hcase as [[_ Hrun]|(Hcontra & _)]; [exact Hrun|contradiction].
Qed.

Lemma no_overlap_appends_witness :
  let old_words := [plain_word "foo"; plain_word "bar"] in
  let new_words := [plain_word "baz"; plain_word "qux"] in
  lcs_indicies_ ["foo"; "bar"] ["baz"; "qux"] allowed_gaps = Some ([], []) /\
  @merge_one_ mean_prob (Transcript.mk old_words 0) new_words
  = Some (Transcript.mk (old_words ++ new_words) 0, []).
Proof.
  apply (@no_overlap_appends mean_prob
           (Transcript.mk [plain_word "foo"; plain_word "bar"] 0)
           [plain_word "baz"; plain_word "qux"]).
  - reflexivity.
  - apply (bool_decide_unpack _). vm_compute. exact I.
Defined.

(** ** Anchors are firm *)

(** C9: [merge_one_] returns on every transcript and update, and every
    [MATCHED_WORD(a, b)] of its plan names, through the offset vectors,
    in-range indices of an old and a new entry that are neither segments
    nor punctuation and have the same non-empty comparable form. *)
Theorem matched_words_are_firm_anchors `{WordProb}
    (tr : Transcript.t) (new_words : list Word) :
  exists tr' ops,
    merge_one_ tr new_words = Some (tr', ops) /\
    forall a b, MATCHED_WORD a b ∈ ops ->
                matched_ok (Transcript.get_words_splice tr) new_words a b.
Proof.
  destruct (merge_one_cases tr new_words)
    as [[_ Hrun]|(_ & IA & IB & _ & _ & [[_ Hrun]|(_ & ops & _ & Hops & Hrun)])].
  - eexists _, _. split; [exact Hrun|]. intros a b Hin. inversion Hin.
  - eexists _, _. split; [exact Hrun|]. intros a b Hin. inversion Hin.
  - eexists _, _. split; [exact Hrun|]. intros a b Hin.
    rewrite Forall_forall in Hops. exact (Hops _ Hin).
Qed.

(** ** Rule 0.1: two segments that coincide *)

(** When both cursors are in range and stand on segments, the step pushes
    [MERGE_SEGMENTS] and, since rule 0.1 neither advances nor leaves the
    loop body, falls through to rule 1.2, which pushes a [CONFLICT] on the
    same pair and advances both cursors. *)
Lemma walk_step_two_segments old_words new_words nextA nextB curA curB :
  curA <> nextA -> curB <> nextB ->
  is_segment (word_at old_words curA) = true ->
  is_segment (word_at new_words curB) = true ->
  walk_step old_words new_words nextA nextB curA curB
  = ([MERGE_SEGMENTS curA curB; CONFLICT curA curB], curA + 1, curB + 1).
Proof.
  intros HA HB HsA HsB. unfold walk_step, word_rules. rewrite HsA, HsB.
  destruct (Z.eqb_spec curA nextA); [contradiction|].
  destruct (Z.eqb_spec curB nextB); [contradiction|]. simpl.
  destruct (word_at old_words curA); [discriminate|]. reflexivity.
Qed.

(** C2: on OLD = ["a"; segment; "b"] and NEW = ["a"; segment; "b"] the
    walk between the anchors stands on two segments at [(1, 1)]; that one
    step pushes two operations, [MERGE_SEGMENTS(1, 1)] and [CONFLICT(1, 1)],
    and the plan of the merge holds both. *)
Theorem segment_coincidence_pushes_two_operations :
  let old_words := [plain_word "a"; plain_segment 1000; plain_word "b"] in
  let new_words := [plain_word "a"; plain_segment 1200; plain_word "b"] in
  walk_step old_words new_words 2 2 1 1
  = ([MERGE_SEGMENTS 1 1; CONFLICT 1 1], 2, 2) /\
  snd <$> @merge_one_ mean_prob (Transcript.mk old_words 0) new_words
  = Some [MATCHED_WORD 0 0; MERGE_SEGMENTS 1 1; CONFLICT 1 1; MATCHED_WORD 2 2].
Proof. split; vm_compute; reflexivity. Qed.

(** ** Words without tokens *)

(** The punctuation branch flushes the word in progress without looking
    at it: with no token in progress it pushes a word without tokens. *)
Lemma deserialize_token_punct `{TokenRules} msg i st prob :
  is_special_token (token_texts msg) i = false ->
  my_ispunct (token_texts msg) i = true ->
  word_wip st = [] ->
  vat (token_probs msg) i = Some prob ->
  deserialize_token msg i st
  = Some (mkDeser (out_words st
                   ++ [TextWord [] false 1;
                       TextWord [mkToken (vget EmptyString (token_texts msg) i) prob]
                                true 1])
                  [] (segment_ptr st),
          i + 1).
Proof.
  intros Hs Hp Hw Hprob. unfold deserialize_token. rewrite Hs, Hp, Hw, Hprob. reflexivity.
Qed.

(** C8: the message whose only token is a comma deserializes to two
    words, and the first of them has an empty token list (the other
    branches that flush the word in progress check that it is not empty;
    the punctuation branch does not). *)
Theorem punctuation_flushes_empty_word :
  let msg := mkTokens 0 [","] [(9 # 10)%Q] [] [] [] in
  @deserialize_msg_ plain_rules msg
  = Some [TextWord [] false 1; TextWord [mkToken "," (9 # 10)] true 1].
Proof. vm_compute. reflexivity. Qed.

(** ** Cancellation while no data arrives *)

(** At the head of the outer loop a pending cancellation ends the
    handler in one step. *)
Lemma cancel_observed_at_loop_head (q : list (list Word)) (s : Handler.state) :
  Handler.at_ s = Handler.LoopHead ->
  Handler.at_ (Handler.step (Handler.mkEnv true false true q) s)
  = Handler.Finished Handler.Cancelled.
Proof. intros Hs. unfold Handler.step. rewrite Hs. reflexivity. Qed.

(** C10: once the handler has entered the loop that waits for data, it
    stays there for as long as the ring is empty, whatever the observations
    say about cancellation, deadline and shutdown: the checks sit at the
    head of the outer loop only, and each round of the wait loop just sleeps
    15 ms. *)
Theorem cancel_unobserved_while_waiting
    (n : nat) (batch : Z) (sent : list string) (slept : Z) :
  let cancelled := Handler.mkEnv false true true [] in
  Handler.run (replicate n cancelled)
    (Handler.mkState Handler.WaitForData batch sent slept)
  = Handler.mkState Handler.WaitForData batch sent
      (slept + Z.of_nat n * Handler.poll_interval_ms).
Proof.
  revert slept. induction n as [|n IH]; intros slept.
  - simpl. f_equal. lia.
  - cbn [replicate Handler.run fold_left]. unfold Handler.step at 2. simpl.
    fold (Handler.run (replicate n (Handler.mkEnv false true true []))).
    unfold Handler.run in IH |- *. rewrite IH. f_equal. lia.
Qed.

(** ** Merging the same update twice *)


(** The transcript ends with the entries of the update, counters apart,
    and they lie behind the stale boundary. *)
Definition ends_with_update (tr : Transcript.t) (update : list Word) : Prop :=
  exists pre tail,
    Transcript.entries tr = pre ++ tail /\
    map erase tail = map erase update /\
    Transcript.stale_word_id tr <= Z.of_nat (length pre).

Section DuplicateUpdate.
Context `{WordProb}.



End DuplicateUpdate.



(** The condition is met beyond the two cases of an append: after the
    update has extended the transcript, the transcript ends with it, and
    the second merge leaves the text as it is. *)
Example duplicate_update_after_extension :
  let tr := Transcript.mk [plain_word "the"; plain_word " quick"] 0 in
  let update := [plain_word "the"; plain_word " quick"; plain_word " brown";
                 plain_word " fox"] in
  exists tr1 ops1 tr2 ops2,
    @merge_one_ mean_prob tr update = Some (tr1, ops1) /\
    ends_with_update tr1 update /\
    @merge_one_ mean_prob tr1 update = Some (tr2, ops2) /\
    map get (Transcript.entries tr1) = ["the"; " quick"; " brown"; " fox"] /\
    map get (Transcript.entries tr2) = ["the"; " quick"; " brown"; " fox"].
Proof.
  eexists _, _, _, _. split; [vm_compute; reflexivity|]. split.
  - eexists [], _. split; [reflexivity|]. split; [reflexivity|]. simpl. lia.
  - split; [vm_compute; reflexivity|]. split; reflexivity.
Qed.

(** * Further properties *)

(** ** The aligner: gaps, bounds and overlap *)

Section LcsMore.
Variables (textA textB : list string) (G : Z).
Local Abbreviation nA := (Z.of_nat (length textA)).
Local Abbreviation nB := (Z.of_nat (length textB)).
Local Abbreviation len := DPEntry.length.

(** The gap counter of a cell stays within the budget, and it bounds how
    far the cell lies from the match its [prev] pointer names. *)
Definition gapv (a b : Z) (v : cellval) : Prop :=
  0 <= DPEntry.gaps v.1 <= Z.max G 0 /\
  (0 < len v.1 ->
   a - 1 - v.2.1 <= DPEntry.gaps v.1 /\ b - 1 - v.2.2 <= DPEntry.gaps v.1).

Lemma gapv_init a b : gapv a b cell_init.
Proof. unfold gapv, cell_init, dp_init. simpl. lia. Qed.

Lemma gapv_relax sa sb a b src cur :
  gapv sa sb src -> gapv a b cur -> 0 <= len cur.1 ->
  a <= sa + 1 -> b <= sb + 1 ->
  gapv a b (relax_val G src cur).
Proof.
  intros (Hg & Hd) Hcur H0 Ha Hb. unfold relax_val.
  destruct (Z.ltb_spec (DPEntry.gaps src.1) G); simpl; [|exact Hcur].
  destruct (Z.ltb_spec (len cur.1) (len src.1)); [|exact Hcur].
  unfold gapv. simpl. split; [lia|]. intros _.
  destruct Hd as [HdA HdB]; lia.
Qed.

Lemma cells_gap i j s :
  table_ok textA textB G i j s ->
  forall a b, 0 <= a <= nA -> 0 <= b <= nB -> gapv a b (cell s a b).
Proof.
  intros Hok a b. remember (Z.to_nat (a + b)) as n eqn:Hn.
  revert a b Hn. induction n as [n IH] using lt_wf_ind. intros a b Hn Ha Hb.
  destruct (Hok a b Ha Hb) as [Hrec Hinit].
  destruct (classic_filled textA textB i j a b) as [Hf|Hf].
  2:{ rewrite (Hinit Hf). apply gapv_init. }
  rewrite (Hrec Hf). destruct Hf as (Ha1 & Hb1 & _).
  assert (Hup : gapv (a - 1) b (cell s (a - 1) b))
    by (apply (IH (Z.to_nat (a - 1 + b))); lia).
  assert (Hleft : gapv a (b - 1) (cell s a (b - 1)))
    by (apply (IH (Z.to_nat (a + (b - 1)))); lia).
  assert (Hdiag : gapv (a - 1) (b - 1) (cell s (a - 1) (b - 1)))
    by (apply (IH (Z.to_nat (a - 1 + (b - 1)))); lia).
  pose proof (cells_good textA textB G i j s Hok) as Hgood.
  pose proof (Hgood (a - 1) b ltac:(lia) ltac:(lia)) as Gup.
  pose proof (Hgood a (b - 1) ltac:(lia) ltac:(lia)) as Gleft.
  unfold rule_val. destruct (String.eqb _ _).
  - unfold gapv. simpl. lia.
  - set (v1 := relax_val G (cell s (a - 1) b) cell_init).
    set (v2 := relax_val G (cell s a (b - 1)) v1).
    assert (G1 : goodv textA textB s a b v1).
    { apply (goodv_relax textA textB G s (a - 1) b); [exact Gup| |lia|lia].
      apply goodv_init; lia. }
    assert (G2 : goodv textA textB s a b v2).
    { apply (goodv_relax textA textB G s a (b - 1)); [exact Gleft|exact G1|lia|lia]. }
    apply (gapv_relax (a - 1) (b - 1)); [exact Hdiag| |apply G2|lia|lia].
    apply (gapv_relax a (b - 1)); [exact Hleft| |apply G1|lia|lia].
    apply (gapv_relax (a - 1) b); [exact Hup|apply gapv_init|simpl; lia|lia|lia].
Qed.

(** The accumulators of the backtracking loop only grow at the end. *)
Lemma backtrack_acc s :
  forall fuel eA eB rA rB,
    backtrack fuel s eA eB rA rB
    = (fun r => (rA ++ r.1, rB ++ r.2)) <$> backtrack fuel s eA eB [] [].
Proof.
  induction fuel as [|fuel IH]; intros eA eB rA rB; simpl;
    destruct (negb (eA =? -1) && negb (eB =? -1)); simpl;
    try reflexivity; try (rewrite !app_nil_r; reflexivity).
  destruct (prev_at s eA eB) as [eA' eB'].
  rewrite (IH eA' eB' (rA ++ [eA]) (rB ++ [eB])), (IH eA' eB' [eA] [eB]).
  destruct (backtrack fuel s eA' eB' [] []) as [[la lb]|]; simpl; [|reflexivity].
  rewrite <- !app_assoc. reflexivity.
Qed.

(** Each pair the loop collects is the [prev] pointer of the pair
    collected before it. *)
Lemma backtrack_prev_chain s :
  forall fuel eA eB la lb,
    backtrack fuel s eA eB [] [] = Some (la, lb) ->
    length la = length lb /\
    forall (k : nat) x y x' y',
      la !! k = Some x -> lb !! k = Some y ->
      la !! S k = Some x' -> lb !! S k = Some y' ->
      prev_at s x y = (x', y').
Proof.
  induction fuel as [|fuel IH]; intros eA eB la lb Hrun; simpl in Hrun;
    destruct (negb (eA =? -1) && negb (eB =? -1)); try discriminate;
    try (injection Hrun as <- <-; split; [reflexivity|intros k; intros; discriminate]).
  destruct (prev_at s eA eB) as [eA' eB'] eqn:Hprev.
  rewrite backtrack_acc in Hrun.
  destruct (backtrack fuel s eA' eB' [] []) as [[la' lb']|] eqn:Hrec; [|discriminate].
  simpl in Hrun. injection Hrun as <- <-.
  destruct (IH _ _ _ _ Hrec) as [Hlen Hchain]. split; [simpl; congruence|].
  intros [|k] x y x' y' Hx Hy Hx' Hy'; simpl in *.
  - injection Hx as <-. injection Hy as <-.
    destruct la' as [|a la'], lb' as [|b lb']; try discriminate.
    simpl in Hx', Hy'. injection Hx' as <-. injection Hy' as <-.
    destruct fuel as [|fuel']; simpl in Hrec;
      destruct (negb (eA' =? -1) && negb (eB' =? -1)); try discriminate.
    destruct (prev_at s eA' eB') as [u v].
    rewrite backtrack_acc in Hrec.
    destruct (backtrack fuel' s u v [] []) as [[l1 l2]|]; [|discriminate].
    simpl in Hrec. injection Hrec as -> _ -> _. exact Hprev.
  - eapply Hchain; eassumption.
Qed.

(** What a returned alignment is: nothing when the table records no
    match, the reversed backtracking path otherwise. *)
Lemma lcs_indicies_unfold IA IB :
  lcs_indicies_ textA textB G = Some (IA, IB) ->
  (IA = [] /\ IB = []) \/
  exists la lb eA eB,
    backtrack (S (length textA)) (lcs_fill textA textB G) eA eB [] [] = Some (la, lb) /\
    IA = reverse la /\ IB = reverse lb.
Proof.
  unfold lcs_indicies_. destruct (maxLength _ =? 0).
  - intros Hr. injection Hr as <- <-. left. split; reflexivity.
  - destruct (prev_at _ _ _) as [eA eB].
    destruct (backtrack _ _ eA eB [] []) as [[la lb]|] eqn:Hb; [|discriminate].
    intros Hr. injection Hr as <- <-. right. exists la, lb, eA, eB.
    split; [exact Hb|]. split; reflexivity.
Qed.

(** Consecutive anchors are linked by [prev] pointers. *)
Lemma lcs_prev_chain IA IB (k : nat) a b a2 b2 :
  lcs_indicies_ textA textB G = Some (IA, IB) ->
  IA !! k = Some a -> IB !! k = Some b ->
  IA !! S k = Some a2 -> IB !! S k = Some b2 ->
  prev_at (lcs_fill textA textB G) a2 b2 = (a, b).
Proof.
  intros Hrun Ha Hb Ha2 Hb2.
  destruct (lcs_indicies_unfold IA IB Hrun) as [[-> _]|(la & lb & eA & eB & Hbt & -> & ->)];
    [discriminate|].
  destruct (backtrack_prev_chain _ _ _ _ _ _ Hbt) as [Hlen Hchain].
  assert (HkA : (S k < length la)%nat)
    by (rewrite <- (length_reverse la); eapply lookup_lt_Some; eassumption).
  rewrite reverse_lookup in Ha, Ha2 by lia.
  rewrite reverse_lookup in Hb, Hb2 by lia.
  rewrite <- Hlen in Hb, Hb2.
  apply (Hchain (length la - S (S k))%nat); try assumption.
  - replace (S (length la - S (S k))) with (length la - S k)%nat by lia. exact Ha.
  - replace (S (length la - S (S k))) with (length la - S k)%nat by lia. exact Hb.
Qed.

Lemma lcs_gap_step IA IB (k : nat) a b a2 b2 :
  lcs_indicies_ textA textB G = Some (IA, IB) ->
  IA !! k = Some a -> IB !! k = Some b ->
  IA !! S k = Some a2 -> IB !! S k = Some b2 ->
  a < a2 <= a + Z.max G 0 + 1 /\ b < b2 <= b + Z.max G 0 + 1.
Proof.
  intros Hrun Ha Hb Ha2 Hb2.
  pose proof (lcs_prev_chain IA IB k a b a2 b2 Hrun Ha Hb Ha2 Hb2) as Hprev.
  destruct (lcs_total textA textB G) as (IA' & IB' & Hrun' & (_ & Hm & HascA & HascB) & _).
  rewrite Hrun in Hrun'. injection Hrun' as <- <-.
  destruct (Hm _ _ _ Ha Hb) as (Ha0 & Hb0 & _).
  destruct (Hm _ _ _ Ha2 Hb2) as (Ha20 & Hb20 & str & HA & HB).
  apply lookup_lt_Some in HA, HB.
  pose proof (HascA k (S k) a a2 ltac:(lia) Ha Ha2).
  pose proof (HascB k (S k) b b2 ltac:(lia) Hb Hb2).
  destruct (fill_inv_final textA textB G) as (_ & Hok & _).
  pose proof (cells_good textA textB G _ _ _ Hok a2 b2 ltac:(lia) ltac:(lia))
    as (HL0 & _ & _ & Hz & _).
  pose proof (cells_gap _ _ _ Hok a2 b2 ltac:(lia) ltac:(lia)) as (Hg & Hd).
  unfold cell in *. simpl in *. rewrite Hprev in *. simpl in *.
  assert (Hpos : 0 < len (dp_at (lcs_fill textA textB G) a2 b2)).
  { destruct (decide (len (dp_at (lcs_fill textA textB G) a2 b2) = 0)) as [E|E]; [|lia].
    specialize (Hz E). unfold prev_init in Hz. injection Hz as -> ->. lia. }
  destruct (Hd Hpos). lia.
Qed.
End LcsMore.

(** X1: the gap budget bounds the distance between consecutive anchors:
    on either side, the next anchor lies at most [max(G, 0) + 1] positions
    after the previous one. *)
Theorem lcs_gap_tolerance (A B : list string) (G : Z) :
  exists IA IB,
    lcs_indicies_ A B G = Some (IA, IB) /\
    forall (k : nat) a b a2 b2,
      IA !! k = Some a -> IB !! k = Some b ->
      IA !! S k = Some a2 -> IB !! S k = Some b2 ->
      a2 - a <= Z.max G 0 + 1 /\ b2 - b <= Z.max G 0 + 1.
Proof.
  destruct (lcs_total A B G) as (IA & IB & Hrun & _).
  exists IA, IB. split; [exact Hrun|]. intros k a b a2 b2 Ha Hb Ha2 Hb2.
  pose proof (lcs_gap_step A B G IA IB k a b a2 b2 Hrun Ha Hb Ha2 Hb2). lia.
Qed.

(** X2: with a gap budget of zero (or less) the aligner returns a common
    contiguous run: each anchor is the successor of the previous one on
    both sides. *)
Theorem lcs_zero_budget_contiguous (A B : list string) (G : Z) :
  G <= 0 ->
  exists IA IB,
    lcs_indicies_ A B G = Some (IA, IB) /\
    forall (k : nat) a b,
      IA !! k = Some a -> IB !! k = Some b ->
      (S k < length IA)%nat ->
      IA !! S k = Some (a + 1) /\ IB !! S k = Some (b + 1).
Proof.
  intros HG. destruct (lcs_total A B G) as (IA & IB & Hrun & (Hlen & _) & _).
  exists IA, IB. split; [exact Hrun|]. intros k a b Ha Hb Hk.
  destruct (lookup_lt_is_Some_2 IA (S k) Hk) as [a2 Ha2].
  destruct (lookup_lt_is_Some_2 IB (S k) ltac:(lia)) as [b2 Hb2].
  pose proof (lcs_gap_step A B G IA IB k a b a2 b2 Hrun Ha Hb Ha2 Hb2).
  rewrite Ha2, Hb2. split; f_equal; lia.
Qed.

Lemma lcs_zero_budget_contiguous_witness :
  exists IA IB,
    lcs_indicies_ ["x"; "the"; "quick"; "fox"] ["the"; "quick"; "y"; "fox"] 0
    = Some (IA, IB) /\
    forall (k : nat) a b,
      IA !! k = Some a -> IB !! k = Some b ->
      (S k < length IA)%nat ->
      IA !! S k = Some (a + 1) /\ IB !! S k = Some (b + 1).
Proof.
  apply (lcs_zero_budget_contiguous
           ["x"; "the"; "quick"; "fox"] ["the"; "quick"; "y"; "fox"] 0).
  lia.
Defined.

(** X3: the aligner returns empty lists exactly when the two sequences
    have no string in common. *)
Theorem lcs_empty_iff_disjoint (A B : list string) (G : Z) :
  exists IA IB,
    lcs_indicies_ A B G = Some (IA, IB) /\
    (IA = [] <-> Forall (fun str => str ∉ B) A) /\
    (IB = [] <-> IA = []).
Proof.
  destruct (lcs_total A B G) as (IA & IB & Hrun & (Hlen & Hm & _) & Hmax).
  exists IA, IB. split; [exact Hrun|]. split; [split|].
  - intros ->. apply Forall_forall. intros str HinA HinB.
    apply list_elem_of_lookup in HinA as [i Hi]. apply list_elem_of_lookup in HinB as [j Hj].
    destruct (fill_inv_final A B G) as (_ & Hok & _).
    destruct (lcs_fill_max A B G) as [Hle _].
    pose proof (lookup_lt_Some _ _ _ Hi) as HiA. pose proof (lookup_lt_Some _ _ _ Hj) as HjB.
    set (a := Z.of_nat i + 1). set (b := Z.of_nat j + 1).
    destruct (Hok a b ltac:(lia) ltac:(lia)) as [Hrec _].
    assert (Hf : filled A B (1 + Z.of_nat (length A)) 1 a b)
      by (unfold filled, before; lia).
    specialize (Hrec Hf). unfold recurrence, rule_val in Hrec.
    rewrite (vget_lookup EmptyString A (a - 1) str) in Hrec
      by (try lia; replace (Z.to_nat (a - 1)) with i by lia; exact Hi).
    rewrite (vget_lookup EmptyString B (b - 1) str) in Hrec
      by (try lia; replace (Z.to_nat (b - 1)) with j by lia; exact Hj).
    rewrite String.eqb_refl in Hrec.
    pose proof (cells_good A B G _ _ _ Hok (a - 1) (b - 1) ltac:(lia) ltac:(lia))
      as (Hd0 & _).
    specialize (Hle a b ltac:(lia) ltac:(lia)).
    unfold cell in Hrec. injection Hrec as Hdp _. rewrite Hdp in Hle.
    simpl in *. lia.
  - intros Hdisj. destruct IA as [|a IA']; [reflexivity|]. exfalso.
    destruct IB as [|b IB']; [discriminate|].
    destruct (Hm 0%nat a b eq_refl eq_refl) as (_ & _ & str & HA & HB).
    rewrite Forall_forall in Hdisj. apply (Hdisj str).
    + eapply list_elem_of_lookup_2; exact HA.
    + eapply list_elem_of_lookup_2; exact HB.
  - split; intros ->; [destruct IA|destruct IB]; try reflexivity; discriminate.
Qed.

(** X4: an alignment is never longer than the shorter of the two
    sequences. *)
Theorem lcs_length_bound (A B : list string) (G : Z) :
  exists IA IB,
    lcs_indicies_ A B G = Some (IA, IB) /\
    (length IA <= length A)%nat /\ (length IA <= length B)%nat /\
    length IB = length IA.
Proof.
  destruct (lcs_total A B G) as (IA & IB & Hrun & (Hlen & _) & Hmax).
  exists IA, IB. split; [exact Hrun|].
  destruct (lcs_fill_max A B G) as [_ (i & j & Hi & Hj & Hl)].
  destruct (fill_inv_final A B G) as (_ & Hok & _).
  pose proof (cells_good A B G _ _ _ Hok i j Hi Hj) as (_ & HA & HB & _).
  simpl in HA, HB. split; [lia|]. split; [lia|]. congruence.
Qed.

(** X5: aligning a sequence with itself pairs every index with itself,
    whatever the gap budget. *)
Theorem lcs_self_identity (A : list string) (G : Z) :
  lcs_indicies_ A A G
  = Some (seqZ 0 (Z.of_nat (length A)), seqZ 0 (Z.of_nat (length A))).
Proof. apply lcs_self. Qed.

(** ** The plan of a merge: what it names, in what order *)

(** The old index an operation names. *)
Definition a_of (op : EditOperation) : Z :=
  match op with
  | MATCHED_WORD a _ | INSERT a _ | DECREMENT a | CONFLICT a _ | MERGE_SEGMENTS a _ => a
  end.

(** The index of the update an operation names, if it names one. *)
Definition b_of (op : EditOperation) : option Z :=
  match op with
  | DECREMENT _ => None
  | MATCHED_WORD _ b | INSERT _ b | CONFLICT _ b | MERGE_SEGMENTS _ b => Some b
  end.

Definition is_insert (op : EditOperation) : bool :=
  match op with INSERT _ _ => true | _ => false end.

Definition is_matched (op : EditOperation) : bool :=
  match op with MATCHED_WORD _ _ => true | _ => false end.

(** The word of the update an operation uses up: a match, an insertion
    or a conflict takes one word of the update. *)
Definition consumes_new (op : EditOperation) : option Z :=
  match op with
  | MATCHED_WORD _ b | INSERT _ b | CONFLICT _ b => Some b
  | DECREMENT _ | MERGE_SEGMENTS _ _ => None
  end.

Definition count_matched (ops : list EditOperation) : nat :=
  length (filter (fun op => is_matched op = true) ops).

(** The operations [ops] deal with the old words [lA .. hA) and the words
    [lB .. hB) of the update: they name no other index, name the old
    indices in ascending order, touch every old word of the range, and use
    up every word of the update in the range once, in order. *)
Definition covers (lA lB hA hB : Z) (ops : list EditOperation) : Prop :=
  Forall (fun op => lA <= a_of op <= hA /\
                    (is_insert op = false -> a_of op < hA) /\
                    (forall b, b_of op = Some b -> lB <= b < hB)) ops /\
  (forall (i j : nat) x y, (i <= j)%nat -> ops !! i = Some x -> ops !! j = Some y ->
                           a_of x <= a_of y) /\
  (forall a, lA <= a < hA -> Exists (fun op => is_insert op = false /\ a_of op = a) ops) /\
  omap consumes_new ops = seqZ lB (hB - lB).

Lemma covers_nil lA lB : covers lA lB lA lB [].
Proof.
  split; [constructor|]. split; [intros i j x y _ Hx; discriminate|].
  split; [intros a Ha; lia|]. rewrite Z.sub_diag. reflexivity.
Qed.

Lemma covers_app lA lB mA mB hA hB o1 o2 :
  lA <= mA <= hA -> lB <= mB <= hB ->
  covers lA lB mA mB o1 -> covers mA mB hA hB o2 ->
  covers lA lB hA hB (o1 ++ o2).
Proof.
  intros HA HB (Hb1 & Hs1 & Ho1 & Hn1) (Hb2 & Hs2 & Ho2 & Hn2).
  split; [|split; [|split]].
  - apply Forall_app. split.
    + eapply Forall_impl; [exact Hb1|]. intros op (H1 & H2 & H3).
      split; [lia|]. split; [intros Hi; specialize (H2 Hi); lia|].
      intros b Hb. specialize (H3 b Hb). lia.
    + eapply Forall_impl; [exact Hb2|]. intros op (H1 & H2 & H3).
      split; [lia|]. split; [exact H2|].
      intros b Hb. specialize (H3 b Hb). lia.
  - intros i j x y Hij Hx Hy.
    apply lookup_app_Some in Hx as [Hx|[Hgi Hx]];
      apply lookup_app_Some in Hy as [Hy|[Hgj Hy]].
    + eapply Hs1; eassumption.
    + rewrite Forall_forall in Hb1, Hb2.
      destruct (Hb1 x (list_elem_of_lookup_2 _ _ _ Hx)) as (H1 & _).
      destruct (Hb2 y (list_elem_of_lookup_2 _ _ _ Hy)) as (H2 & _). lia.
    + apply lookup_lt_Some in Hy. lia.
    + eapply (Hs2 (i - length o1)%nat (j - length o1)%nat); [lia|eassumption..].
  - intros a Ha. apply Exists_app.
    destruct (decide (a < mA)); [left; apply Ho1; lia|right; apply Ho2; lia].
  - rewrite omap_app, Hn1, Hn2.
    replace (hB - lB) with ((mB - lB) + (hB - mB)) by lia.
    rewrite seqZ_app by lia. do 2 f_equal. lia.
Qed.

(** One step of the walk deals with the entries its cursors pass. *)
Lemma walk_step_covers old_words new_words nextA nextB cA cB :
  cA <= nextA -> cB <= nextB -> cA <> nextA \/ cB <> nextB ->
  let '(ops, cA', cB') := walk_step old_words new_words nextA nextB cA cB in
  covers cA cB cA' cB' ops /\ Forall not_matched ops /\
  cA <= cA' <= nextA /\ cB <= cB' <= nextB /\
  (walk_measure nextA nextB cA' cB' < walk_measure nextA nextB cA cB)%nat.
Proof.
  intros HA HB Hne. unfold walk_step, word_rules, walk_measure, covers.
  destruct (Z.eqb_spec cA nextA), (Z.eqb_spec cB nextB); simpl; try lia;
    repeat match goal with
           | |- context [if ?b then _ else _] => destruct b; simpl
           end;
    (split; [|split; [repeat constructor|lia]]);
    (split; [repeat (once constructor); simpl; try lia; intros; simpl in *;
             simplify_eq; lia|]);
    (split; [intros [|[|[|[|i]]]] [|[|[|[|j]]]] x y Hij Hx Hy; simpl in *;
             simplify_eq; simpl; lia|]);
    (split; [intros a Ha; try lia; assert (a = cA) as -> by lia;
             first [apply Exists_cons_hd; split; reflexivity
                   |apply Exists_cons_tl, Exists_cons_hd; split; reflexivity]
            |]);
    try (replace (cB + 1 - cB) with 1 by lia); try rewrite Z.sub_diag; reflexivity.
Qed.

(** The accumulator of the walk only grows at the end. *)
Lemma walk_acc old_words new_words nextA nextB :
  forall fuel cA cB ops0,
    walk fuel old_words new_words nextA nextB cA cB ops0
    = (app ops0) <$> walk fuel old_words new_words nextA nextB cA cB [].
Proof.
  induction fuel as [|fuel IH]; intros cA cB ops0; simpl;
    destruct (negb (cA =? nextA) || negb (cB =? nextB)); simpl;
    try reflexivity; try (rewrite app_nil_r; reflexivity).
  destruct (walk_step old_words new_words nextA nextB cA cB) as [[ops a'] b'].
  rewrite (IH a' b' (ops0 ++ ops)), (IH a' b' ops).
  destruct (walk fuel old_words new_words nextA nextB a' b' []) as [W|]; simpl;
    [|reflexivity].
  rewrite <- app_assoc. reflexivity.
Qed.

(** A walk deals with every entry between its start and its bounds. *)
Lemma walk_covers old_words new_words nextA nextB :
  forall fuel cA cB,
    cA <= nextA -> cB <= nextB ->
    (nextA - cA) + (nextB - cB) <= Z.of_nat fuel ->
    exists W,
      walk fuel old_words new_words nextA nextB cA cB [] = Some W /\
      covers cA cB nextA nextB W /\ Forall not_matched W.
Proof.
  induction fuel as [|fuel IH]; intros cA cB HA HB Hfuel.
  - assert (cA = nextA /\ cB = nextB) as [-> ->] by lia. simpl.
    rewrite !Z.eqb_refl. simpl. exists []. split; [reflexivity|].
    split; [apply covers_nil|constructor].
  - simpl. destruct (Z.eqb_spec cA nextA) as [->|HneA];
      destruct (Z.eqb_spec cB nextB) as [->|HneB]; simpl.
    1:{ exists []. split; [reflexivity|]. split; [apply covers_nil|constructor]. }
    all: match goal with
         | |- context [walk_step ?o ?n ?nA ?nB ?a ?b] =>
             pose proof (walk_step_covers o n nA nB a b HA HB ltac:(lia)) as Hs;
             destruct (walk_step o n nA nB a b) as [[ops a'] b']
         end;
      destruct Hs as (Hcov & Hnm & HA' & HB' & Hmu);
      unfold walk_measure in Hmu;
      destruct (IH a' b' ltac:(lia) ltac:(lia) ltac:(lia)) as (W & Hrun & HcovW & HnmW);
      rewrite walk_acc, Hrun; simpl; exists (ops ++ W);
      (split; [reflexivity|]);
      (split; [eapply covers_app; [| |exact Hcov|exact HcovW]; lia
              |apply Forall_app; split; assumption]).
Qed.

Lemma covers_matched pA pB : covers pA pB (pA + 1) (pB + 1) [MATCHED_WORD pA pB].
Proof.
  split; [|split; [|split]].
  - repeat (once constructor); simpl; try lia; intros; simpl in *; simplify_eq; lia.
  - intros [|i] [|j] x y Hij Hx Hy; simpl in *; simplify_eq; simpl; lia.
  - intros a Ha. assert (a = pA) as -> by lia. apply Exists_cons_hd. split; reflexivity.
  - replace (pB + 1 - pB) with 1 by lia. reflexivity.
Qed.

Lemma count_matched_app o1 o2 :
  count_matched (o1 ++ o2) = (count_matched o1 + count_matched o2)%nat.
Proof. unfold count_matched. rewrite filter_app, length_app. reflexivity. Qed.

Lemma count_matched_none W : Forall not_matched W -> count_matched W = 0%nat.
Proof.
  unfold count_matched. induction 1 as [|op W Hop _ IH]; [reflexivity|].
  rewrite filter_cons_False; [exact IH|]. destruct op; simpl in *; congruence.
Qed.

(** The plan of a non-empty alignment deals with every old word and every
    word of the update from the first anchor on, and holds one
    [MATCHED_WORD] per anchor. *)
Lemma plan_ops_covers old_words new_words IA IB :
  let pold := comparable_projection old_words in
  let pnew := comparable_projection new_words in
  anchors_ok (comp_words pold) (comp_words pnew) IA IB ->
  IA <> [] ->
  exists ops,
    plan_ops old_words new_words (skipped_ids pold) (skipped_ids pnew) IA IB = Some ops /\
    covers (abs_index pold (vget 0 IA 0)) (abs_index pnew (vget 0 IB 0))
           (Z.of_nat (length old_words)) (Z.of_nat (length new_words)) ops /\
    count_matched ops = length IA.
Proof.
  intros pold pnew Hok Hne. unfold plan_ops.
  set (skA := skipped_ids pold). set (skB := skipped_ids pnew).
  set (body := anchor_step old_words new_words skA skB IA IB).
  set (n := Z.of_nat (length IA)).
  assert (Hn : 1 <= n) by (destruct IA; [contradiction|subst n; simpl; lia]).
  set (A0 := abs_index pold (vget 0 IA 0)). set (B0 := abs_index pnew (vget 0 IB 0)).
  set (pos := fun i : Z =>
                if i <=? n
                then (abs_index pold (vget 0 IA (i - 1)), abs_index pnew (vget 0 IB (i - 1)))
                else (Z.of_nat (length old_words), Z.of_nat (length new_words))).
  assert (Hnext : forall i, 1 <= i <= n ->
                    next_ids old_words new_words skA skB IA IB i = pos (i + 1)).
  { intros i Hi. unfold next_ids, pos. fold n.
    destruct (Z.eqb_spec i n), (Z.leb_spec (i + 1) n); try lia; [reflexivity|].
    replace (i + 1 - 1) with i by lia. reflexivity. }
  assert (Hloop :
    (fun i st => exists ps, st = Some ps /\
                   prevA ps = vget 0 IA (i - 1) /\ prevB ps = vget 0 IB (i - 1) /\
                   A0 <= (pos i).1 /\ B0 <= (pos i).2 /\
                   covers A0 B0 (pos i).1 (pos i).2 (pending_ops ps) /\
                   count_matched (pending_ops ps) = Z.to_nat (i - 1))
      (1 + Z.of_nat (length IA))
      (for_loop (length IA) 1 body (Some (mkPlan (vget 0 IA 0) (vget 0 IB 0) [])))).
  { apply for_loop_ind.
    - eexists. split; [reflexivity|]. simpl.
      assert (Hp1 : pos 1 = (A0, B0)).
      { unfold pos. destruct (Z.leb_spec 1 n); [reflexivity|lia]. }
      rewrite Hp1. simpl. split; [reflexivity|]. split; [reflexivity|].
      split; [lia|]. split; [lia|]. split; [apply covers_nil|reflexivity].
    - intros i st Hi (ps & -> & HpA & HpB & HA0 & HB0 & Hcov & Hcnt).
      fold n in Hi.
      destruct (anchor_bounds old_words new_words IA IB i Hok ltac:(fold n; lia))
        as (Hm & HbA & HbB).
      fold pold pnew skA skB in Hm, HbA, HbB. rewrite (Hnext i ltac:(lia)) in HbA, HbB.
      assert (Hpi : pos i = (vget 0 IA (i - 1) + vget 0 skA (vget 0 IA (i - 1)),
                             vget 0 IB (i - 1) + vget 0 skB (vget 0 IB (i - 1)))).
      { unfold pos. destruct (Z.leb_spec i n); [reflexivity|lia]. }
      rewrite Hpi in HA0, HB0, Hcov. simpl in HA0, HB0, Hcov.
      set (pA := vget 0 IA (i - 1) + vget 0 skA (vget 0 IA (i - 1))) in *.
      set (pB := vget 0 IB (i - 1) + vget 0 skB (vget 0 IB (i - 1))) in *.
      destruct Hm as (HrA & HrB & _).
      subst body. unfold anchor_step. rewrite HpA, HpB. fold pA pB.
      rewrite (Hnext i ltac:(lia)).
      destruct (pos (i + 1)) as [nA' nB'] eqn:Hpos. simpl in HbA, HbB.
      destruct (walk_covers old_words new_words nA' nB'
                  (length old_words + length new_words) (pA + 1) (pB + 1)
                  ltac:(lia) ltac:(lia) ltac:(lia)) as (W & Hrun & HcovW & HnmW).
      rewrite walk_acc, Hrun. simpl. eexists. split; [reflexivity|]. simpl.
      replace (i + 1 - 1) with i by lia.
      split; [reflexivity|]. split; [reflexivity|].
      split; [lia|]. split; [lia|]. split.
      + eapply (covers_app A0 B0 (pA + 1) (pB + 1)); [lia|lia| |exact HcovW].
        eapply (covers_app A0 B0 pA pB); [lia|lia|exact Hcov|apply covers_matched].
      + rewrite !count_matched_app, Hcnt, (count_matched_none W HnmW).
        assert (count_matched [MATCHED_WORD pA pB] = 1%nat) as -> by reflexivity.
        lia. }
  destruct Hloop as (ps & -> & _ & _ & _ & _ & Hcov & Hcnt).
  exists (pending_ops ps). split; [reflexivity|].
  assert (Hend : pos (1 + Z.of_nat (length IA))
                 = (Z.of_nat (length old_words), Z.of_nat (length new_words))).
  { unfold pos. fold n. destruct (Z.leb_spec (1 + n) n); [lia|reflexivity]. }
  rewrite Hend in Hcov. simpl in Hcov. split; [exact Hcov|].
  rewrite Hcnt. lia.
Qed.

Section PlanExtras.
Context `{WordProb}.

(** A merge that finds an alignment plans operations that deal with
    everything from the first anchor on. *)
Lemma merge_one_planned (tr : Transcript.t) (new_words : list Word) a0 b0 IA IB :
  let old_words := Transcript.get_words_splice tr in
  let pold := comparable_projection old_words in
  let pnew := comparable_projection new_words in
  Transcript.empty tr = false ->
  lcs_indicies_ (comp_words pold) (comp_words pnew) allowed_gaps
    = Some (a0 :: IA, b0 :: IB) ->
  exists tr' ops,
    merge_one_ tr new_words = Some (tr', ops) /\
    covers (abs_index pold a0) (abs_index pnew b0)
           (Z.of_nat (length old_words)) (Z.of_nat (length new_words)) ops /\
    count_matched ops = S (length IA) /\
    0 <= abs_index pold a0 /\ 0 <= abs_index pnew b0.
Proof.
  intros old_words pold pnew Hne Hlcs.
  destruct (merge_one_cases tr new_words)
    as [[He _]|(_ & IA' & IB' & Hlcs' & Hok & Hcase)]; [congruence|].
  fold old_words pold pnew in Hlcs', Hok, Hcase.
  rewrite Hlcs in Hlcs'. injection Hlcs' as <- <-.
  destruct Hcase as [[Hnil _]|(_ & ops & Hplan & _ & Hrun)]; [discriminate|].
  destruct (plan_ops_covers old_words new_words (a0 :: IA) (b0 :: IB) Hok ltac:(discriminate))
    as (ops' & Hplan' & Hcov & Hcnt).
  fold pold pnew in Hplan', Hcov. rewrite Hplan in Hplan'. injection Hplan' as <-.
  eexists _, ops. split; [exact Hrun|]. split; [exact Hcov|]. split; [exact Hcnt|].
  destruct Hok as (_ & Hm & _).
  destruct (anchor_translated old_words new_words a0 b0 (Hm 0%nat a0 b0 eq_refl eq_refl))
    as (_ & _ & HrA & HrB & _).
  fold pold pnew in HrA, HrB. lia.
Qed.

(** Every merge returns either without a plan or with the plan of a
    non-empty alignment. *)
Lemma merge_one_plan_cases (tr : Transcript.t) (new_words : list Word) :
  let old_words := Transcript.get_words_splice tr in
  let pold := comparable_projection old_words in
  let pnew := comparable_projection new_words in
  exists tr' ops,
    merge_one_ tr new_words = Some (tr', ops) /\
    (ops = [] \/
     exists a0 b0 IA IB,
       Transcript.empty tr = false /\
       lcs_indicies_ (comp_words pold) (comp_words pnew) allowed_gaps
         = Some (a0 :: IA, b0 :: IB)).
Proof.
  intros old_words pold pnew.
  destruct (merge_one_cases tr new_words)
    as [[He Hrun]|(Hne & IA & IB & Hlcs & Hok & [[_ Hrun]|(HIA & ops & _ & _ & Hrun)])].
  - eexists _, _. split; [exact Hrun|]. left. reflexivity.
  - eexists _, _. split; [exact Hrun|]. left. reflexivity.
  - eexists _, ops. split; [exact Hrun|]. right.
    destruct IA as [|a0 IA]; [contradiction|].
    destruct IB as [|b0 IB]; [destruct Hok as [Hl _]; discriminate|].
    exists a0, b0, IA, IB. split; [exact Hne|exact Hlcs].
Qed.

(** X6: every operation of a plan names indices that exist: an old index
    within the active tail (an [INSERT] may also name its end) and, if it
    names a word of the update, an index within the update. *)
Theorem plan_indices_in_range (tr : Transcript.t) (new_words : list Word) :
  exists tr' ops,
    merge_one_ tr new_words = Some (tr', ops) /\
    Forall (fun op =>
              0 <= a_of op <= Z.of_nat (length (Transcript.get_words_splice tr)) /\
              (is_insert op = false ->
               a_of op < Z.of_nat (length (Transcript.get_words_splice tr))) /\
              (forall b, b_of op = Some b -> 0 <= b < Z.of_nat (length new_words)))
           ops.
Proof.
  destruct (merge_one_plan_cases tr new_words)
    as (tr' & ops & Hrun & [->|(a0 & b0 & IA & IB & Hne & Hlcs)]).
  - eexists _, _. split; [exact Hrun|constructor].
  - destruct (merge_one_planned tr new_words a0 b0 IA IB Hne Hlcs)
      as (tr2 & ops2 & Hrun2 & (Hb & _) & _ & HA0 & HB0).
    eexists _, _. split; [exact Hrun2|].
    eapply Forall_impl; [exact Hb|]. intros op (H1 & H2 & H3).
    split; [lia|]. split; [exact H2|]. intros b Hbb. specialize (H3 b Hbb). lia.
Qed.

(** X7: the plan leaves everything before the first anchor alone: no
    operation names an old word or a word of the update that precedes the
    first anchor. *)
Theorem plan_skips_before_first_anchor (tr : Transcript.t) (new_words : list Word) :
  let pold := comparable_projection (Transcript.get_words_splice tr) in
  let pnew := comparable_projection new_words in
  exists tr' ops,
    merge_one_ tr new_words = Some (tr', ops) /\
    forall a0 b0 IA IB,
      lcs_indicies_ (comp_words pold) (comp_words pnew) allowed_gaps
        = Some (a0 :: IA, b0 :: IB) ->
      Forall (fun op => abs_index pold a0 <= a_of op /\
                        forall b, b_of op = Some b -> abs_index pnew b0 <= b) ops.
Proof.
  intros pold pnew. subst pold pnew.
  destruct (merge_one_plan_cases tr new_words)
    as (tr' & ops & Hrun & [->|(a0 & b0 & IA & IB & Hne & Hlcs)]).
  - eexists _, _. split; [exact Hrun|]. intros; constructor.
  - destruct (merge_one_planned tr new_words a0 b0 IA IB Hne Hlcs)
      as (tr2 & ops2 & Hrun2 & (Hb & _) & _).
    eexists _, _. split; [exact Hrun2|]. intros a0' b0' IA' IB' Hlcs'.
    rewrite Hlcs in Hlcs'. injection Hlcs' as <- _ <- _.
    eapply Forall_impl; [exact Hb|]. intros op (H1 & _ & H3).
    split; [lia|]. intros b Hbb. specialize (H3 b Hbb). lia.
Qed.

(** X8: the operations of a plan name the old words in ascending order:
    a later operation never names an earlier old index. *)
Theorem plan_old_indices_ascend (tr : Transcript.t) (new_words : list Word) :
  exists tr' ops,
    merge_one_ tr new_words = Some (tr', ops) /\
    forall (i j : nat) x y,
      (i <= j)%nat -> ops !! i = Some x -> ops !! j = Some y -> a_of x <= a_of y.
Proof.
  destruct (merge_one_plan_cases tr new_words)
    as (tr' & ops & Hrun & [->|(a0 & b0 & IA & IB & Hne & Hlcs)]).
  - eexists _, _. split; [exact Hrun|]. intros i j x y _ Hx. discriminate.
  - destruct (merge_one_planned tr new_words a0 b0 IA IB Hne Hlcs)
      as (tr2 & ops2 & Hrun2 & (_ & Hs & _) & _).
    eexists _, _. split; [exact Hrun2|exact Hs].
Qed.

(** X9: when the transcript is not empty and the aligner finds an anchor,
    every old word from the first anchor to the end of the active tail is
    named by an operation other than [INSERT]. *)
Theorem plan_touches_old_tail (tr : Transcript.t) (new_words : list Word) :
  let old_words := Transcript.get_words_splice tr in
  let pold := comparable_projection old_words in
  let pnew := comparable_projection new_words in
  exists tr' ops,
    merge_one_ tr new_words = Some (tr', ops) /\
    forall a0 b0 IA IB a,
      Transcript.empty tr = false ->
      lcs_indicies_ (comp_words pold) (comp_words pnew) allowed_gaps
        = Some (a0 :: IA, b0 :: IB) ->
      abs_index pold a0 <= a < Z.of_nat (length old_words) ->
      Exists (fun op => is_insert op = false /\ a_of op = a) ops.
Proof.
  intros old_words pold pnew. subst old_words pold pnew.
  destruct (merge_one_plan_cases tr new_words)
    as (tr' & ops & Hrun & _).
  exists tr', ops. split; [exact Hrun|]. intros a0 b0 IA IB a Hne Hlcs Ha.
  destruct (merge_one_planned tr new_words a0 b0 IA IB Hne Hlcs)
    as (tr2 & ops2 & Hrun2 & (_ & _ & Ho & _) & _).
  rewrite Hrun in Hrun2. injection Hrun2 as _ <-. apply Ho, Ha.
Qed.

(** X10: when the transcript is not empty and the aligner finds an anchor,
    the words of the update from the first anchor on are used up one by
    one, each by exactly one [MATCHED_WORD], [INSERT] or [CONFLICT], in the
    order of the update. *)
Theorem plan_consumes_update_once (tr : Transcript.t) (new_words : list Word) :
  let pold := comparable_projection (Transcript.get_words_splice tr) in
  let pnew := comparable_projection new_words in
  exists tr' ops,
    merge_one_ tr new_words = Some (tr', ops) /\
    forall a0 b0 IA IB,
      Transcript.empty tr = false ->
      lcs_indicies_ (comp_words pold) (comp_words pnew) allowed_gaps
        = Some (a0 :: IA, b0 :: IB) ->
      omap consumes_new ops
      = seqZ (abs_index pnew b0) (Z.of_nat (length new_words) - abs_index pnew b0).
Proof.
  intros pold pnew. subst pold pnew.
  destruct (merge_one_plan_cases tr new_words)
    as (tr' & ops & Hrun & _).
  exists tr', ops. split; [exact Hrun|]. intros a0 b0 IA IB Hne Hlcs.
  destruct (merge_one_planned tr new_words a0 b0 IA IB Hne Hlcs)
    as (tr2 & ops2 & Hrun2 & (_ & _ & _ & Hn) & _).
  rewrite Hrun in Hrun2. injection Hrun2 as _ <-. exact Hn.
Qed.

(** X11: a plan holds exactly one [MATCHED_WORD] per anchor of the
    alignment. *)
Theorem plan_one_match_per_anchor (tr : Transcript.t) (new_words : list Word) :
  let pold := comparable_projection (Transcript.get_words_splice tr) in
  let pnew := comparable_projection new_words in
  exists tr' ops,
    merge_one_ tr new_words = Some (tr', ops) /\
    forall IA IB,
      Transcript.empty tr = false ->
      lcs_indicies_ (comp_words pold) (comp_words pnew) allowed_gaps = Some (IA, IB) ->
      count_matched ops = length IA.
Proof.
  intros pold pnew. subst pold pnew.
  destruct (merge_one_cases tr new_words)
    as [[He Hrun]|(Hne & IA & IB & Hlcs & Hok & [[-> Hrun]|(HIA & ops & _ & _ & Hrun)])].
  - eexists _, _. split; [exact Hrun|]. congruence.
  - eexists _, _. split; [exact Hrun|]. intros IA' IB' _ Hlcs'.
    rewrite Hlcs in Hlcs'. injection Hlcs' as <- _. reflexivity.
  - eexists _, ops. split; [exact Hrun|]. intros IA' IB' _ Hlcs'.
    rewrite Hlcs in Hlcs'. injection Hlcs' as <- <-.
    destruct IA as [|a0 IA]; [contradiction|].
    destruct IB as [|b0 IB]; [destruct Hok as [Hl _]; discriminate|].
    destruct (merge_one_planned tr new_words a0 b0 IA IB Hne Hlcs)
      as (tr2 & ops2 & Hrun2 & _ & Hcnt & _).
    rewrite Hrun in Hrun2. injection Hrun2 as _ <-. exact Hcnt.
Qed.
End PlanExtras.

(** ** The serializer: what the published message holds *)

Section SerializeExtras.
Context `{WordProb}.

(** The triple the serializer publishes for a text word. *)
Definition entry_word (w : Word) : option (string * Q * Z) :=
  match w with
  | TextWord ts _ n => Some (get w, word_prob ts, n)
  | Segment _ _ => None
  end.

(** The record the serializer publishes for a segment. *)
Definition entry_segment (w : Word) : option SegmentMetaData :=
  match w with
  | Segment sd _ => Some sd
  | TextWord _ _ _ => None
  end.

Lemma serialize_fold (ws : list Word) :
  forall (msg : AudioTranscript) (n : Z),
    let r := fold_left serialize_step ws (msg, n) in
    words r.1 = words msg ++ ((fun t => t.1.1) <$> omap entry_word ws) /\
    probs r.1 = probs msg ++ ((fun t => t.1.2) <$> omap entry_word ws) /\
    occ r.1 = occ msg ++ ((fun t => t.2) <$> omap entry_word ws) /\
    seg_start_time r.1 = seg_start_time msg ++ (start <$> omap entry_segment ws) /\
    seg_duration_ms r.1 = seg_duration_ms msg ++ (duration <$> omap entry_segment ws) /\
    length (seg_start_words_id r.1)
    = (length (seg_start_words_id msg) + length (omap entry_segment ws))%nat.
Proof.
  induction ws as [|w ws IH]; intros msg n; cbn zeta.
  - simpl. rewrite !app_nil_r. repeat split; try reflexivity; lia.
  - cbn [fold_left].
    destruct w as [ts p k|sd k]; cbn [serialize_step];
      match goal with
      | |- context [fold_left serialize_step ws (?m, ?k)] =>
          destruct (IH m k) as (H1 & H2 & H3 & H4 & H5 & H6)
      end;
      rewrite H1, H2, H3, H4, H5, H6; simpl; rewrite <- ?app_assoc, ?length_app;
      simpl; repeat split; try reflexivity; rewrite ?length_app; simpl;
      change (list_omap Word SegmentMetaData entry_segment ws)
        with (omap entry_segment ws); lia.
Qed.

Lemma entry_split_length (ws : list Word) :
  (length (omap entry_word ws) + length (omap entry_segment ws))%nat = length ws.
Proof.
  induction ws as [|w ws IH]; [reflexivity|].
  destruct w; simpl;
    change (list_omap Word SegmentMetaData entry_segment ws) with (omap entry_segment ws);
    change (list_omap Word (string * Q * Z)%type entry_word ws) with (omap entry_word ws);
    lia.
Qed.

(** X12: the message lists the text words of the transcript in order, one
    text, one probability and one occurrence count per word, and the
    segments in order, one start time and one duration per segment;
    segments add nothing to the word arrays and words nothing to the
    segment arrays. *)
Theorem serialize_preserves_order (tr : Transcript.t) (msg : AudioTranscript) :
  let out := serialize_transcript_ tr msg in
  let es := Transcript.entries tr in
  words out = words msg ++ ((fun t => t.1.1) <$> omap entry_word es) /\
  probs out = probs msg ++ ((fun t => t.1.2) <$> omap entry_word es) /\
  occ out = occ msg ++ ((fun t => t.2) <$> omap entry_word es) /\
  seg_start_time out = seg_start_time msg ++ (start <$> omap entry_segment es) /\
  seg_duration_ms out = seg_duration_ms msg ++ (duration <$> omap entry_segment es).
Proof.
  cbn zeta. unfold serialize_transcript_.
  pose proof (serialize_fold (Transcript.entries tr) msg 0) as Hf. cbn zeta in Hf.
  destruct (fold_left serialize_step (Transcript.entries tr) (msg, 0)) as [msg' sk].
  simpl in *. destruct Hf as (H1 & H2 & H3 & H4 & H5 & _).
  repeat split; assumption.
Qed.

(** X13: in a message serialized from scratch the three word arrays have
    the same length, the three segment arrays have the same length, and
    the two lengths add up to the number of entries of the transcript. *)
Theorem serialize_parallel_arrays (tr : Transcript.t) :
  let out := serialize_transcript_ tr empty_message in
  length (probs out) = length (words out) /\
  length (occ out) = length (words out) /\
  length (seg_start_time out) = length (seg_start_words_id out) /\
  length (seg_duration_ms out) = length (seg_start_words_id out) /\
  (length (words out) + length (seg_start_words_id out))%nat
  = length (Transcript.entries tr).
Proof.
  cbn zeta. unfold serialize_transcript_.
  pose proof (serialize_fold (Transcript.entries tr) empty_message 0) as Hf.
  cbn zeta in Hf.
  destruct (fold_left serialize_step (Transcript.entries tr) (empty_message, 0))
    as [msg' sk].
  simpl in *. destruct Hf as (H1 & H2 & H3 & H4 & H5 & H6).
  rewrite H1, H2, H3, H4, H5, H6, !length_fmap.
  repeat split; try reflexivity. simpl. apply entry_split_length.
Qed.

Lemma serialize_fold_ids_prefix (ws : list Word) :
  forall (msg : AudioTranscript) (n : Z),
    exists tail,
      seg_start_words_id (fold_left serialize_step ws (msg, n)).1
      = seg_start_words_id msg ++ tail.
Proof.
  induction ws as [|w ws IH]; intros msg n.
  - exists []. simpl. rewrite app_nil_r. reflexivity.
  - cbn [fold_left]. destruct w as [ts p k|sd k]; cbn [serialize_step];
      match goal with
      | |- context [fold_left serialize_step ws (?m, ?k)] =>
          destruct (IH m k) as [tail Ht]
      end; rewrite Ht; simpl.
    + exists tail. reflexivity.
    + eexists. rewrite <- app_assoc. reflexivity.
Qed.

Lemma serialize_fold_seg_ids (ws : list Word) :
  forall (msg : AudioTranscript) (n : Z) (p : nat) sd k,
    ws !! p = Some (Segment sd k) ->
    seg_start_words_id (fold_left serialize_step ws (msg, n)).1
      !! (length (seg_start_words_id msg) + length (omap entry_segment (take p ws)))%nat
    = Some (Z.of_nat (length (words msg) + length (omap entry_word (take p ws)))).
Proof.
  induction ws as [|w ws IH]; intros msg n p sd k Hp; [discriminate|].
  cbn [fold_left]. destruct p as [|p]; simpl in Hp.
  - injection Hp as ->. cbn [serialize_step].
    match goal with
    | |- context [fold_left serialize_step ws (?m, ?k)] =>
        destruct (serialize_fold_ids_prefix ws m k) as [tail Ht]
    end.
    rewrite Ht. simpl. rewrite <- app_assoc, !Nat.add_0_r.
    rewrite lookup_app_r by lia. rewrite Nat.sub_diag. reflexivity.
  - destruct w as [ts q j|sd' j]; cbn [serialize_step];
      match goal with
      | |- context [fold_left serialize_step ws (?m, ?c)] =>
          pose proof (IH m c p sd k Hp) as Hi
      end; simpl in Hi |- *; rewrite ?length_app in Hi; simpl in Hi;
      change (list_omap Word SegmentMetaData entry_segment (take p ws))
        with (omap entry_segment (take p ws));
      change (list_omap Word (string * Q * Z)%type entry_word (take p ws))
        with (omap entry_word (take p ws)).
    + rewrite Hi. do 2 f_equal. lia.
    + rewrite <- Hi. f_equal. lia.
Qed.

(** X14: for every segment of the transcript, the message written from
    scratch records, at the rank of the segment among the segments, the
    number of text words that precede it: the index into [words] at which
    the segment begins. *)
Theorem serialize_segment_start (tr : Transcript.t) (p : nat) sd k :
  let out := serialize_transcript_ tr empty_message in
  let es := Transcript.entries tr in
  es !! p = Some (Segment sd k) ->
  seg_start_words_id out !! length (omap entry_segment (take p es))
  = Some (Z.of_nat (length (omap entry_word (take p es)))).
Proof.
  cbn zeta. intros Hp. unfold serialize_transcript_.
  pose proof (serialize_fold_seg_ids (Transcript.entries tr) empty_message 0 p sd k Hp)
    as Hs.
  destruct (fold_left serialize_step (Transcript.entries tr) (empty_message, 0))
    as [msg' sk].
  simpl in *. exact Hs.
Qed.

(** X15: the published [active_index] is the stale boundary minus the
    number of all segments of the transcript; it equals the boundary minus
    the segments that precede it exactly when the active tail holds no
    segment. *)
Theorem serialize_active_index_agreement (tr : Transcript.t) (msg : AudioTranscript) :
  let out := serialize_transcript_ tr msg in
  active_index out
  = Transcript.stale_word_id tr - count_segments (Transcript.entries tr) /\
  (active_index out = Transcript.stale_word_id tr - segments_before_stale tr
   <-> count_segments (Transcript.get_words_splice tr) = 0).
Proof.
  cbn zeta. rewrite serialize_active_index. split; [reflexivity|].
  unfold segments_before_stale, Transcript.get_words_splice, count_segments.
  rewrite <- (take_drop (Z.to_nat (Transcript.stale_word_id tr)) (Transcript.entries tr))
    at 1.
  rewrite filter_app, length_app. lia.
Qed.
End SerializeExtras.

Lemma serialize_segment_start_witness :
  let tr := Transcript.mk [plain_segment 900; plain_word " a"; plain_word " b";
                           plain_segment 700; plain_word " c"] 0 in
  seg_start_words_id (@serialize_transcript_ mean_prob tr empty_message) !! 1%nat
  = Some 2.
Proof.
  apply (@serialize_segment_start mean_prob
           (Transcript.mk [plain_segment 900; plain_word " a"; plain_word " b";
                           plain_segment 700; plain_word " c"] 0)
           3 (mkSegment (mkToken "." (1 # 2)) 700 0) 1).
  reflexivity.
Defined.

(** ** The deserializer: what one iteration does *)

Lemma vat_vget {A} (d : A) (v : list A) (i : Z) (x : A) :
  vat v i = Some x -> vget d v i = x /\ 0 <= i < Z.of_nat (length v).
Proof.
  unfold vat, vget. destruct (decide (0 <= i)); [|discriminate].
  intros Hx. rewrite Hx. split; [reflexivity|].
  apply lookup_lt_Some in Hx. lia.
Qed.

Lemma vat_in_range {A} (d : A) (v : list A) (i : Z) :
  0 <= i < Z.of_nat (length v) -> vat v i = Some (vget d v i).
Proof.
  intros Hi. unfold vat. destruct (decide (0 <= i)); [|lia].
  apply vget_in_range. exact Hi.
Qed.

Section DeserializeMore.
Context `{TokenRules}.

(** The token at index [i] of a message. *)
Definition token_at (msg : WhisperTokens) (i : Z) : SingleToken :=
  mkToken (vget EmptyString (token_texts msg) i) (vget 0%Q (token_probs msg) i).

(** The record of the [k]-th segment of a message: its end token is the
    token before the start of the next segment, or the last token; its
    times are scaled to milliseconds. *)
Definition segment_of (msg : WhisperTokens) (k : Z) : SegmentMetaData :=
  let idxs := segment_start_token_idxs msg in
  let end_token_id :=
    if k =? Z.of_nat (length idxs) - 1
    then Z.of_nat (length (token_texts msg)) - 1
    else vget 0 idxs (k + 1) - 1 in
  mkSegment (token_at msg end_token_id)
    (vget 0 (end_times msg) k * whisper_ts_to_ms_ratio
     - vget 0 (start_times msg) k * whisper_ts_to_ms_ratio)
    (stamp msg + vget 0 (start_times msg) k * whisper_ts_to_ms_ratio).

(** The word that closes a non-empty word in progress. *)
Definition flushed (wip : list SingleToken) : list Word :=
  match wip with [] => [] | _ :: _ => [Word_of_tokens wip] end.

(** A message every index of which is in range: a probability for every
    token, a start and an end time for every segment, and every segment
    start after the first between 1 and the number of tokens (the token
    before it is the end token of the segment that precedes). *)
Definition well_formed (msg : WhisperTokens) : Prop :=
  (length (token_texts msg) <= length (token_probs msg))%nat /\
  (length (segment_start_token_idxs msg) <= length (start_times msg))%nat /\
  (length (segment_start_token_idxs msg) <= length (end_times msg))%nat /\
  Forall (fun x => 1 <= x <= Z.of_nat (length (token_texts msg)))
         (tail (segment_start_token_idxs msg)).

(** Within a well-formed message [token_at] reads no default. *)
Lemma token_at_exact msg i :
  well_formed msg -> 0 <= i < Z.of_nat (length (token_texts msg)) ->
  vat (token_texts msg) i = Some (token_text (token_at msg i)) /\
  vat (token_probs msg) i = Some (token_prob (token_at msg i)).
Proof.
  intros (Hp & _) Hi. unfold token_at. simpl.
  split; apply vat_in_range; lia.
Qed.

(** The segment block, when it has a result. *)
Lemma deserialize_segment_cases msg i st st1 :
  deserialize_segment msg i st = Some st1 ->
  st1 = st \/
  (segment_ptr st < Z.of_nat (length (segment_start_token_idxs msg)) /\
   i = vget 0 (segment_start_token_idxs msg) (segment_ptr st) /\
   st1 = mkDeser (out_words st ++ flushed (word_wip st)
                  ++ [Word_of_segment (segment_of msg (segment_ptr st))])
                 [] (segment_ptr st + 1)).
Proof.
  unfold deserialize_segment.
  destruct (Z.ltb_spec (segment_ptr st) (Z.of_nat (length (segment_start_token_idxs msg))));
    [|intros [= <-]; left; reflexivity].
  destruct (Z.eqb_spec i (vget 0 (segment_start_token_idxs msg) (segment_ptr st)));
    [|intros [= <-]; left; reflexivity].
  cbn [andb]. unfold segment_of, token_at.
  set (eid := if segment_ptr st =? _ then _ else _).
  destruct (vat (token_texts msg) eid) as [et|] eqn:Het; [|destruct (negb _); discriminate].
  destruct (vat (token_probs msg) eid) as [ep|] eqn:Hep; [|destruct (negb _); discriminate].
  destruct (vat (start_times msg) (segment_ptr st)) as [t0|] eqn:Ht0;
    [|destruct (negb _); discriminate].
  destruct (vat (end_times msg) (segment_ptr st)) as [t1|] eqn:Ht1;
    [|destruct (negb _); discriminate].
  apply (vat_vget EmptyString) in Het as [<- _].
  apply (vat_vget 0%Q) in Hep as [<- _].
  apply (vat_vget 0) in Ht0 as [<- _]. apply (vat_vget 0) in Ht1 as [<- _].
  intros Hst1. right. split; [assumption|]. split; [assumption|].
  destruct (word_wip st) as [|t wip] eqn:Hw; simpl in Hst1; injection Hst1 as <-;
    simpl; rewrite <- ?app_assoc; simpl; rewrite ?app_nil_r; reflexivity.
Qed.

(** The segment block leaves the state alone unless token [i] is the
    start of the next segment. *)
Lemma deserialize_segment_skip msg i st :
  ~ (segment_ptr st < Z.of_nat (length (segment_start_token_idxs msg)) /\
     i = vget 0 (segment_start_token_idxs msg) (segment_ptr st)) ->
  deserialize_segment msg i st = Some st.
Proof.
  intros Hn. unfold deserialize_segment.
  destruct (Z.ltb_spec (segment_ptr st) (Z.of_nat (length (segment_start_token_idxs msg))));
    [|reflexivity].
  destruct (Z.eqb_spec i (vget 0 (segment_start_token_idxs msg) (segment_ptr st)));
    [|reflexivity].
  destruct Hn. split; assumption.
Qed.

(** On a well-formed message the segment block has a result. *)
Lemma deserialize_segment_ok msg i st :
  well_formed msg ->
  0 <= i < Z.of_nat (length (token_texts msg)) -> 0 <= segment_ptr st ->
  exists st1, deserialize_segment msg i st = Some st1 /\
              segment_ptr st <= segment_ptr st1.
Proof.
  intros (Hp & Hs & He & Hidx) Hi Hptr. unfold deserialize_segment.
  set (idxs := segment_start_token_idxs msg) in *.
  destruct (Z.ltb_spec (segment_ptr st) (Z.of_nat (length idxs))) as [Hlt|];
    [|eexists; split; [reflexivity|lia]].
  destruct (Z.eqb_spec i (vget 0 idxs (segment_ptr st)));
    [|eexists; split; [reflexivity|lia]].
  cbn [andb].
  set (eid := if segment_ptr st =? _ then _ else _).
  assert (Hrange : 0 <= eid < Z.of_nat (length (token_texts msg))).
  { subst eid. destruct (Z.eqb_spec (segment_ptr st) (Z.of_nat (length idxs) - 1)); [lia|].
    pose proof (vget_in_range 0 idxs (segment_ptr st + 1) ltac:(lia)) as Hnext.
    assert (Htail : tail idxs !! Z.to_nat (segment_ptr st) = Some (vget 0 idxs (segment_ptr st + 1))).
    { destruct idxs as [|x0 idxs']; [simpl in Hlt; lia|]. simpl.
      replace (Z.to_nat (segment_ptr st + 1)) with (S (Z.to_nat (segment_ptr st))) in Hnext
        by lia. exact Hnext. }
    rewrite Forall_forall in Hidx. apply list_elem_of_lookup_2, Hidx in Htail. lia. }
  rewrite (vat_in_range EmptyString (token_texts msg) eid) by lia.
  rewrite (vat_in_range 0%Q (token_probs msg) eid) by lia.
  rewrite (vat_in_range 0 (start_times msg) (segment_ptr st)) by lia.
  rewrite (vat_in_range 0 (end_times msg) (segment_ptr st)) by lia.
  destruct (negb (wip_is_empty (word_wip st))); eexists; (split; [reflexivity|simpl; lia]).
Qed.

Lemma deserialize_space_cases msg i st :
  deserialize_space msg i st = st \/
  (word_wip st <> [] /\
   deserialize_space msg i st
   = mkDeser (out_words st ++ flushed (word_wip st)) [] (segment_ptr st)).
Proof.
  unfold deserialize_space.
  destruct (word_wip st) as [|t wip] eqn:Hw; simpl; [left; reflexivity|].
  destruct (string_is_empty _); simpl; [left; reflexivity|].
  destruct (starts_with_space _); [|left; reflexivity].
  right. split; [discriminate|reflexivity].
Qed.

Lemma deserialize_space_ptr msg i st :
  segment_ptr (deserialize_space msg i st) = segment_ptr st.
Proof.
  destruct (deserialize_space_cases msg i st) as [->|(_ & ->)]; reflexivity.
Qed.

(** One iteration of the loop: the three blocks in sequence. *)
Definition iteration (msg : WhisperTokens) (i : Z) (st : deser_state)
    : option (deser_state * Z) :=
  match deserialize_segment msg i st with
  | Some st1 => deserialize_token msg i (deserialize_space msg i st1)
  | None => None
  end.

Lemma deserialize_loop_step fuel msg i st :
  i < Z.of_nat (length (token_texts msg)) ->
  deserialize_loop (S fuel) msg i st
  = match iteration msg i st with
    | Some (st', i') => deserialize_loop fuel msg i' st'
    | None => None
    end.
Proof.
  intros Hi. simpl. destruct (Z.ltb_spec i (Z.of_nat (length (token_texts msg)))); [|lia].
  unfold iteration. destruct (deserialize_segment msg i st); reflexivity.
Qed.

Lemma deserialize_loop_done fuel msg i st :
  Z.of_nat (length (token_texts msg)) <= i ->
  deserialize_loop fuel msg i st = Some st.
Proof.
  intros Hi.
  destruct fuel; simpl;
    destruct (Z.ltb_spec i (Z.of_nat (length (token_texts msg)))); try lia; reflexivity.
Qed.

(** The invariant rule of the loop over the tokens. *)
Lemma deserialize_loop_inv (I : Z -> deser_state -> Prop) msg :
  (forall i st st' i', i < Z.of_nat (length (token_texts msg)) -> I i st ->
                       iteration msg i st = Some (st', i') -> I i' st') ->
  forall fuel i st st',
    I i st -> deserialize_loop fuel msg i st = Some st' ->
    exists i', Z.of_nat (length (token_texts msg)) <= i' /\ I i' st'.
Proof.
  intros Hstep. induction fuel as [|fuel IH]; intros i st st' HI Hrun.
  - simpl in Hrun.
    destruct (Z.ltb_spec i (Z.of_nat (length (token_texts msg)))); [discriminate|].
    injection Hrun as <-. exists i. split; assumption.
  - destruct (Z.ltb_spec i (Z.of_nat (length (token_texts msg)))) as [Hlt|Hge].
    + rewrite deserialize_loop_step in Hrun by assumption.
      destruct (iteration msg i st) as [[st1 i1]|] eqn:Hit; [|discriminate].
      eapply IH; [|exact Hrun]. eapply Hstep; eassumption.
    + rewrite deserialize_loop_done in Hrun by assumption.
      injection Hrun as <-. exists i. split; assumption.
Qed.

(** The joiner never reports a join of fewer than one token. *)
Definition joiner_advances (msg : WhisperTokens) : Prop :=
  forall i, (join_tokens (token_texts msg) i).1 = true ->
            1 <= (join_tokens (token_texts msg) i).2.

(** The four ways through the token block, when it has a result. *)
Lemma deserialize_token_cases msg i st st' i' :
  let texts := token_texts msg in
  deserialize_token msg i st = Some (st', i') ->
  (is_special_token texts i = true /\ (st', i') = (st, i + 1)) \/
  (is_special_token texts i = false /\ my_ispunct texts i = true /\
   (st', i')
   = (mkDeser (out_words st
               ++ [Word_of_tokens (word_wip st); Word_of_token (token_at msg i) true])
              [] (segment_ptr st), i + 1)) \/
  (is_special_token texts i = false /\ my_ispunct texts i = false /\
   (join_tokens texts i).1 = true /\
   (st', i')
   = (mkDeser (out_words st)
              (word_wip st
               ++ [mkToken (combine_text texts i (join_tokens texts i).2)
                           (combine_prob (token_probs msg) i (join_tokens texts i).2)])
              (segment_ptr st),
      i + (join_tokens texts i).2)) \/
  (is_special_token texts i = false /\ my_ispunct texts i = false /\
   (join_tokens texts i).1 = false /\
   (st', i')
   = (mkDeser (out_words st) (word_wip st ++ [token_at msg i]) (segment_ptr st), i + 1)).
Proof.
  cbn zeta. unfold deserialize_token, token_at.
  destruct (is_special_token _ _); [intros [= <- <-]; left; split; reflexivity|].
  destruct (my_ispunct _ _).
  { destruct (vat (token_probs msg) i) as [p|] eqn:Hp; [|discriminate].
    apply (vat_vget 0%Q) in Hp as [<- _].
    intros [= <- <-]. right. left. repeat split; reflexivity. }
  destruct (join_tokens (token_texts msg) i) as [[|] num]; simpl.
  - intros [= <- <-]. right. right. left. repeat split; try reflexivity. f_equal. lia.
  - destruct (vat (token_probs msg) i) as [p|] eqn:Hp; [|discriminate].
    apply (vat_vget 0%Q) in Hp as [<- _].
    intros [= <- <-]. right. right. right. repeat split; reflexivity.
Qed.

Lemma deserialize_token_ptr msg i st st' i' :
  deserialize_token msg i st = Some (st', i') -> segment_ptr st' = segment_ptr st.
Proof.
  intros Hrun.
  destruct (deserialize_token_cases msg i st st' i' Hrun)
    as [(_ & Heq)|[(_ & _ & Heq)|[(_ & _ & _ & Heq)|(_ & _ & _ & Heq)]]];
    injection Heq as -> _; reflexivity.
Qed.

(** On a well-formed message the token block has a result. *)
Lemma deserialize_token_ok msg i st :
  well_formed msg -> 0 <= i < Z.of_nat (length (token_texts msg)) ->
  exists st' i', deserialize_token msg i st = Some (st', i').
Proof.
  intros (Hp & _) Hi. unfold deserialize_token.
  rewrite (vat_in_range 0%Q (token_probs msg) i) by lia.
  destruct (is_special_token _ _); [eexists _, _; reflexivity|].
  destruct (my_ispunct _ _); [eexists _, _; reflexivity|].
  destruct (join_tokens (token_texts msg) i) as [[|] num]; eexists _, _; reflexivity.
Qed.

Lemma iteration_advances msg i st st' i' :
  joiner_advances msg -> iteration msg i st = Some (st', i') -> i + 1 <= i'.
Proof.
  intros Hj. unfold iteration.
  destruct (deserialize_segment msg i st) as [st1|]; [|discriminate].
  intros Hrun.
  destruct (deserialize_token_cases msg i _ st' i' Hrun)
    as [(_ & Heq)|[(_ & _ & Heq)|[(_ & _ & Hjoin & Heq)|(_ & _ & _ & Heq)]]];
    injection Heq as _ ->; try lia.
  specialize (Hj i Hjoin). lia.
Qed.

(** On a well-formed message an iteration has a result, and it never
    moves the segment pointer back. *)
Lemma iteration_ok msg i st :
  well_formed msg ->
  0 <= i < Z.of_nat (length (token_texts msg)) -> 0 <= segment_ptr st ->
  exists st' i', iteration msg i st = Some (st', i') /\ 0 <= segment_ptr st'.
Proof.
  intros Hwf Hi Hptr. unfold iteration.
  destruct (deserialize_segment_ok msg i st Hwf Hi Hptr) as (st1 & -> & Hle).
  destruct (deserialize_token_ok msg i (deserialize_space msg i st1) Hwf Hi)
    as (st' & i' & Hrun).
  exists st', i'. split; [exact Hrun|].
  rewrite (deserialize_token_ptr _ _ _ _ _ Hrun), deserialize_space_ptr. lia.
Qed.

Lemma deserialize_loop_total msg :
  joiner_advances msg -> well_formed msg ->
  forall fuel i st,
    0 <= i -> 0 <= segment_ptr st ->
    Z.of_nat (length (token_texts msg)) - i <= Z.of_nat fuel ->
    exists st', deserialize_loop fuel msg i st = Some st'.
Proof.
  intros Hj Hwf. induction fuel as [|fuel IH]; intros i st Hi Hptr Hfuel.
  - rewrite deserialize_loop_done by lia. eexists; reflexivity.
  - destruct (Z.ltb_spec i (Z.of_nat (length (token_texts msg)))) as [Hlt|Hge].
    + rewrite deserialize_loop_step by assumption.
      destruct (iteration_ok msg i st Hwf ltac:(lia) Hptr) as (st' & i' & Hit & Hptr').
      rewrite Hit. pose proof (iteration_advances msg i st st' i' Hj Hit).
      apply IH; [lia|exact Hptr'|lia].
    + rewrite deserialize_loop_done by assumption. eexists; reflexivity.
Qed.

(** What the output of [deserialize_msg_] is, given the final state of
    the loop. *)
Lemma deserialize_msg_final msg ws :
  deserialize_msg_ msg = Some ws ->
  exists st,
    deserialize_loop (length (token_texts msg)) msg 0 (mkDeser [] [] 0) = Some st /\
    ws = out_words st ++ flushed (word_wip st).
Proof.
  unfold deserialize_msg_.
  destruct (deserialize_loop _ msg 0 _) as [st|]; [|discriminate].
  intros Hr. exists st. split; [reflexivity|].
  destruct (word_wip st); simpl in *; injection Hr as <-;
    rewrite ?app_nil_r; reflexivity.
Qed.

(** A property of the state that each of the three blocks keeps is an
    invariant of the loop. *)
Lemma deserialize_blocks_inv (I : Z -> deser_state -> Prop) msg :
  (forall i st st1, I i st -> deserialize_segment msg i st = Some st1 -> I i st1) ->
  (forall i st, I i st -> I i (deserialize_space msg i st)) ->
  (forall i st st' i', i < Z.of_nat (length (token_texts msg)) -> I i st ->
                       deserialize_token msg i st = Some (st', i') -> I i' st') ->
  forall fuel i st st',
    I i st -> deserialize_loop fuel msg i st = Some st' ->
    exists i', Z.of_nat (length (token_texts msg)) <= i' /\ I i' st'.
Proof.
  intros Hseg Hsp Htok. apply deserialize_loop_inv.
  intros i st st' i' Hi HI. unfold iteration.
  destruct (deserialize_segment msg i st) as [st1|] eqn:Hs; [|discriminate].
  intros Hrun. eapply Htok; [exact Hi| |exact Hrun]. eapply Hsp, Hseg; eassumption.
Qed.
End DeserializeMore.

(** ** The deserializer: termination, token round trip and segments *)

(** The tokens of a word; a segment has none. *)
Definition word_tokens (w : Word) : list SingleToken :=
  match w with TextWord ts _ _ => ts | Segment _ _ => [] end.

(** The tokens of a list of words, in order. *)
Definition tokens_of (ws : list Word) : list SingleToken :=
  concat (map word_tokens ws).

Lemma tokens_of_app ws1 ws2 : tokens_of (ws1 ++ ws2) = tokens_of ws1 ++ tokens_of ws2.
Proof. unfold tokens_of. rewrite map_app, concat_app. reflexivity. Qed.

Lemma tokens_of_flushed wip : tokens_of (flushed wip) = wip.
Proof. destruct wip; [reflexivity|]. unfold tokens_of. simpl. rewrite app_nil_r. reflexivity. Qed.

Lemma segments_of_flushed wip : omap entry_segment (flushed wip) = [].
Proof. destruct wip; reflexivity. Qed.

(** No entry of [ws] is a segment. *)
Definition no_segment (ws : list Word) : Prop :=
  Forall (fun w => is_segment w = false) ws.

Lemma no_segment_flushed wip : no_segment (flushed wip).
Proof. destruct wip; repeat constructor. Qed.

Lemma no_segment_omap ws : no_segment ws -> omap entry_segment ws = [].
Proof.
  induction 1 as [|w ws Hw _ IH]; [reflexivity|].
  destruct w; [|discriminate]. simpl. exact IH.
Qed.

Section DeserializeExtras.
Context `{TokenRules}.

(** The tokens of the first [upto] positions of the message that are not
    special tokens. *)
Definition kept_tokens (msg : WhisperTokens) (upto : Z) : list SingleToken :=
  omap (fun i => if is_special_token (token_texts msg) i then None
                 else Some (token_at msg i))
       (seqZ 0 upto).

Lemma kept_tokens_succ msg i :
  0 <= i ->
  kept_tokens msg (i + 1)
  = kept_tokens msg i
    ++ (if is_special_token (token_texts msg) i then [] else [token_at msg i]).
Proof.
  intros Hi. unfold kept_tokens. rewrite seqZ_app by lia. rewrite omap_app. f_equal.
  rewrite seqZ_cons by lia. rewrite seqZ_nil by lia. simpl.
  replace (0 + i) with i by lia.
  destruct (is_special_token (token_texts msg) i); reflexivity.
Qed.

(** The joiner joins nothing in this message. *)
Definition never_joins (msg : WhisperTokens) : Prop :=
  forall i, (join_tokens (token_texts msg) i).1 = false.

Lemma never_joins_advances msg : never_joins msg -> joiner_advances msg.
Proof. intros Hn i Hi. rewrite Hn in Hi. discriminate. Qed.

(** Every segment of [ws] stands right after the tokens that precede the
    start index it was signalled at. *)
Definition segments_placed (msg : WhisperTokens) (ws : list Word) : Prop :=
  forall (p : nat) sd c,
    ws !! p = Some (Segment sd c) ->
    tokens_of (take p ws)
    = kept_tokens msg
        (vget 0 (segment_start_token_idxs msg)
              (Z.of_nat (length (omap entry_segment (take p ws))))).

Lemma segments_placed_app msg ws l :
  segments_placed msg ws -> no_segment l -> segments_placed msg (ws ++ l).
Proof.
  intros Hpl Hl p sd c Hp.
  apply lookup_app_Some in Hp as [Hp|[_ Hp]].
  - pose proof (lookup_lt_Some _ _ _ Hp) as Hlt.
    rewrite take_app_le by lia. apply (Hpl p sd c Hp).
  - unfold no_segment in Hl. rewrite Forall_forall in Hl.
    apply list_elem_of_lookup_2, Hl in Hp. discriminate.
Qed.

(** The loop invariant behind the round trip and the placement of the
    segments. *)
Definition placement_inv (msg : WhisperTokens) (i : Z) (st : deser_state) : Prop :=
  0 <= i <= Z.of_nat (length (token_texts msg)) /\
  tokens_of (out_words st) ++ word_wip st = kept_tokens msg i /\
  Z.of_nat (length (omap entry_segment (out_words st))) = segment_ptr st /\
  segments_placed msg (out_words st).

Lemma placement_inv_segment msg i st st1 :
  placement_inv msg i st -> deserialize_segment msg i st = Some st1 ->
  placement_inv msg i st1.
Proof.
  intros (H0 & HK & Hc & Hpl) Hrun.
  destruct (deserialize_segment_cases msg i st st1 Hrun) as [->|(Hlt & Hi & ->)];
    [split; [exact H0|repeat split; assumption]|].
  unfold placement_inv. simpl. rewrite !tokens_of_app, tokens_of_flushed.
  rewrite !omap_app, segments_of_flushed, !length_app. simpl.
  split; [exact H0|]. split; [rewrite !app_nil_r; exact HK|]. split; [lia|].
  rewrite app_assoc. intros p sd c Hp.
  apply lookup_app_Some in Hp as [Hp|[Hge Hp]].
  - pose proof (lookup_lt_Some _ _ _ Hp) as Hlt'.
    rewrite take_app_le by lia.
    apply (segments_placed_app msg _ _ Hpl (no_segment_flushed (word_wip st)) p sd c Hp).
  - destruct (p - length (out_words st ++ flushed (word_wip st)))%nat as [|m] eqn:Hm;
      [|destruct m; discriminate].
    assert (Hpe : p = length (out_words st ++ flushed (word_wip st))) by lia.
    rewrite Hpe, take_app_length.
    rewrite tokens_of_app, tokens_of_flushed, omap_app, segments_of_flushed, app_nil_r.
    rewrite Hc, <- Hi. exact HK.
Qed.

Lemma placement_inv_space msg i st :
  placement_inv msg i st -> placement_inv msg i (deserialize_space msg i st).
Proof.
  intros (H0 & HK & Hc & Hpl).
  destruct (deserialize_space_cases msg i st) as [->|(Hne & ->)];
    [split; [exact H0|repeat split; assumption]|].
  unfold placement_inv. simpl. rewrite tokens_of_app, tokens_of_flushed.
  rewrite omap_app, segments_of_flushed, !app_nil_r.
  split; [exact H0|]. split; [exact HK|]. split; [exact Hc|].
  apply segments_placed_app; [exact Hpl|apply no_segment_flushed].
Qed.

Lemma placement_inv_token msg i st st' i' :
  never_joins msg ->
  i < Z.of_nat (length (token_texts msg)) ->
  placement_inv msg i st ->
  deserialize_token msg i st = Some (st', i') ->
  placement_inv msg i' st'.
Proof.
  intros Hnj Hlt (H0 & HK & Hc & Hpl) Hrun.
  destruct (deserialize_token_cases msg i st st' i' Hrun)
    as [(Hs & Heq)|[(Hs & Hp & Heq)|[(Hs & Hp & Hj & Heq)|(Hs & Hp & Hj & Heq)]]];
    injection Heq as -> ->; unfold placement_inv; simpl.
  - rewrite kept_tokens_succ, Hs, app_nil_r by lia.
    split; [lia|]. repeat split; assumption.
  - rewrite kept_tokens_succ, Hs by lia.
    rewrite tokens_of_app, omap_app. unfold tokens_of at 2. simpl.
    rewrite !app_nil_r, <- HK, <- app_assoc.
    split; [lia|]. split; [reflexivity|]. split; [exact Hc|].
    apply segments_placed_app; [exact Hpl|repeat constructor].
  - rewrite Hnj in Hj. discriminate.
  - rewrite kept_tokens_succ, Hs by lia. rewrite app_assoc, HK.
    split; [lia|]. repeat split; assumption.
Qed.

Lemma deserialize_placement msg :
  never_joins msg -> well_formed msg ->
  exists st,
    deserialize_loop (length (token_texts msg)) msg 0 (mkDeser [] [] 0) = Some st /\
    deserialize_msg_ msg = Some (out_words st ++ flushed (word_wip st)) /\
    placement_inv msg (Z.of_nat (length (token_texts msg))) st.
Proof.
  intros Hnj Hwf.
  destruct (deserialize_loop_total msg (never_joins_advances msg Hnj) Hwf
              (length (token_texts msg)) 0 (mkDeser [] [] 0)
              ltac:(lia) ltac:(simpl; lia) ltac:(lia)) as [st Hrun].
  exists st. split; [exact Hrun|]. split.
  - unfold deserialize_msg_. rewrite Hrun.
    destruct (word_wip st); simpl; rewrite ?app_nil_r; reflexivity.
  - destruct (deserialize_blocks_inv (placement_inv msg) msg
                (placement_inv_segment msg) (placement_inv_space msg)
                (fun i s s' i' Hi => placement_inv_token msg i s s' i' Hnj Hi)
                (length (token_texts msg)) 0 (mkDeser [] [] 0) st)
      as (i' & Hi' & HI); [|exact Hrun|].
    + unfold placement_inv. simpl. split; [lia|]. split; [reflexivity|].
      split; [reflexivity|]. intros p sd c Hp. discriminate.
    + destruct HI as (Hr & HI). replace i' with (Z.of_nat (length (token_texts msg))) in *
        by lia. split; assumption.
Qed.

(** X16: the deserializer returns a word list on every well-formed message
    for which the joiner never reports a join of fewer than one token: no
    read is out of range, and the token index grows in every iteration. *)
Theorem deserialize_terminates (msg : WhisperTokens) :
  joiner_advances msg -> well_formed msg ->
  exists ws, deserialize_msg_ msg = Some ws.
Proof.
  intros Hj Hwf.
  destruct (deserialize_loop_total msg Hj Hwf (length (token_texts msg)) 0
              (mkDeser [] [] 0) ltac:(lia) ltac:(simpl; lia) ltac:(lia)) as [st Hrun].
  unfold deserialize_msg_. rewrite Hrun.
  destruct (negb (wip_is_empty (word_wip st))); eexists; reflexivity.
Qed.
End DeserializeExtras.

(** A text word without tokens is directly followed by a punctuation
    word. *)
Definition tokenless_before_punct (ws : list Word) : Prop :=
  forall (k : nat) p n,
    ws !! k = Some (TextWord [] p n) ->
    exists t, ws !! S k = Some (TextWord [t] true 1).

Lemma tokenless_before_punct_app ws l :
  tokenless_before_punct ws -> tokenless_before_punct l ->
  tokenless_before_punct (ws ++ l).
Proof.
  intros Hws Hl k p n Hk. apply lookup_app_Some in Hk as [Hk|[Hge Hk]].
  - destruct (Hws k p n Hk) as [t Ht]. exists t. apply lookup_app_l_Some, Ht.
  - destruct (Hl _ p n Hk) as [t Ht]. exists t.
    rewrite lookup_app_r by lia.
    replace (S k - length ws)%nat with (S (k - length ws)) by lia. exact Ht.
Qed.

Lemma tokenless_before_punct_flushed wip : tokenless_before_punct (flushed wip).
Proof.
  destruct wip as [|t wip]; intros [|k] p n Hk; simpl in Hk; discriminate.
Qed.

Lemma tokenless_before_punct_one w :
  word_tokens w <> [] \/ is_segment w = true -> tokenless_before_punct [w].
Proof.
  intros Hw [|k] p n Hk; simpl in Hk; [|discriminate].
  injection Hk as ->. simpl in Hw. destruct Hw; [contradiction|discriminate].
Qed.

(** The shape of a word the deserializer builds: its occurrence count is
    1, and if it is flagged as punctuation it holds exactly one token. *)
Definition fresh_word (w : Word) : Prop :=
  get_occurrences w = 1 /\ (is_punct w = true -> exists t, w = TextWord [t] true 1).

Lemma fresh_flushed wip : Forall fresh_word (flushed wip).
Proof.
  destruct wip; repeat constructor. simpl. discriminate.
Qed.

Section DeserializeTheorems.
Context `{TokenRules}.

Lemma space_keeps_segments msg i st :
  segment_ptr (deserialize_space msg i st) = segment_ptr st /\
  omap entry_segment (out_words (deserialize_space msg i st))
  = omap entry_segment (out_words st).
Proof.
  destruct (deserialize_space_cases msg i st) as [->|(_ & ->)]; [split; reflexivity|].
  simpl. rewrite omap_app, segments_of_flushed, app_nil_r. split; reflexivity.
Qed.

Lemma token_keeps_segments msg i st st' i' :
  deserialize_token msg i st = Some (st', i') ->
  segment_ptr st' = segment_ptr st /\
  omap entry_segment (out_words st') = omap entry_segment (out_words st).
Proof.
  intros Hrun.
  destruct (deserialize_token_cases msg i st st' i' Hrun)
    as [(_ & Heq)|[(_ & _ & Heq)|[(_ & _ & _ & Heq)|(_ & _ & _ & Heq)]]];
    injection Heq as -> _; simpl;
    rewrite ?omap_app; simpl; rewrite ?app_nil_r; split; reflexivity.
Qed.

(** X17: on a well-formed message in which the joiner joins nothing, the
    tokens of the output words, read in order, are exactly the tokens of
    the message that are not special tokens, each with its probability: no
    token is lost, repeated or moved. *)
Theorem deserialize_keeps_tokens (msg : WhisperTokens) :
  never_joins msg -> well_formed msg ->
  exists ws,
    deserialize_msg_ msg = Some ws /\
    tokens_of ws = kept_tokens msg (Z.of_nat (length (token_texts msg))).
Proof.
  intros Hnj Hwf.
  destruct (deserialize_placement msg Hnj Hwf) as (st & _ & Hout & _ & HK & _).
  eexists. split; [exact Hout|].
  rewrite tokens_of_app, tokens_of_flushed. exact HK.
Qed.

(** X18: on a well-formed message in which the joiner joins nothing,
    every segment marker of the output stands exactly where it was
    signalled: the tokens of the words before the [k]-th marker are the
    kept tokens with an index below the [k]-th segment start index. *)
Theorem deserialize_places_segments (msg : WhisperTokens) :
  never_joins msg -> well_formed msg ->
  exists ws,
    deserialize_msg_ msg = Some ws /\
    forall (p : nat) sd c,
      ws !! p = Some (Segment sd c) ->
      tokens_of (take p ws)
      = kept_tokens msg
          (vget 0 (segment_start_token_idxs msg)
                (Z.of_nat (length (omap entry_segment (take p ws))))).
Proof.
  intros Hnj Hwf.
  destruct (deserialize_placement msg Hnj Hwf) as (st & _ & Hout & _ & _ & _ & Hpl).
  eexists. split; [exact Hout|].
  apply segments_placed_app; [exact Hpl|apply no_segment_flushed].
Qed.

(** X19: a text word without tokens occurs in the output only directly
    before a punctuation word: the punctuation branch is the only place
    that pushes the word in progress without looking at it. *)
Theorem tokenless_words_precede_punctuation (msg : WhisperTokens) (ws : list Word) :
  deserialize_msg_ msg = Some ws ->
  forall (k : nat) p n,
    ws !! k = Some (TextWord [] p n) ->
    exists t, ws !! S k = Some (TextWord [t] true 1).
Proof.
  intros Hrun. destruct (deserialize_msg_final msg ws Hrun) as (st & Hloop & ->).
  apply tokenless_before_punct_app; [|apply tokenless_before_punct_flushed].
  destruct (deserialize_blocks_inv
              (fun _ s => tokenless_before_punct (out_words s)) msg) with
    (fuel := length (token_texts msg)) (i := 0) (st := mkDeser [] [] 0) (st' := st)
    as (i' & _ & HI); [| | | |exact Hloop|exact HI].
  - intros i s s1 Hs Hseg.
    destruct (deserialize_segment_cases msg i s s1 Hseg) as [->|(_ & _ & ->)]; [exact Hs|].
    simpl. apply tokenless_before_punct_app; [exact Hs|].
    apply tokenless_before_punct_app; [apply tokenless_before_punct_flushed|].
    apply tokenless_before_punct_one. right. reflexivity.
  - intros i s Hs.
    destruct (deserialize_space_cases msg i s) as [->|(_ & ->)]; [exact Hs|].
    simpl. apply tokenless_before_punct_app; [exact Hs|].
    apply tokenless_before_punct_flushed.
  - intros i s s' i' _ Hs Htok.
    destruct (deserialize_token_cases msg i s s' i' Htok)
      as [(_ & Heq)|[(_ & _ & Heq)|[(_ & _ & _ & Heq)|(_ & _ & _ & Heq)]]];
      injection Heq as -> _; simpl; try exact Hs.
    apply tokenless_before_punct_app; [exact Hs|].
    intros [|[|k]] p n Hk; simpl in Hk; try discriminate.
    eexists. reflexivity.
  - intros k p n Hk. discriminate.
Qed.

(** X20: every word of the output is fresh: its occurrence count is 1,
    and a word flagged as punctuation holds exactly one token. *)
Theorem deserialized_words_are_fresh (msg : WhisperTokens) (ws : list Word) :
  deserialize_msg_ msg = Some ws -> Forall fresh_word ws.
Proof.
  intros Hrun. destruct (deserialize_msg_final msg ws Hrun) as (st & Hloop & ->).
  apply Forall_app. split; [|apply fresh_flushed].
  destruct (deserialize_blocks_inv
              (fun _ s => Forall fresh_word (out_words s)) msg) with
    (fuel := length (token_texts msg)) (i := 0) (st := mkDeser [] [] 0) (st' := st)
    as (i' & _ & HI); [| | | |exact Hloop|exact HI].
  - intros i s s1 Hs Hseg.
    destruct (deserialize_segment_cases msg i s s1 Hseg) as [->|(_ & _ & ->)]; [exact Hs|].
    simpl. apply Forall_app. split; [exact Hs|].
    apply Forall_app. split; [apply fresh_flushed|].
    repeat constructor. simpl. discriminate.
  - intros i s Hs.
    destruct (deserialize_space_cases msg i s) as [->|(_ & ->)]; [exact Hs|].
    simpl. apply Forall_app. split; [exact Hs|apply fresh_flushed].
  - intros i s s' i' _ Hs Htok.
    destruct (deserialize_token_cases msg i s s' i' Htok)
      as [(_ & Heq)|[(_ & _ & Heq)|[(_ & _ & _ & Heq)|(_ & _ & _ & Heq)]]];
      injection Heq as -> _; simpl; try exact Hs.
    apply Forall_app. split; [exact Hs|].
    repeat constructor; simpl; try discriminate. intros _. eexists. reflexivity.
  - constructor.
Qed.

(** The loop invariant behind the count of the segments. *)
Definition segments_inv (msg : WhisperTokens) (i : Z) (st : deser_state) : Prop :=
  0 <= i /\
  0 <= segment_ptr st <= Z.of_nat (length (segment_start_token_idxs msg)) /\
  omap entry_segment (out_words st) = segment_of msg <$> seqZ 0 (segment_ptr st) /\
  (forall (k : nat) x,
     segment_start_token_idxs msg !! k = Some x -> segment_ptr st <= Z.of_nat k -> i <= x).

Lemma segments_inv_iteration msg i st st' i' :
  never_joins msg -> ascending (segment_start_token_idxs msg) ->
  segments_inv msg i st ->
  iteration msg i st = Some (st', i') ->
  segments_inv msg i' st'.
Proof.
  intros Hnj Hasc (H0 & Hptr & Hseg & Hnext). unfold iteration.
  destruct (deserialize_segment msg i st) as [st1|] eqn:Hrun1; [|discriminate].
  intros Hrun.
  set (idxs := segment_start_token_idxs msg) in *.
  assert (Hst1 : segments_inv msg (i + 1) st1).
  { destruct (decide (segment_ptr st < Z.of_nat (length idxs) /\
                      i = vget 0 idxs (segment_ptr st))) as [[Hlt Hi]|Hno].
    - destruct (deserialize_segment_cases msg i st st1 Hrun1) as [Hs|(_ & _ & Hs)].
      + exfalso. subst st1. unfold deserialize_segment in Hrun1. fold idxs in Hrun1.
        destruct (Z.ltb_spec (segment_ptr st) (Z.of_nat (length idxs))); [|lia].
        destruct (Z.eqb_spec i (vget 0 idxs (segment_ptr st))); [|lia].
        cbn [andb] in Hrun1.
        repeat match type of Hrun1 with
               | match ?x with _ => _ end = _ => destruct x; try discriminate
               end.
        injection Hrun1 as Hrun1. apply (f_equal segment_ptr) in Hrun1.
        simpl in Hrun1. destruct (negb (wip_is_empty (word_wip st))); simpl in Hrun1; lia.
      + rewrite Hs. unfold segments_inv. simpl. fold idxs.
        split; [lia|]. split; [lia|]. split.
        * rewrite !omap_app, segments_of_flushed, Hseg. simpl.
          rewrite seqZ_app by lia. rewrite fmap_app. f_equal.
        * intros k x Hk Hge.
          pose proof (vget_in_range 0 idxs (segment_ptr st) ltac:(lia)) as Hcur.
          pose proof (Hasc (Z.to_nat (segment_ptr st)) k _ _ ltac:(lia) Hcur Hk). lia.
    - rewrite (deserialize_segment_skip msg i st Hno) in Hrun1. injection Hrun1 as <-.
      unfold segments_inv. fold idxs.
      split; [lia|]. split; [exact Hptr|]. split; [exact Hseg|].
      intros k x Hk Hge.
      assert (Hlt : segment_ptr st < Z.of_nat (length idxs))
        by (apply lookup_lt_Some in Hk; lia).
      pose proof (vget_in_range 0 idxs (segment_ptr st) ltac:(lia)) as Hcur.
      pose proof (Hnext _ _ Hcur ltac:(lia)) as Hle.
      destruct (decide (Z.of_nat k = segment_ptr st)) as [Hkk|Hkk].
      + replace (Z.to_nat (segment_ptr st)) with k in Hcur by lia.
        rewrite Hk in Hcur. injection Hcur as Hx. lia.
      + pose proof (Hasc (Z.to_nat (segment_ptr st)) k _ _ ltac:(lia) Hcur Hk). lia. }
  destruct (space_keeps_segments msg i st1) as [Hp1 Ho1].
  destruct (token_keeps_segments msg i _ st' i' Hrun) as [Hp2 Ho2].
  assert (Hi' : i' = i + 1).
  { destruct (deserialize_token_cases msg i _ st' i' Hrun)
      as [(_ & Heq)|[(_ & _ & Heq)|[(_ & _ & Hj & _)|(_ & _ & _ & Heq)]]];
      try (injection Heq as _ ->; reflexivity). rewrite Hnj in Hj. discriminate. }
  destruct Hst1 as (H0' & Hptr' & Hseg' & Hnext').
  unfold segments_inv. rewrite Hi', Hp2, Hp1, Ho2, Ho1.
  repeat split; try assumption; lia.
Qed.

(** X21: on a well-formed message in which the joiner joins nothing and
    whose segment start indices are strictly ascending token indices, the
    output holds one segment marker per start index, in order, each with
    the end token, the duration and the start time of its segment. *)
Theorem deserialize_emits_every_segment (msg : WhisperTokens) :
  never_joins msg ->
  well_formed msg ->
  ascending (segment_start_token_idxs msg) ->
  Forall (fun x => 0 <= x < Z.of_nat (length (token_texts msg)))
         (segment_start_token_idxs msg) ->
  exists ws,
    deserialize_msg_ msg = Some ws /\
    omap entry_segment ws
    = segment_of msg <$> seqZ 0 (Z.of_nat (length (segment_start_token_idxs msg))).
Proof.
  intros Hnj Hwf Hasc Hrange.
  destruct (deserialize_placement msg Hnj Hwf) as (st & Hloop & Hout & _).
  eexists. split; [exact Hout|].
  rewrite omap_app, segments_of_flushed, app_nil_r.
  destruct (deserialize_loop_inv (segments_inv msg) msg
              (fun i s s' i' _ => segments_inv_iteration msg i s s' i' Hnj Hasc)
              (length (token_texts msg)) 0 (mkDeser [] [] 0) st)
    as (i' & Hi' & (_ & Hptr & Hseg & Hnext)); [|exact Hloop|].
  - unfold segments_inv. simpl. split; [lia|]. split; [lia|]. split; [reflexivity|].
    intros k x Hk _. rewrite Forall_forall in Hrange.
    apply list_elem_of_lookup_2, Hrange in Hk. lia.
  - rewrite Hseg. do 2 f_equal.
    destruct (decide (segment_ptr st = Z.of_nat (length (segment_start_token_idxs msg))))
      as [E|E]; [exact E|]. exfalso.
    pose proof (vget_in_range 0 (segment_start_token_idxs msg) (segment_ptr st)
                  ltac:(lia)) as Hcur.
    pose proof (Hnext _ _ Hcur ltac:(lia)) as Hle.
    rewrite Forall_forall in Hrange.
    apply list_elem_of_lookup_2, Hrange in Hcur. lia.
Qed.
End DeserializeTheorems.

(** The plain rules join nothing. *)
Lemma plain_rules_never_join msg : @never_joins plain_rules msg.
Proof. intros i. reflexivity. Qed.

Lemma deserialize_terminates_witness :
  exists ws,
    @deserialize_msg_ plain_rules
      (mkTokens 0 [" Hello"; ","; " world"] [(9 # 10)%Q; (8 # 10)%Q; (7 # 10)%Q] [] [] [])
    = Some ws.
Proof.
  apply (@deserialize_terminates plain_rules).
  - apply never_joins_advances, plain_rules_never_join.
  - unfold well_formed. simpl. repeat split; try lia. constructor.
Defined.

Lemma deserialize_keeps_tokens_witness :
  let msg := mkTokens 0 [" Hello"; "[_BEG_]"; ","; " world"]
               [(9 # 10)%Q; (1 # 1)%Q; (8 # 10)%Q; (7 # 10)%Q] [0] [0] [120] in
  exists ws,
    @deserialize_msg_ plain_rules msg = Some ws /\
    tokens_of ws = @kept_tokens plain_rules msg 4.
Proof.
  apply (@deserialize_keeps_tokens plain_rules
           (mkTokens 0 [" Hello"; "[_BEG_]"; ","; " world"]
              [(9 # 10)%Q; (1 # 1)%Q; (8 # 10)%Q; (7 # 10)%Q] [0] [0] [120])).
  - apply plain_rules_never_join.
  - unfold well_formed. simpl. repeat split; try lia. constructor.
Defined.

Lemma deserialize_places_segments_witness :
  let msg := mkTokens 0 [" a"; " b"; " c"; " d"]
               [(1 # 2)%Q; (1 # 2)%Q; (1 # 2)%Q; (1 # 2)%Q] [0; 2] [0; 100] [100; 180] in
  exists ws,
    @deserialize_msg_ plain_rules msg = Some ws /\
    forall (p : nat) sd c,
      ws !! p = Some (Segment sd c) ->
      tokens_of (take p ws)
      = @kept_tokens plain_rules msg
          (vget 0 (segment_start_token_idxs msg)
                (Z.of_nat (length (omap entry_segment (take p ws))))).
Proof.
  apply (@deserialize_places_segments plain_rules
           (mkTokens 0 [" a"; " b"; " c"; " d"]
              [(1 # 2)%Q; (1 # 2)%Q; (1 # 2)%Q; (1 # 2)%Q] [0; 2] [0; 100] [100; 180])).
  - apply plain_rules_never_join.
  - unfold well_formed. simpl. repeat split; try lia. repeat constructor; lia.
Defined.

Lemma tokenless_words_precede_punctuation_witness :
  exists t,
    [TextWord [] false 1; TextWord [mkToken "," (9 # 10)] true 1] !! 1%nat
    = Some (TextWord [t] true 1).
Proof.
  apply (@tokenless_words_precede_punctuation plain_rules
           (mkTokens 0 [","] [(9 # 10)%Q] [] [] [])
           [TextWord [] false 1; TextWord [mkToken "," (9 # 10)] true 1]
           ltac:(vm_compute; reflexivity) 0%nat false 1).
  reflexivity.
Defined.

Lemma deserialized_words_are_fresh_witness :
  Forall fresh_word
    [Word_of_tokens [mkToken " Hi" (1 # 2); mkToken "gh" (1 # 2)];
     Word_of_token (mkToken "," (1 # 2)) true;
     Word_of_tokens [mkToken " you" (1 # 2)]].
Proof.
  apply (@deserialized_words_are_fresh plain_rules
           (mkTokens 0 [" Hi"; "gh"; ","; " you"; "[_TT_150_]"]
              [(1 # 2)%Q; (1 # 2)%Q; (1 # 2)%Q; (1 # 2)%Q; (1 # 2)%Q] [] [] [])).
  vm_compute. reflexivity.
Defined.

Lemma deserialize_emits_every_segment_witness :
  let msg := mkTokens 0 [" a"; " b"; " c"; " d"]
               [(1 # 2)%Q; (1 # 2)%Q; (1 # 2)%Q; (1 # 2)%Q] [0; 2] [0; 100] [100; 180] in
  exists ws,
    @deserialize_msg_ plain_rules msg = Some ws /\
    omap entry_segment ws = @segment_of msg <$> seqZ 0 2.
Proof.
  apply (@deserialize_emits_every_segment plain_rules
           (mkTokens 0 [" a"; " b"; " c"; " d"]
              [(1 # 2)%Q; (1 # 2)%Q; (1 # 2)%Q; (1 # 2)%Q] [0; 2] [0; 100] [100; 180])).
  - apply plain_rules_never_join.
  - unfold well_formed. simpl. repeat split; try lia. repeat constructor; lia.
  - intros [|[|k1]] [|[|k2]] x y Hlt Hx Hy; simpl in *; simplify_eq; lia.
  - apply (bool_decide_unpack _). vm_compute. exact I.
Defined.

(** ** The action handler *)

(** The handler as it is entered: at the head of its loop, [batch_idx] 0,
    no transcription in the result yet. *)
Definition handler_start : Handler.state := Handler.mkState Handler.LoopHead 0 [] 0.

(** The texts of the words of a batch that are not segment markers, joined
    in order behind [message]. *)
Definition batch_text (ws : list Word) : string :=
  fold_right String.append EmptyString
             (get <$> filter (fun w => is_segment w = false) ws).

(** Whether the handler has returned with "Inference succeeded." *)
Definition reports_success (s : Handler.state) : bool :=
  match Handler.at_ s with
  | Handler.Finished Handler.Succeeded => true
  | _ => false
  end.

(** From its first [false] on, [rclcpp::ok()] stays [false]. *)
Fixpoint ok_stays_down (trace : list Handler.env) : Prop :=
  match trace with
  | [] => True
  | e :: trace' =>
      (Handler.ok e = false -> Forall (fun e' => Handler.ok e' = false) trace') /\
      ok_stays_down trace'
  end.

Lemma append_assoc (a b c : string) :
  String.append (String.append a b) c = String.append a (String.append b c).
Proof.
  induction a as [|x a IH]; [reflexivity|].
  change (String x (String.append (String.append a b) c)
          = String x (String.append a (String.append b c))).
  rewrite IH. reflexivity.
Qed.

Lemma append_empty_r (a : string) : String.append a EmptyString = a.
Proof.
  induction a as [|x a IH]; [reflexivity|].
  change (String x (String.append a EmptyString) = String x a).
  rewrite IH. reflexivity.
Qed.

Lemma drain_batch (ws : list Word) (message : string) :
  fold_left (fun message word =>
               if is_segment word then message
               else String.append message (get word)) ws message
  = String.append message (batch_text ws).
Proof.
  revert message. induction ws as [|w ws IH]; intros message; simpl.
  - symmetry. apply append_empty_r.
  - rewrite IH. unfold batch_text. rewrite filter_cons.
    destruct (is_segment w) eqn:Hw.
    + rewrite decide_False by discriminate. reflexivity.
    + rewrite decide_True by reflexivity. simpl. apply append_assoc.
Qed.

Lemma batch_text_app (ws1 ws2 : list Word) :
  batch_text (ws1 ++ ws2) = String.append (batch_text ws1) (batch_text ws2).
Proof.
  unfold batch_text. rewrite filter_app, fmap_app.
  induction (get <$> filter (fun w => is_segment w = false) ws1) as [|x l IH]; simpl.
  - reflexivity.
  - rewrite IH. symmetry. apply append_assoc.
Qed.

Lemma step_counts (e : Handler.env) (s : Handler.state) :
  Z.of_nat (length (Handler.transcriptions s)) = Handler.batch_idx s ->
  Z.of_nat (length (Handler.transcriptions (Handler.step e s)))
  = Handler.batch_idx (Handler.step e s).
Proof.
  intros Hs. unfold Handler.step, Handler.goto.
  destruct (Handler.at_ s); simpl;
    repeat match goal with
           | |- context [if ?c then _ else _] => destruct c
           | |- context [match Handler.queue e with _ => _ end] =>
               destruct (Handler.queue e)
           end; simpl; rewrite ?length_app; simpl; lia.
Qed.

Lemma step_extends (e : Handler.env) (s : Handler.state) :
  exists more,
    Handler.transcriptions (Handler.step e s) = Handler.transcriptions s ++ more /\
    Handler.batch_idx (Handler.step e s)
    = Handler.batch_idx s + Z.of_nat (length more).
Proof.
  unfold Handler.step, Handler.goto.
  destruct (Handler.at_ s); simpl;
    repeat match goal with
           | |- context [if ?c then _ else _] => destruct c
           | |- context [match Handler.queue e with _ => _ end] =>
               destruct (Handler.queue e)
           end; simpl;
    first [ exists []; rewrite app_nil_r; simpl; split; [reflexivity|lia]
          | eexists [_]; split; [reflexivity|simpl; lia] ].
Qed.

Lemma run_cons (e : Handler.env) (trace : list Handler.env) (s : Handler.state) :
  Handler.run (e :: trace) s = Handler.run trace (Handler.step e s).
Proof. reflexivity. Qed.

Lemma finished_stays (trace : list Handler.env) (s : Handler.state) o :
  Handler.at_ s = Handler.Finished o -> Handler.run trace s = s.
Proof.
  intros Hs. induction trace as [|e trace IH]; [reflexivity|].
  rewrite run_cons. unfold Handler.step. rewrite Hs. exact IH.
Qed.

Lemma run_never_succeeds (trace : list Handler.env) (s : Handler.state) :
  ok_stays_down trace ->
  Handler.at_ s <> Handler.Finished Handler.Succeeded ->
  (Handler.at_ s = Handler.AfterLoop ->
   Forall (fun e => Handler.ok e = false) trace) ->
  Handler.at_ (Handler.run trace s) <> Handler.Finished Handler.Succeeded.
Proof.
  revert s. induction trace as [|e trace IH]; intros s Hdown Hs Hafter; [exact Hs|].
  rewrite run_cons. destruct Hdown as [Hhead Hdown].
  apply IH; [exact Hdown| |]; unfold Handler.step, Handler.goto.
  - destruct (Handler.at_ s) eqn:Hat; simpl.
    + destruct (Handler.ok e); simpl; [|discriminate].
      destruct (Handler.past_max_duration e); [discriminate|].
      destruct (Handler.is_canceling e); discriminate.
    + destruct (Handler.queue e); discriminate.
    + specialize (Hafter eq_refl). inversion Hafter as [|? ? Hok _]; subst.
      rewrite Hok. discriminate.
    + rewrite Hat. exact Hs.
  - destruct (Handler.at_ s) eqn:Hat; simpl.
    + destruct (Handler.ok e) eqn:Hok; simpl.
      * destruct (Handler.past_max_duration e); [discriminate|].
        destruct (Handler.is_canceling e); discriminate.
      * intros _. apply Hhead. reflexivity.
    + destruct (Handler.queue e); discriminate.
    + destruct (Handler.ok e); discriminate.
    + rewrite Hat. discriminate.
Qed.

(** X22: the number of transcriptions in the result always equals
    [batch_idx]: every published feedback is numbered with its position in
    the result. *)
Theorem batches_are_counted (trace : list Handler.env) :
  Z.of_nat (length (Handler.transcriptions (Handler.run trace handler_start)))
  = Handler.batch_idx (Handler.run trace handler_start).
Proof.
  assert (Hgen : forall s,
             Z.of_nat (length (Handler.transcriptions s)) = Handler.batch_idx s ->
             Z.of_nat (length (Handler.transcriptions (Handler.run trace s)))
             = Handler.batch_idx (Handler.run trace s)).
  { induction trace as [|e trace IH]; intros s Hs; [exact Hs|].
    rewrite run_cons. apply IH, step_counts, Hs. }
  apply Hgen. reflexivity.
Qed.

(** X23: the handler only appends to the result: whatever it observes, the
    transcriptions collected so far stay a prefix of the later ones, and
    [batch_idx] grows by the number of transcriptions added. *)
Theorem transcriptions_only_grow (trace : list Handler.env) (s : Handler.state) :
  exists more,
    Handler.transcriptions (Handler.run trace s) = Handler.transcriptions s ++ more /\
    Handler.batch_idx (Handler.run trace s)
    = Handler.batch_idx s + Z.of_nat (length more).
Proof.
  revert s. induction trace as [|e trace IH]; intros s.
  - exists []. rewrite app_nil_r. simpl. split; [reflexivity|lia].
  - rewrite run_cons. destruct (IH (Handler.step e s)) as (m2 & Ht2 & Hb2).
    destruct (step_extends e s) as (m1 & Ht1 & Hb1).
    exists (m1 ++ m2). rewrite Ht2, Ht1, Hb2, Hb1, length_app, app_assoc.
    split; [reflexivity|lia].
Qed.

(** X24: when [rclcpp::ok()] never comes back once it was [false], the
    handler never reports "Inference succeeded": the test behind the loop
    is reached only after the loop condition failed. *)
Theorem never_succeeds_once_down (trace : list Handler.env) :
  ok_stays_down trace ->
  reports_success (Handler.run trace handler_start) = false.
Proof.
  intros Hdown.
  pose proof (run_never_succeeds trace handler_start Hdown
                ltac:(discriminate) ltac:(discriminate)) as Hne.
  unfold reports_success.
  destruct (Handler.at_ (Handler.run trace handler_start)) as [| | |[]];
    try reflexivity.
  destruct Hne. reflexivity.
Qed.

(** X25: the feedback text of a drained queue is the text of all its
    words that are not segment markers, batch after batch in queue order. *)
Theorem drain_skips_segments (q : list (list Word)) :
  Handler.drain q = batch_text (concat q).
Proof.
  unfold Handler.drain.
  assert (Hgen : forall message,
             fold_left (fun message ws =>
                          fold_left (fun message word =>
                                       if is_segment word then message
                                       else String.append message (get word))
                                    ws message) q message
             = String.append message (batch_text (concat q))).
  { induction q as [|ws q IH]; intros message; simpl.
    - symmetry. apply append_empty_r.
    - rewrite IH, drain_batch, batch_text_app. apply append_assoc. }
  apply Hgen.
Qed.

(** ** The merge driver *)

Section DriverFacts.
Context `{WordProb}.

Lemma merge_one_stale (tr : Transcript.t) (new_words : list Word) :
  exists tr' ops,
    merge_one_ tr new_words = Some (tr', ops) /\
    Transcript.get_stale_word_id tr <= Transcript.get_stale_word_id tr'.
Proof.
  destruct (merge_one_cases tr new_words)
    as [[He Hrun]|(He & IA & IB & Hlcs & _ & [[HIA Hrun]|(HIA & ops & _ & _ & Hrun)])];
    eexists _, _; (split; [exact Hrun|]);
    unfold Transcript.get_stale_word_id; simpl; lia.
Qed.

Lemma merge_all_stale (queue : list (list Word)) (tr : Transcript.t) :
  exists tr',
    merge_all tr queue = Some tr' /\
    Transcript.get_stale_word_id tr <= Transcript.get_stale_word_id tr'.
Proof.
  revert tr. induction queue as [|ws queue IH]; intros tr; simpl.
  - exists tr. split; [reflexivity|lia].
  - destruct (merge_one_stale tr ws) as (tr1 & ops & -> & Hle1).
    destruct (IH tr1) as (tr' & -> & Hle2).
    exists tr'. split; [reflexivity|lia].
Qed.

Lemma clear_queue_merged (tr : Transcript.t) (queue : list (list Word)) :
  exists tr' published,
    clear_queue_ tr queue = Some (tr', published) /\ merge_all tr queue = Some tr'.
Proof.
  destruct (merge_all_stale queue tr) as (tr' & Hall & _).
  unfold clear_queue_. rewrite Hall.
  destruct queue; eexists tr', _; split; reflexivity.
Qed.

(** X26: [clear_queue_] always returns, whatever the transcript and the
    queue hold; it publishes a message exactly when the queue held at least
    one batch, and the message is the serialization of the transcript it
    leaves behind. *)
Theorem clear_queue_returns (tr : Transcript.t) (queue : list (list Word)) :
  exists tr' published,
    clear_queue_ tr queue = Some (tr', published) /\
    merge_all tr queue = Some tr' /\
    (queue = [] -> tr' = tr /\ published = None) /\
    (queue <> [] -> published = Some (serialize_transcript_ tr' empty_message)).
Proof.
  destruct (merge_all_stale queue tr) as (tr' & Hall & _).
  unfold clear_queue_. rewrite Hall. destruct queue as [|ws queue].
  - exists tr', None. simpl in Hall. injection Hall as <-.
    repeat split; congruence.
  - eexists tr', _. split; [reflexivity|]. split; [reflexivity|].
    split; [discriminate|]. reflexivity.
Qed.

(** X27: draining the queue never moves the stale boundary back, however
    many batches are merged. *)
Theorem clear_queue_keeps_stale_boundary (tr : Transcript.t) (queue : list (list Word)) :
  exists tr' published,
    clear_queue_ tr queue = Some (tr', published) /\
    Transcript.get_stale_word_id tr <= Transcript.get_stale_word_id tr'.
Proof.
  destruct (merge_all_stale queue tr) as (tr' & Hall & Hle).
  unfold clear_queue_. rewrite Hall.
  destruct queue; eexists tr', _; (split; [reflexivity|exact Hle]).
Qed.

(** X28: draining a queue in two calls leaves the same transcript as
    draining it in one. *)
Theorem clear_queue_in_two (tr : Transcript.t) (q1 q2 : list (list Word)) :
  exists tr1 p1 tr2 p2 p,
    clear_queue_ tr q1 = Some (tr1, p1) /\
    clear_queue_ tr1 q2 = Some (tr2, p2) /\
    clear_queue_ tr (q1 ++ q2) = Some (tr2, p).
Proof.
  destruct (clear_queue_merged tr q1) as (tr1 & p1 & H1 & Hm1).
  destruct (clear_queue_merged tr1 q2) as (tr2 & p2 & H2 & Hm2).
  destruct (clear_queue_merged tr (q1 ++ q2)) as (tr3 & p & H3 & Hm3).
  exists tr1, p1, tr2, p2, p. split; [exact H1|]. split; [exact H2|].
  rewrite H3. do 2 f_equal.
  assert (Happ : merge_all tr (q1 ++ q2) = Some tr2).
  { clear H1 H2 H3 Hm3. revert tr Hm1. induction q1 as [|ws q1 IH]; intros tr Hm1.
    - simpl in Hm1. injection Hm1 as ->. exact Hm2.
    - simpl in Hm1 |- *. destruct (merge_one_ tr ws) as [[tr0 ?]|]; [|discriminate].
      apply IH, Hm1. }
  congruence.
Qed.
End DriverFacts.

Lemma never_succeeds_once_down_witness :
  reports_success
    (Handler.run [Handler.mkEnv true false false [];
                  Handler.mkEnv true false false [[Word_of_tokens [mkToken " hi" (1 # 2)]]];
                  Handler.mkEnv false false false [];
                  Handler.mkEnv false false false []]
                 handler_start)
  = false.
Proof.
  apply never_succeeds_once_down. simpl.
  repeat split; try discriminate; intros _; repeat constructor.
Defined.

